(** * Tag lifecycle of the tag manager: a shallow embedding of
      [api/src/managers/tag/TagManager.ts] and its properties.

    The mutation resolvers of [TagManager] are embedded as functions in a
    state-and-exception monad over a document store.  The collaborators
    the resolvers call but that live in other files of the repository
    (repositories, the organisation access check, [ModelUtils], [TagUtils],
    [Model.bulkGQLSet]) are modelled from the specification; each such
    definition says so in its documentation. *)

From stdpp Require Import gmap strings list fin_maps.
From Stdlib Require Import ZArith Permutation.

Open Scope Z_scope.
Open Scope string_scope.
Open Scope list_scope.

(** ** Identifiers *)

(** Modelled from the spec: the identifier type of the document database
    (mongodb's [ObjectId]) -- "opaque, comparable, serializable".
    [toString] is [id.toString()], [ObjectId_new s] is [new ObjectId(s)]
    ([None] when the constructor throws on a malformed string) and
    [ObjectId_fresh] is the argument-less [new ObjectId()], which yields an
    identifier no existing document carries. *)
Class ObjectIdOps := {
  ObjectId : Type;
  toString : ObjectId -> string;
  ObjectId_new : string -> option ObjectId;
  ObjectId_fresh : list ObjectId -> ObjectId;
  ObjectId_new_toString : forall x, ObjectId_new (toString x) = Some x;
  ObjectId_fresh_spec : forall l, ObjectId_fresh l ∉ l
}.

Section Identifiers.
Context `{ObjectIdOps}.

Lemma toString_inj (x y : ObjectId) : toString x = toString y -> x = y.
Proof.
  intros E. apply (f_equal ObjectId_new) in E.
  rewrite !ObjectId_new_toString in E. congruence.
Qed.

#[global] Instance toString_Inj : Inj (=) (=) toString.
Proof. intros x y. apply toString_inj. Qed.

#[global] Instance ObjectId_eq_dec : EqDecision ObjectId.
Proof.
  intros x y. destruct (decide (toString x = toString y)) as [E|E].
  - left. by apply toString_inj.
  - right. congruence.
Defined.

#[global] Instance ObjectId_countable : Countable ObjectId :=
  inj_countable toString ObjectId_new ObjectId_new_toString.

(** [a.equals(b)] on identifiers. *)
Definition equals (a b : ObjectId) : bool := bool_decide (a = b).

End Identifiers.

(** ** Enumerations and messages *)

Inductive TagType := HEAD | PLACEMENT.

#[global] Instance TagType_eq_dec : EqDecision TagType.
Proof. solve_decision. Defined.

(** The entries of [userMessages] the resolvers refer to. *)
Inductive UserMessage := tagFailed | revisionFailed | reOrderProblem.

Inductive Message :=
| UserMsg (m : UserMessage)
| Literal (s : string).

(** [GQLError (msg, userFacing?)] is the error the resolvers throw
    themselves; the others are raised by collaborators. *)
Inductive Error :=
| GQLError (msg : Message) (userFacing : option bool)
| NotFound (msg : UserMessage)
| AuthorizationDenied
| PersistenceFailure
| BSONTypeError.

Inductive OperationOwner := USER | SYSTEM.

(** [GQLMethod]: the four tags used by the resolvers, and [CREATE] for the
    saves the collaborators perform on entities they allocate (the
    specification does not name that tag). *)
Inductive GQLMethod :=
| CREATE
| ADD_LINKED_ENTITY
| DELETE_LINKED_ENTITY
| UPDATE_PROPERTIES
| REORDER_LINKED_ENTITIES.

Inductive Capability := ViewAccess | CreateAccess | EditAccess | DeleteAccess.

Inductive Result (A : Type) :=
| Ok (a : A)
| Throw (e : Error).
Arguments Ok {A} a.
Arguments Throw {A} e.

(** [Array.prototype.indexOf] on an array of strings: the first position
    of [x], or [-1]. *)
Fixpoint indexOf (l : list string) (x : string) : Z :=
  match l with
  | [] => -1
  | y :: l' =>
      if String.eqb y x then 0
      else let i := indexOf l' x in if (i =? -1)%Z then -1 else i + 1
  end.

(** ** Enumerations of the common package

    A string enum of TypeScript gives each member a name and the string
    it is initialised with; [name] and [value] are the two columns of the
    declaration. *)

(** [enum TypeIcon] of [common/enums/TypeIcon.ts]: the members, the name
    of each and the string it is initialised with. *)
Module TypeIcon.

Inductive t :=
| DEFAULT
| DEFAULT_DATA_MAP
| OBJECT
| OBJECTS
| RADIO
| CHECKBOX
| COLOR
| CODE
| DATE
| SELECTOR
| GEO
| TEXT
| NUMBER
| LIST
| DEFAULT_ACTION
| VISUAL_ACTION
| LOG_ACTION
| USER_ACTION
| DATA_ACTION
| ADD_ACTION
| UPDATE_ACTION
| DELETE_ACTION
| RESET_ACTION
| PUSH_ACTION
| PULL_ACTION
| SYNC_ACTION
| CODE_ACTION
| DEFAULT_EVENT
| CODE_EVENT
| BROWSER_EVENT
| PAGE_EVENT
| TAG_EVENT
| DEFAULT_DATA_CONTAINER
| BROWSER_DATA_CONTAINER
| ENVIRONMENT_DATA_CONTAINER
| PLATFORM_DATA_CONTAINER.

Definition name (i : t) : string :=
  match i with
  | DEFAULT => "DEFAULT"
  | DEFAULT_DATA_MAP => "DEFAULT_DATA_MAP"
  | OBJECT => "OBJECT"
  | OBJECTS => "OBJECTS"
  | RADIO => "RADIO"
  | CHECKBOX => "CHECKBOX"
  | COLOR => "COLOR"
  | CODE => "CODE"
  | DATE => "DATE"
  | SELECTOR => "SELECTOR"
  | GEO => "GEO"
  | TEXT => "TEXT"
  | NUMBER => "NUMBER"
  | LIST => "LIST"
  | DEFAULT_ACTION => "DEFAULT_ACTION"
  | VISUAL_ACTION => "VISUAL_ACTION"
  | LOG_ACTION => "LOG_ACTION"
  | USER_ACTION => "USER_ACTION"
  | DATA_ACTION => "DATA_ACTION"
  | ADD_ACTION => "ADD_ACTION"
  | UPDATE_ACTION => "UPDATE_ACTION"
  | DELETE_ACTION => "DELETE_ACTION"
  | RESET_ACTION => "RESET_ACTION"
  | PUSH_ACTION => "PUSH_ACTION"
  | PULL_ACTION => "PULL_ACTION"
  | SYNC_ACTION => "SYNC_ACTION"
  | CODE_ACTION => "CODE_ACTION"
  | DEFAULT_EVENT => "DEFAULT_EVENT"
  | CODE_EVENT => "CODE_EVENT"
  | BROWSER_EVENT => "BROWSER_EVENT"
  | PAGE_EVENT => "PAGE_EVENT"
  | TAG_EVENT => "TAG_EVENT"
  | DEFAULT_DATA_CONTAINER => "DEFAULT_DATA_CONTAINER"
  | BROWSER_DATA_CONTAINER => "BROWSER_DATA_CONTAINER"
  | ENVIRONMENT_DATA_CONTAINER => "ENVIRONMENT_DATA_CONTAINER"
  | PLATFORM_DATA_CONTAINER => "PLATFORM_DATA_CONTAINER"
  end.

Definition value (i : t) : string :=
  match i with
  | DEFAULT => "DEFAULT"
  | DEFAULT_DATA_MAP => "DEFAULT_DATA_MAP"
  | OBJECT => "OBJECT"
  | OBJECTS => "OBJECTS"
  | RADIO => "RADIO"
  | CHECKBOX => "CHECKBOX"
  | COLOR => "COLOR"
  | CODE => "CODE"
  | DATE => "DATE"
  | SELECTOR => "SELECTOR"
  | GEO => "GEO"
  | TEXT => "CHECKBOX"
  | NUMBER => "NUMBER"
  | LIST => "LIST"
  | DEFAULT_ACTION => "DEFAULT_ACTION"
  | VISUAL_ACTION => "VISUAL_ACTION"
  | LOG_ACTION => "LOG_ACTION"
  | USER_ACTION => "USER_ACTION"
  | DATA_ACTION => "DATA_ACTION"
  | ADD_ACTION => "ADD_ACTION"
  | UPDATE_ACTION => "UPDATE_ACTION"
  | DELETE_ACTION => "DELETE_ACTION"
  | RESET_ACTION => "RESET_ACTION"
  | PUSH_ACTION => "PUSH_ACTION"
  | PULL_ACTION => "PULL_ACTION"
  | SYNC_ACTION => "SYNC_ACTION"
  | CODE_ACTION => "CODE_ACTION"
  | DEFAULT_EVENT => "DEFAULT_EVENT"
  | CODE_EVENT => "CODE_EVENT"
  | BROWSER_EVENT => "BROWSER_EVENT"
  | PAGE_EVENT => "PAGE_EVENT"
  | TAG_EVENT => "TAG_EVENT"
  | DEFAULT_DATA_CONTAINER => "DEFAULT_DATA_CONTAINER"
  | BROWSER_DATA_CONTAINER => "BROWSER_DATA_CONTAINER"
  | ENVIRONMENT_DATA_CONTAINER => "ENVIRONMENT_DATA_CONTAINER"
  | PLATFORM_DATA_CONTAINER => "PLATFORM_DATA_CONTAINER"
  end.

End TypeIcon.

(** The macro enums of the data manager: [enum DataManagerStringMacros]. *)
Module StringMacros.

Inductive t :=
| S8_DATE_TIME_UTC
| S8_USER_HASH
| S8_USER_IP
| S8_USER_AGENT
| S8_USER_COUNTRY_CODE
| S8_ORG_ID
| S8_INGEST_ENDPOINT_ID
| S8_INGEST_ENV_ID
| S8_INGEST_REVISION_ID
| S8_BROWSER_NAME
| S8_BROWSER_VERSION
| S8_BROWSER_MINOR_VERSION
| S8_OS_NAME
| S8_OS_VERSION
| S8_OS_MINOR_VERSION
| S8_OS_PATCH_VERSION
| S8_DEVICE_NAME
| S8_DEVICE_MODEL
| S8_DEVICE_BRAND.

Definition name (m : t) : string :=
  match m with
  | S8_DATE_TIME_UTC => "S8_DATE_TIME_UTC"
  | S8_USER_HASH => "S8_USER_HASH"
  | S8_USER_IP => "S8_USER_IP"
  | S8_USER_AGENT => "S8_USER_AGENT"
  | S8_USER_COUNTRY_CODE => "S8_USER_COUNTRY_CODE"
  | S8_ORG_ID => "S8_ORG_ID"
  | S8_INGEST_ENDPOINT_ID => "S8_INGEST_ENDPOINT_ID"
  | S8_INGEST_ENV_ID => "S8_INGEST_ENV_ID"
  | S8_INGEST_REVISION_ID => "S8_INGEST_REVISION_ID"
  | S8_BROWSER_NAME => "S8_BROWSER_NAME"
  | S8_BROWSER_VERSION => "S8_BROWSER_VERSION"
  | S8_BROWSER_MINOR_VERSION => "S8_BROWSER_MINOR_VERSION"
  | S8_OS_NAME => "S8_OS_NAME"
  | S8_OS_VERSION => "S8_OS_VERSION"
  | S8_OS_MINOR_VERSION => "S8_OS_MINOR_VERSION"
  | S8_OS_PATCH_VERSION => "S8_OS_PATCH_VERSION"
  | S8_DEVICE_NAME => "S8_DEVICE_NAME"
  | S8_DEVICE_MODEL => "S8_DEVICE_MODEL"
  | S8_DEVICE_BRAND => "S8_DEVICE_BRAND"
  end.

Definition value (m : t) : string :=
  match m with
  | S8_DATE_TIME_UTC => "%S8_DATE_TIME_UTC%"
  | S8_USER_HASH => "%S8_USER_HASH%"
  | S8_USER_IP => "%S8_USER_IP%"
  | S8_USER_AGENT => "%S8_USER_AGENT%"
  | S8_USER_COUNTRY_CODE => "%S8_USER_COUNTRY_CODE%"
  | S8_ORG_ID => "%S8_ORG_ID%"
  | S8_INGEST_ENDPOINT_ID => "%S8_INGEST_ENDPOINT_ID%"
  | S8_INGEST_ENV_ID => "%S8_INGEST_ENV_ID%"
  | S8_INGEST_REVISION_ID => "%S8_INGEST_REVISION_ID%"
  | S8_BROWSER_NAME => "%S8_BROWSER_NAME%"
  | S8_BROWSER_VERSION => "%S8_BROWSER_VERSION%"
  | S8_BROWSER_MINOR_VERSION => "%S8_BROWSER_MINOR_VERSION%"
  | S8_OS_NAME => "%S8_OS_NAME%"
  | S8_OS_VERSION => "%S8_OS_VERSION%"
  | S8_OS_MINOR_VERSION => "%S8_OS_MINOR_VERSION%"
  | S8_OS_PATCH_VERSION => "%S8_OS_PATCH_VERSION%"
  | S8_DEVICE_NAME => "%S8_DEVICE_NAME%"
  | S8_DEVICE_MODEL => "%S8_DEVICE_MODEL%"
  | S8_DEVICE_BRAND => "%S8_DEVICE_BRAND%"
  end.

End StringMacros.

(** [enum DataManagerIntegerMacros]. *)
Module IntegerMacros.

Inductive t :=
| S8_RANDOM_INTEGER
| S8_TIME_STAMP_UTC.

Definition name (m : t) : string :=
  match m with
  | S8_RANDOM_INTEGER => "S8_RANDOM_INTEGER"
  | S8_TIME_STAMP_UTC => "S8_TIME_STAMP_UTC"
  end.

Definition value (m : t) : string :=
  match m with
  | S8_RANDOM_INTEGER => "%S8_RANDOM_INTEGER%"
  | S8_TIME_STAMP_UTC => "%S8_TIME_STAMP_UTC%"
  end.

End IntegerMacros.

(** [enum DataManagerFloatMacros]. *)
Module FloatMacros.

Inductive t := .

Definition name (m : t) : string := match m with end.

Definition value (m : t) : string := match m with end.

End FloatMacros.

(** [enum DataManagerBooleanMacros]. *)
Module BooleanMacros.

Inductive t := .

Definition name (m : t) : string := match m with end.

Definition value (m : t) : string := match m with end.

End BooleanMacros.

(** [enum DataManagerDateTimeMacros]. *)
Module DateTimeMacros.

Inductive t :=
| S8_DATE_TIME_UTC.

Definition name (m : t) : string :=
  match m with
  | S8_DATE_TIME_UTC => "S8_DATE_TIME_UTC"
  end.

Definition value (m : t) : string :=
  match m with
  | S8_DATE_TIME_UTC => "%S8_DATE_TIME_UTC%"
  end.

End DateTimeMacros.

(** [enum DataManagerTimestampMacros]. *)
Module TimestampMacros.

Inductive t :=
| S8_TIME_STAMP_UTC.

Definition name (m : t) : string :=
  match m with
  | S8_TIME_STAMP_UTC => "S8_TIME_STAMP_UTC"
  end.

Definition value (m : t) : string :=
  match m with
  | S8_TIME_STAMP_UTC => "%S8_TIME_STAMP_UTC%"
  end.

End TimestampMacros.

Section Model.
Context `{ObjectIdOps}.

(** ** Documents

    A document is modelled by the properties the resolvers of the manager
    read and write.  The schema also declares [created_at] and
    [updated_at] on a tag; the resolvers never touch them, they are
    maintained by the persistence layer on every save.  They are left
    out of [Tag], so a stored [Tag] stands for the document up to its
    two timestamps, and no statement of this development says anything
    about them. *)

Record Tag := {
  tag_id : ObjectId;
  tag_orgId : ObjectId;
  tag_name : string;
  tag_tagCode : string;
  tag_revisionId : ObjectId;
  tag_type : TagType;
  tag_ruleGroupIds : list ObjectId;
  tag_width : Z;
  tag_height : Z;
  tag_autoLoad : bool;
  tag_isActive : bool
}.

Record RuleGroup := {
  rg_id : ObjectId;
  rg_name : string
}.

Record Revision := {
  rev_id : ObjectId;
  rev_orgId : ObjectId;
  rev_tagIds : list ObjectId
}.

Record User := { user_id : ObjectId }.

(** Assignments to one property of a document ([tag.ruleGroupIds = ...],
    [duplicate.name = ...], [revision.tagIds = ...]). *)
Definition setRuleGroupIds (ids : list ObjectId) (t : Tag) : Tag :=
  {| tag_id := tag_id t; tag_orgId := tag_orgId t; tag_name := tag_name t;
     tag_tagCode := tag_tagCode t; tag_revisionId := tag_revisionId t;
     tag_type := tag_type t; tag_ruleGroupIds := ids; tag_width := tag_width t;
     tag_height := tag_height t; tag_autoLoad := tag_autoLoad t;
     tag_isActive := tag_isActive t |}.

Definition setName (name : string) (t : Tag) : Tag :=
  {| tag_id := tag_id t; tag_orgId := tag_orgId t; tag_name := name;
     tag_tagCode := tag_tagCode t; tag_revisionId := tag_revisionId t;
     tag_type := tag_type t; tag_ruleGroupIds := tag_ruleGroupIds t;
     tag_width := tag_width t; tag_height := tag_height t;
     tag_autoLoad := tag_autoLoad t; tag_isActive := tag_isActive t |}.

Definition setTagIds (ids : list ObjectId) (r : Revision) : Revision :=
  {| rev_id := rev_id r; rev_orgId := rev_orgId r; rev_tagIds := ids |}.

Inductive Model :=
| TagModel (t : Tag)
| RevisionModel (r : Revision)
| RuleGroupModel (g : RuleGroup).

(** The fourth argument of [Repo.save]. *)
Record AuditMeta := {
  gqlMethod : GQLMethod;
  userComments : option string;
  opConnectedModels : list Model
}.

(** One line of the journal the persistence layer keeps: every write that
    reached the store, oldest first. *)
Inductive Write :=
| Saved (m : Model) (actor : User) (owner : OperationOwner) (meta : AuditMeta)
| Deleted (m : Model) (actor : User).

(** The document store.  [writesLeft] is the fault model of the
    persistence layer: [None] is a store whose writes never fail,
    [Some n] one that accepts [n] more writes and fails every later one
    with [PersistenceFailure]. *)
Record Store := {
  tags : gmap ObjectId Tag;
  revisions : gmap ObjectId Revision;
  ruleGroups : gmap ObjectId RuleGroup;
  journal : list Write;
  writesLeft : option nat
}.

(** ** The monad of a request: state passing with exceptions.  A thrown
    error keeps the writes already made (there is no transaction). *)

Definition M (A : Type) : Type := Store -> Store * Result A.

Definition ret {A} (a : A) : M A := fun s => (s, Ok a).

Definition throw {A} (e : Error) : M A := fun s => (s, Throw e).

Definition bind {A B} (m : M A) (k : A -> M B) : M B :=
  fun s =>
    match m s with
    | (s', Ok a) => k a s'
    | (s', Throw e) => (s', Throw e)
    end.

End Model.

Notation "'let*' x ':=' m 'in' k" := (bind m (fun x => k))
  (at level 10, x name, m at level 100, k at level 200).

Notation "'let*' ' p ':=' m 'in' k" := (bind m (fun x => match x with p => k end))
  (at level 10, p pattern, m at level 100, k at level 200).

Section Collaborators.
Context `{ObjectIdOps}.

Fixpoint mapM {A B} (f : A -> M B) (l : list A) : M (list B) :=
  match l with
  | [] => ret []
  | a :: l' =>
      let* b := f a in
      let* bs := mapM f l' in
      ret (b :: bs)
  end.

(** [new ObjectId(s)] inside a resolver. *)
Definition newObjectId (s : string) : M ObjectId :=
  match ObjectId_new s with
  | Some i => ret i
  | None => throw BSONTypeError
  end.

(** [strings.map((_) => new ObjectId(_))]: the first malformed string
    throws. *)
Fixpoint newObjectIds (l : list string) : option (list ObjectId) :=
  match l with
  | [] => Some []
  | s :: l' =>
      match ObjectId_new s with
      | Some i =>
          match newObjectIds l' with
          | Some ids => Some (i :: ids)
          | None => None
          end
      | None => None
      end
  end.

(** *** Repositories *)

(** What [repoFactory(T)] needs to know about a model class. *)
Class Repo (T : Type) := {
  model_id : T -> ObjectId;
  collection : Store -> gmap ObjectId T;
  with_collection : gmap ObjectId T -> Store -> Store;
  as_model : T -> Model
}.

#[global] Instance TagRepo : Repo Tag := {|
  model_id := tag_id;
  collection := tags;
  with_collection c s :=
    {| tags := c; revisions := revisions s; ruleGroups := ruleGroups s;
       journal := journal s; writesLeft := writesLeft s |};
  as_model := TagModel
|}.

#[global] Instance RevisionRepo : Repo Revision := {|
  model_id := rev_id;
  collection := revisions;
  with_collection c s :=
    {| tags := tags s; revisions := c; ruleGroups := ruleGroups s;
       journal := journal s; writesLeft := writesLeft s |};
  as_model := RevisionModel
|}.

#[global] Instance RuleGroupRepo : Repo RuleGroup := {|
  model_id := rg_id;
  collection := ruleGroups;
  with_collection c s :=
    {| tags := tags s; revisions := revisions s; ruleGroups := c;
       journal := journal s; writesLeft := writesLeft s |};
  as_model := RuleGroupModel
|}.

(** The store after a write [w] has gone through: the journal grows by
    [w] and one unit of [writesLeft] is used up. *)
Definition written (w : Write) (s : Store) : Store :=
  {| tags := tags s; revisions := revisions s; ruleGroups := ruleGroups s;
     journal := journal s ++ [w]; writesLeft := pred <$> writesLeft s |}.

(** Modelled from the spec: the persistence layer under every repository
    write.  A write either fails with [PersistenceFailure] and changes
    nothing, or applies [upd] to the collections and is recorded. *)
Definition persist (w : Write) (upd : Store -> Store) : M unit :=
  fun s =>
    match writesLeft s with
    | Some O => (s, Throw PersistenceFailure)
    | _ => (written w (upd s), Ok tt)
    end.

(** Modelled from the spec: [Repo.findByIdThrows(id, errorMessage)] --
    "findByIdThrows(id, errorMessage) -> Entity (fails loudly)", a
    [NotFound] error carrying the fixed message of the entity type. *)
Definition findByIdThrows {T} {R : Repo T} (id : ObjectId) (msg : UserMessage) : M T :=
  fun s =>
    match collection s !! id with
    | Some x => (s, Ok x)
    | None => (s, Throw (NotFound msg))
    end.

(** Modelled from the spec: [Repo.findByIds(ids)] -- "findByIds(ids) ->
    [Entity]".  The spec gives the signature only.  It is read here as a
    query by a set of identifiers: the documents the identifiers resolve
    to, each once, in the order the identifiers first occur, identifiers
    that resolve to nothing being skipped.  Each of the three (once,
    order, skipping) is an assumption of this model, not a fact of the
    source. *)
Definition findByIds {T} {R : Repo T} (ids : list ObjectId) : M (list T) :=
  fun s => (s, Ok (omap (fun i => collection s !! i) (remove_dups ids))).

(** Modelled from the spec: [Repo.save(entity, actor, owner, auditMeta)]
    -- "save-with-audit-metadata": stores the document under its
    identifier, records the write, and returns the document.  The
    timestamps the persistence layer sets on a save are outside the
    documents of this model (see [Tag]): what is filed is the document
    up to its timestamps. *)
Definition save {T} {R : Repo T} (x : T) (actor : User) (owner : OperationOwner)
    (meta : AuditMeta) : M T :=
  let* _ := persist (Saved (as_model x) actor owner meta)
                    (fun s => with_collection (<[model_id x := x]> (collection s)) s) in
  ret x.

(** Modelled from the spec: removal of one document, the write
    [deleteModelCascading] performs per entity. *)
Definition deleteModel {T} {R : Repo T} (x : T) (actor : User) : M unit :=
  persist (Deleted (as_model x) actor)
          (fun s => with_collection (delete (model_id x) (collection s)) s).

(** Every identifier a document of the store carries. *)
Definition storeIds (s : Store) : list ObjectId :=
  (map_to_list (tags s)).*1 ++ (map_to_list (revisions s)).*1
    ++ (map_to_list (ruleGroups s)).*1.

(** The argument-less [new ObjectId()]. *)
Definition generateObjectId : M ObjectId :=
  fun s => (s, Ok (ObjectId_fresh (storeIds s))).

(** *** The organisation access check *)

(** Modelled from the spec: the request context, reduced to what the
    authorization collaborator decides from it: the acting identity of
    the session, if any, and the capabilities it holds per organisation. *)
Record CTX := {
  ctx_user : option User;
  ctx_access : ObjectId -> Capability -> bool
}.

(** Modelled from the spec: [orgAuth.asUserWith<Capability>Access(ctx,
    orgId, continuation)] -- "yields the acting identity or rejects the
    operation"; "the mutation body only executes if the actor is granted
    the requested capability; rejection short-circuits with no side
    effects". *)
Definition asUserWithAccess {A} (cap : Capability) (ctx : CTX) (orgId : ObjectId)
    (k : User -> M A) : M A :=
  match ctx_user ctx with
  | Some me => if ctx_access ctx orgId cap then k me else throw AuthorizationDenied
  | None => throw AuthorizationDenied
  end.

Definition asUserWithViewAccess {A} := @asUserWithAccess A ViewAccess.
Definition asUserWithCreateAccess {A} := @asUserWithAccess A CreateAccess.
Definition asUserWithEditAccess {A} := @asUserWithAccess A EditAccess.
Definition asUserWithDeleteAccess {A} := @asUserWithAccess A DeleteAccess.

(** The caller of the request holds capability [cap] on [org]. *)
Definition hasAccess (ctx : CTX) (org : ObjectId) (cap : Capability) : bool :=
  match ctx_user ctx with
  | Some _ => ctx_access ctx org cap
  | None => false
  end.

End Collaborators.

Section TagManager.
Context `{ObjectIdOps}.

(** ** GraphQL types of the schema *)

(** [type Tag] of the schema, what [toGQLType] hands to the caller; the
    custom resolvers read [revision_id] and [id] from it. *)
Record TagGQL := {
  gql_id : string;
  gql_name : string;
  gql_tag_code : string;
  gql_revision_id : string;
  gql_type : TagType;
  gql_rule_group_ids : list string;
  gql_width : Z;
  gql_height : Z;
  gql_auto_load : bool;
  gql_is_active : bool
}.

(** Modelled from the spec: [Model.toGQLType()], the projection of a
    document on its schema type, identifiers serialized. *)
Definition toGQLType (t : Tag) : TagGQL := {|
  gql_id := toString (tag_id t);
  gql_name := tag_name t;
  gql_tag_code := tag_tagCode t;
  gql_revision_id := toString (tag_revisionId t);
  gql_type := tag_type t;
  gql_rule_group_ids := map toString (tag_ruleGroupIds t);
  gql_width := tag_width t;
  gql_height := tag_height t;
  gql_auto_load := tag_autoLoad t;
  gql_is_active := tag_isActive t
|}.

(** [input TagCreateInput], defaults of the schema applied
    ([width = 0], [height = 0], [auto_load = false]). *)
Record TagCreateInput := {
  tc_revision_id : string;
  tc_name : string;
  tc_type : TagType;
  tc_width : Z;
  tc_height : Z;
  tc_auto_load : bool;
  tc_comments : option string
}.

Record TagDuplicateInput := {
  td_tag_id : string;
  td_name : string
}.

(** [input TagDeleteInput], default [preview = false] applied. *)
Record TagDeleteInput := {
  tx_tag_id : string;
  tx_preview : bool;
  tx_comments : option string
}.

(** [input TagUpdateInput]: every property is optional, [None] is a key
    the payload does not carry.  The resolver receives [args: any], so the
    record also has the keys of a [Tag] that the input type does not
    declare ([tu_type] to [tu_rule_group_ids]); a payload that is
    well-typed for the schema has them all [None]. *)
Record TagUpdateInput := {
  tu_tag_id : string;
  tu_name : option string;
  tu_is_active : option bool;
  tu_width : option Z;
  tu_height : option Z;
  tu_auto_load : option bool;
  tu_comments : option string;
  tu_type : option TagType;
  tu_tag_code : option string;
  tu_revision_id : option ObjectId;
  tu_rule_group_ids : option (list ObjectId)
}.

Record TagRuleGroupOrderInput := {
  ro_tag_id : string;
  ro_new_order : list string
}.

(** [type ModelDeleteAcknowledgement]: the identity of one entity a
    delete covers. *)
Record ModelDeleteAcknowledgement := {
  ack_model : string;
  ack_id : ObjectId;
  ack_name : string
}.

(** ** Collaborators on models *)

(** The value [bulkGQLSet] gives a property: the payload's, when the key
    is allowed and present, else the one the document has. *)
Definition gqlSet {A} (only : list string) (key : string) (v : option A) (old : A) : A :=
  if bool_decide (key ∈ only) then default old v else old.

(** Modelled from the spec: [Model.bulkGQLSet(data, only)] -- "apply only
    the fields explicitly present in the input (partial update semantics
    -- absent fields are left untouched, not reset to defaults)", and of
    those only the keys listed in [only]. *)
Definition bulkGQLSet (data : TagUpdateInput) (only : list string) (t : Tag) : Tag := {|
  tag_id := tag_id t;
  tag_orgId := tag_orgId t;
  tag_name := gqlSet only "name" (tu_name data) (tag_name t);
  tag_tagCode := gqlSet only "tag_code" (tu_tag_code data) (tag_tagCode t);
  tag_revisionId := gqlSet only "revision_id" (tu_revision_id data) (tag_revisionId t);
  tag_type := gqlSet only "type" (tu_type data) (tag_type t);
  tag_ruleGroupIds :=
    gqlSet only "rule_group_ids" (tu_rule_group_ids data) (tag_ruleGroupIds t);
  tag_width := gqlSet only "width" (tu_width data) (tag_width t);
  tag_height := gqlSet only "height" (tu_height data) (tag_height t);
  tag_autoLoad := gqlSet only "auto_load" (tu_auto_load data) (tag_autoLoad t);
  tag_isActive := gqlSet only "is_active" (tu_is_active data) (tag_isActive t)
|}.

Definition ackTag (t : Tag) : ModelDeleteAcknowledgement :=
  {| ack_model := "Tag"; ack_id := tag_id t; ack_name := tag_name t |}.

Definition ackRuleGroup (g : RuleGroup) : ModelDeleteAcknowledgement :=
  {| ack_model := "RuleGroup"; ack_id := rg_id g; ack_name := rg_name g |}.

(** Modelled from the spec: [ModelUtils.deleteModelCascading(actor,
    entity, previewFlag)] -- "cascade-delete the Tag and everything
    transitively owned by it"; with the preview flag "only compute and
    return what would be deleted -- a dry-run that must not mutate any
    persisted state"; the output is "an ordered sequence of per-entity
    deletion acknowledgements ..., covering the Tag and all cascaded
    children, real or simulated depending on preview".  The inner
    structure of a rule group is outside the specification, so the
    cascade stops at the rule groups the tag lists. *)
Definition deleteModelCascading (actor : User) (t : Tag) (preview : bool)
    : M (list ModelDeleteAcknowledgement) :=
  let* groups := findByIds (T:=RuleGroup) (tag_ruleGroupIds t) in
  let* _ :=
    if preview then ret tt
    else
      let* _ := deleteModel t actor in
      let* _ := mapM (fun g => deleteModel g actor) groups in
      ret tt in
  ret (ackTag t :: map ackRuleGroup groups).

(** A rule group copied for a branch: the same content under a new
    identifier. *)
Definition cloneRuleGroup (actor : User) (g : RuleGroup) : M RuleGroup :=
  let* i := generateObjectId in
  save {| rg_id := i; rg_name := rg_name g |} actor USER
       {| gqlMethod := CREATE; userComments := None; opConnectedModels := [] |}.

(** Modelled from the spec: [ModelUtils.createNewModelBranchFromModel
    (actor, sourceEntity, repoType)] on a tag -- "deep-copy the source
    Tag's mutable fields into a new entity that inherits the same tagCode
    ... but receives a new identifier"; the duplicate receives "its own
    independent copy" of the rule groups.  The copy is persisted. *)
Definition createNewModelBranchFromModel (actor : User) (t : Tag) : M Tag :=
  let* groups := findByIds (T:=RuleGroup) (tag_ruleGroupIds t) in
  let* copies := mapM (cloneRuleGroup actor) groups in
  let* i := generateObjectId in
  save {| tag_id := i;
          tag_orgId := tag_orgId t;
          tag_name := tag_name t;
          tag_tagCode := tag_tagCode t;
          tag_revisionId := tag_revisionId t;
          tag_type := tag_type t;
          tag_ruleGroupIds := map rg_id copies;
          tag_width := tag_width t;
          tag_height := tag_height t;
          tag_autoLoad := tag_autoLoad t;
          tag_isActive := tag_isActive t |} actor USER
       {| gqlMethod := CREATE; userComments := None; opConnectedModels := [] |}.

(** Modelled from the spec: [TagUtils.createTagSkeleton(actor, revision,
    name, type, width, height, autoLoad, comments)] -- "allocate a new
    Tag with a freshly generated lineage tagCode, empty ruleGroupIds,
    revisionId set to the target Revision, persisted ...; append the new
    Tag's id to the Revision's tagIds and persist that change too,
    recording the Tag as a connected model on the Revision's audit
    entry".  The lineage code is derived from the new identifier; a new
    tag starts active. *)
Definition createTagSkeleton (actor : User) (revision : Revision) (name : string)
    (type : TagType) (width height : Z) (autoLoad : bool) (comments : option string)
    : M Tag :=
  let* i := generateObjectId in
  let* t := save {| tag_id := i;
                    tag_orgId := rev_orgId revision;
                    tag_name := name;
                    tag_tagCode := toString i;
                    tag_revisionId := rev_id revision;
                    tag_type := type;
                    tag_ruleGroupIds := [];
                    tag_width := width;
                    tag_height := height;
                    tag_autoLoad := autoLoad;
                    tag_isActive := true |} actor USER
                 {| gqlMethod := CREATE; userComments := comments;
                    opConnectedModels := [] |} in
  let* _ := save (setTagIds (rev_tagIds revision ++ [tag_id t]) revision) actor USER
                 {| gqlMethod := ADD_LINKED_ENTITY; userComments := comments;
                    opConnectedModels := [TagModel t] |} in
  ret t.

(** ** The mutation resolvers of [TagManager] *)

Definition autoLoadPlacementError : Error :=
  GQLError (Literal "Auto-load can not be used with this placement type") None.

Definition reOrderError : Error := GQLError (UserMsg reOrderProblem) (Some true).

(** The condition of [updateRuleGroupsOrder]: the lengths agree and every
    current identifier, as a string, is found in [new_order]. *)
Definition reorderAccepted (t : Tag) (new_order : list string) : bool :=
  (Z.of_nat (length (tag_ruleGroupIds t)) =? Z.of_nat (length new_order))%Z
  && forallb (fun x => negb (indexOf new_order x =? -1)%Z)
             (map toString (tag_ruleGroupIds t)).

Definition updateRuleGroupsOrder (ctx : CTX) (data : TagRuleGroupOrderInput) : M bool :=
  let* tagId := newObjectId (ro_tag_id data) in
  let* t := findByIdThrows (T:=Tag) tagId tagFailed in
  asUserWithEditAccess ctx (tag_orgId t) (fun me =>
    if reorderAccepted t (ro_new_order data) then
      match newObjectIds (ro_new_order data) with
      | None => throw BSONTypeError
      | Some ids =>
          let t' := setRuleGroupIds ids t in
          let* groups := findByIds (T:=RuleGroup) (tag_ruleGroupIds t') in
          let* _ := save t' me USER
                      {| gqlMethod := REORDER_LINKED_ENTITIES;
                         userComments := None;
                         opConnectedModels := map RuleGroupModel groups |} in
          ret true
      end
    else throw reOrderError).

(** [ids.filter((_) => !_.equals(id))]. *)
Definition without (id : ObjectId) (ids : list ObjectId) : list ObjectId :=
  filter (fun i => negb (equals i id) = true) ids.

Definition deleteTag (ctx : CTX) (data : TagDeleteInput)
    : M (list ModelDeleteAcknowledgement) :=
  let* tagId := newObjectId (tx_tag_id data) in
  let* t := findByIdThrows (T:=Tag) tagId tagFailed in
  asUserWithDeleteAccess ctx (tag_orgId t) (fun me =>
    let previewMode := Bool.eqb (tx_preview data) true in
    let* _ :=
      if negb previewMode then
        let* revision := findByIdThrows (T:=Revision) (tag_revisionId t) revisionFailed in
        let revision' := setTagIds (without (tag_id t) (rev_tagIds revision)) revision in
        let* _ := save revision' me USER
                    {| gqlMethod := DELETE_LINKED_ENTITY;
                       userComments := tx_comments data;
                       opConnectedModels := [TagModel t] |} in
        ret tt
      else ret tt in
    deleteModelCascading me t previewMode).

(** What invariant I4 forbids: auto-load set on a placement. *)
Definition autoLoadOnPlacement (t : Tag) : Prop :=
  tag_type t = PLACEMENT /\ tag_autoLoad t = true.

(** The keys [updateTag] lets [bulkGQLSet] apply. *)
Definition updateTagKeys : list string :=
  ["name"; "width"; "height"; "auto_load"; "is_active"].

Definition updateTag (ctx : CTX) (data : TagUpdateInput) : M bool :=
  let* tagId := newObjectId (tu_tag_id data) in
  let* t := findByIdThrows (T:=Tag) tagId tagFailed in
  asUserWithEditAccess ctx (tag_orgId t) (fun me =>
    if bool_decide (tag_type t = PLACEMENT) && bool_decide (tu_auto_load data = Some true)
    then throw autoLoadPlacementError
    else
      let t' := bulkGQLSet data updateTagKeys t in
      let* _ := save t' me USER
                  {| gqlMethod := UPDATE_PROPERTIES;
                     userComments := tu_comments data;
                     opConnectedModels := [] |} in
      ret true).

(** The local helper [duplicateTag] of the resolver of that name. *)
Definition duplicateTag_inner (actor : User) (t : Tag) : M Tag :=
  let* revision := findByIdThrows (T:=Revision) (tag_revisionId t) revisionFailed in
  let* newTag := createNewModelBranchFromModel actor t in
  let revision' := setTagIds (rev_tagIds revision ++ [tag_id newTag]) revision in
  let* _ := save revision' actor USER
              {| gqlMethod := ADD_LINKED_ENTITY;
                 userComments := None;
                 opConnectedModels := [TagModel newTag] |} in
  ret newTag.

Definition duplicateTag (ctx : CTX) (data : TagDuplicateInput) : M TagGQL :=
  let* tagId := newObjectId (td_tag_id data) in
  let* t := findByIdThrows (T:=Tag) tagId tagFailed in
  asUserWithCreateAccess ctx (tag_orgId t) (fun me =>
    let* duplicate := duplicateTag_inner me t in
    let duplicate' := setName (td_name data) duplicate in
    let* saved := save duplicate' me USER
                    {| gqlMethod := UPDATE_PROPERTIES;
                       userComments :=
                         Some ("Changed tag name to " ++ tag_name duplicate')%string;
                       opConnectedModels := [] |} in
    ret (toGQLType saved)).

Definition createTag (ctx : CTX) (data : TagCreateInput) : M TagGQL :=
  let* revisionId := newObjectId (tc_revision_id data) in
  let* revision := findByIdThrows (T:=Revision) revisionId revisionFailed in
  asUserWithCreateAccess ctx (rev_orgId revision) (fun me =>
    if bool_decide (tc_type data = PLACEMENT) && Bool.eqb (tc_auto_load data) true
    then throw autoLoadPlacementError
    else
      let* t := createTagSkeleton me revision (tc_name data) (tc_type data)
                  (tc_width data) (tc_height data) (tc_auto_load data)
                  (tc_comments data) in
      ret (toGQLType t)).

(** ** The query resolver and the custom resolvers of [TagManager] *)

Definition getTag (ctx : CTX) (id : string) : M TagGQL :=
  let* tagId := newObjectId id in
  let* t := findByIdThrows (T:=Tag) tagId tagFailed in
  asUserWithViewAccess ctx (tag_orgId t) (fun _ => ret (toGQLType t)).

(** The resolver of the field [revision] of a [Tag]; [parent] is the
    object a resolver of type [Tag] answered with.  The schema type of a
    revision is declared by another manager, so the answer is modelled as
    the document that [revision.toGQLType()] projects. *)
Definition Tag_revision (ctx : CTX) (parent : TagGQL) : M Revision :=
  let* revisionId := newObjectId (gql_revision_id parent) in
  let* revision := findByIdThrows (T:=Revision) revisionId revisionFailed in
  asUserWithViewAccess ctx (rev_orgId revision) (fun _ => ret revision).

(** The resolver of the field [rule_groups] of a [Tag]: the tag is read
    again under [parent.id]; the answer is modelled as the documents that
    [toGQLType()] is mapped over. *)
Definition Tag_rule_groups (ctx : CTX) (parent : TagGQL) : M (list RuleGroup) :=
  let* tagId := newObjectId (gql_id parent) in
  let* t := findByIdThrows (T:=Tag) tagId tagFailed in
  asUserWithViewAccess ctx (tag_orgId t) (fun _ =>
    findByIds (T:=RuleGroup) (tag_ruleGroupIds t)).

End TagManager.

(** ** Vocabulary of the properties *)

Section Vocabulary.
Context `{ObjectIdOps}.

(** The rule groups a tag lists that the store resolves. *)
Definition ruleGroupsOf (t : Tag) (s : Store) : list RuleGroup :=
  omap (fun i => ruleGroups s !! i) (remove_dups (tag_ruleGroupIds t)).

(** The acknowledgements of a cascade over tag [t] in store [s]. *)
Definition cascadeAcks (t : Tag) (s : Store) : list ModelDeleteAcknowledgement :=
  ackTag t :: map ackRuleGroup (ruleGroupsOf t s).

Definition isDelete (w : Write) : Prop :=
  match w with
  | Deleted _ _ => True
  | Saved _ _ _ _ => False
  end.

(** The store with another collection of revisions. *)
Definition setRevisions (revs : gmap ObjectId Revision) (s : Store) : Store :=
  {| tags := tags s; revisions := revs; ruleGroups := ruleGroups s;
     journal := journal s; writesLeft := writesLeft s |}.

(** The write by which [deleteTag] takes tag [t] off revision [rev]. *)
Definition unlinkWrite (me : User) (data : TagDeleteInput) (t : Tag) (rev : Revision)
    : Write :=
  Saved (RevisionModel (setTagIds (without (tag_id t) (rev_tagIds rev)) rev)) me USER
    {| gqlMethod := DELETE_LINKED_ENTITY;
       userComments := tx_comments data;
       opConnectedModels := [TagModel t] |}.

(** The store once that write has gone through. *)
Definition unlinked (me : User) (data : TagDeleteInput) (t : Tag) (rev : Revision)
    (s : Store) : Store :=
  written (unlinkWrite me data t rev)
    (setRevisions
       (<[rev_id rev := setTagIds (without (tag_id t) (rev_tagIds rev)) rev]> (revisions s))
       s).

(** Every document of a collection is filed under its own identifier. *)
Definition filedById {T} {R : Repo T} (s : Store) : Prop :=
  forall k x, collection s !! k = Some x -> model_id x = k.

(** The mutations of the schema, as a request. *)
Inductive Mutation :=
| UpdateRuleGroupsOrder (data : TagRuleGroupOrderInput)
| DeleteTag (data : TagDeleteInput)
| UpdateTag (data : TagUpdateInput)
| DuplicateTag (data : TagDuplicateInput)
| CreateTag (data : TagCreateInput).

(** The store a mutation leaves, whatever it answers. *)
Definition storeAfter (ctx : CTX) (m : Mutation) (s : Store) : Store :=
  match m with
  | UpdateRuleGroupsOrder data => (updateRuleGroupsOrder ctx data s).1
  | DeleteTag data => (deleteTag ctx data s).1
  | UpdateTag data => (updateTag ctx data s).1
  | DuplicateTag data => (duplicateTag ctx data s).1
  | CreateTag data => (createTag ctx data s).1
  end.

(** [duplicated T s0 ds s]: from store [s0], successful calls of
    [duplicateTag], each on tag [T] or on a duplicate an earlier call
    returned, have returned [ds] (oldest first) and left store [s]. *)
Inductive duplicated (T : Tag) (s0 : Store) : list TagGQL -> Store -> Prop :=
| duplicated_none : duplicated T s0 [] s0
| duplicated_more ds s ctx data d s' :
    duplicated T s0 ds s ->
    ObjectId_new (td_tag_id data)
      ∈ Some (tag_id T) :: map (fun d => ObjectId_new (gql_id d)) ds ->
    duplicateTag ctx data s = (s', Ok d) ->
    duplicated T s0 (ds ++ [d]) s'.

(** The invariant of a lineage: its root and every duplicate are stored
    with the lineage code of the root. *)
Definition lineageStored (T : Tag) (ds : list TagGQL) (s : Store) : Prop :=
  forall o, o ∈ Some (tag_id T) :: map (fun d => ObjectId_new (gql_id d)) ds ->
    exists i u, o = Some i /\ tags s !! i = Some u /\ tag_tagCode u = tag_tagCode T.

(** [u] has the value of [t] for every property of a tag that the
    resolvers read or write.  The timestamps of the schema are no part of
    it: after a save, [updated_at] is the persistence layer's to set. *)
Definition sameProperties (t u : Tag) : Prop :=
  tag_id u = tag_id t
  /\ tag_orgId u = tag_orgId t
  /\ tag_name u = tag_name t
  /\ tag_tagCode u = tag_tagCode t
  /\ tag_revisionId u = tag_revisionId t
  /\ tag_type u = tag_type t
  /\ tag_ruleGroupIds u = tag_ruleGroupIds t
  /\ tag_width u = tag_width t
  /\ tag_height u = tag_height t
  /\ tag_autoLoad u = tag_autoLoad t
  /\ tag_isActive u = tag_isActive t.

(** The error a run ended with, if it threw. *)
Definition errorOf {A} (x : Store * Result A) : option Error :=
  match x.2 with
  | Ok _ => None
  | Throw e => Some e
  end.

(** The error a mutation ends with, if it throws. *)
Definition thrown (ctx : CTX) (m : Mutation) (s : Store) : option Error :=
  match m with
  | UpdateRuleGroupsOrder data => errorOf (updateRuleGroupsOrder ctx data s)
  | DeleteTag data => errorOf (deleteTag ctx data s)
  | UpdateTag data => errorOf (updateTag ctx data s)
  | DuplicateTag data => errorOf (duplicateTag ctx data s)
  | CreateTag data => errorOf (createTag ctx data s)
  end.

(** The capability each mutation asks [orgAuth] for. *)
Definition required (m : Mutation) : Capability :=
  match m with
  | UpdateRuleGroupsOrder _ => EditAccess
  | DeleteTag _ => DeleteAccess
  | UpdateTag _ => EditAccess
  | DuplicateTag _ => CreateAccess
  | CreateTag _ => CreateAccess
  end.

(** The document a request names: [new ObjectId(id)], then
    [findByIdThrows]. *)
Definition resolveTag (id : string) (s : Store) : Result Tag :=
  match ObjectId_new id with
  | None => Throw BSONTypeError
  | Some i =>
      match tags s !! i with
      | None => Throw (NotFound tagFailed)
      | Some t => Ok t
      end
  end.

Definition resolveRevision (id : string) (s : Store) : Result Revision :=
  match ObjectId_new id with
  | None => Throw BSONTypeError
  | Some i =>
      match revisions s !! i with
      | None => Throw (NotFound revisionFailed)
      | Some r => Ok r
      end
  end.

(** The organisation a mutation is checked against: that of the tag it
    names, for [createTag] that of the revision it names. *)
Definition targetOrg (m : Mutation) (s : Store) : Result ObjectId :=
  match m with
  | UpdateRuleGroupsOrder data =>
      match resolveTag (ro_tag_id data) s with Ok t => Ok (tag_orgId t) | Throw e => Throw e end
  | DeleteTag data =>
      match resolveTag (tx_tag_id data) s with Ok t => Ok (tag_orgId t) | Throw e => Throw e end
  | UpdateTag data =>
      match resolveTag (tu_tag_id data) s with Ok t => Ok (tag_orgId t) | Throw e => Throw e end
  | DuplicateTag data =>
      match resolveTag (td_tag_id data) s with Ok t => Ok (tag_orgId t) | Throw e => Throw e end
  | CreateTag data =>
      match resolveRevision (tc_revision_id data) s with
      | Ok r => Ok (rev_orgId r)
      | Throw e => Throw e
      end
  end.

(** The mutations that save once, as their last step. *)
Definition savesOnce (m : Mutation) : Prop :=
  match m with
  | UpdateRuleGroupsOrder _ | UpdateTag _ => True
  | _ => False
  end.

(** Invariant I4 on a store. *)
Definition noAutoLoadOnPlacement (s : Store) : Prop :=
  forall k t, tags s !! k = Some t -> ~ autoLoadOnPlacement t.

(** Invariant I1 on a store, both ways: every tag is listed by the
    revision it points to, and every identifier a revision lists is that
    of a tag pointing to it. *)
Definition tagsListed (s : Store) : Prop :=
  forall k t, tags s !! k = Some t ->
    exists r, revisions s !! tag_revisionId t = Some r /\ tag_id t ∈ rev_tagIds r.

Definition listedAreTags (s : Store) : Prop :=
  forall k r i, revisions s !! k = Some r -> i ∈ rev_tagIds r ->
    exists t, tags s !! i = Some t /\ tag_revisionId t = rev_id r.

(** A sequence of mutations, each by its own caller. *)
Definition storeAfterAll (ms : list (CTX * Mutation)) (s : Store) : Store :=
  foldl (fun s cm => storeAfter cm.1 cm.2 s) s ms.

(** Every document of every collection is filed under its identifier. *)
Definition allFiled (s : Store) : Prop :=
  filedById (T:=Tag) s /\ filedById (T:=Revision) s /\ filedById (T:=RuleGroup) s.

(** Invariant I1, both ways. *)
Definition linked (s : Store) : Prop := tagsListed s /\ listedAreTags s.

(** A Hoare triple on a request: from a store satisfying [P], the run
    ends in a store satisfying [Q a] when it answers [a], and in a store
    satisfying [E] when it throws. *)
Definition hoare {A} (P : Store -> Prop) (m : M A) (Q : A -> Store -> Prop)
    (E : Store -> Prop) : Prop :=
  forall s, P s ->
    match m s with
    | (s', Ok a) => Q a s'
    | (s', Throw _) => E s'
    end.

End Vocabulary.

(** ** A concrete identifier type for worked examples: identifiers that
    are their own serialization. *)

Fixpoint freshString (l : list string) : string :=
  match l with
  | [] => "0"
  | s :: l' => (s ++ freshString l')%string
  end.

Lemma length_string_app (a b : string) :
  String.length (a ++ b)%string = (String.length a + String.length b)%nat.
Proof. induction a as [|c a IH]; simpl; [done | by rewrite IH]. Qed.

Lemma freshString_nonempty (l : list string) :
  (0 < String.length (freshString l))%nat.
Proof. induction l; simpl; [|rewrite length_string_app]; lia. Qed.

Lemma freshString_longer (l : list string) (s : string) :
  s ∈ l -> (String.length s < String.length (freshString l))%nat.
Proof.
  induction 1 as [s l | s s' l _ IH]; simpl; rewrite length_string_app.
  - pose proof (freshString_nonempty l). lia.
  - lia.
Qed.

Lemma freshString_fresh (l : list string) : freshString l ∉ l.
Proof. intros Hin. apply freshString_longer in Hin. lia. Qed.

Definition StringIds : ObjectIdOps := {|
  ObjectId := string;
  toString := fun s => s;
  ObjectId_new := Some;
  ObjectId_fresh := freshString;
  ObjectId_new_toString := fun _ => eq_refl;
  ObjectId_fresh_spec := freshString_fresh
|}.

(** ** Worked example: one organisation, one revision, one tag *)

Section Examples.
#[local] Existing Instance StringIds.

Definition idOrg : ObjectId := "60a1f0c2e4b0a1b2c3d4e501".
Definition idUser : ObjectId := "60a1f0c2e4b0a1b2c3d4e5f0".
Definition idRevision : ObjectId := "60a1f0c2e4b0a1b2c3d4e510".
Definition idTag : ObjectId := "60a1f0c2e4b0a1b2c3d4e520".
Definition idGroupA : ObjectId := "60a1f0c2e4b0a1b2c3d4e5a1".
Definition idGroupB : ObjectId := "60a1f0c2e4b0a1b2c3d4e5a2".
Definition idGroupC : ObjectId := "60a1f0c2e4b0a1b2c3d4e5a3".

Definition alice : User := {| user_id := idUser |}.

(** A session that holds every capability on every organisation. *)
Definition ctxOwner : CTX :=
  {| ctx_user := Some alice; ctx_access := fun _ _ => true |}.

(** A session that holds no capability at all. *)
Definition ctxStranger : CTX :=
  {| ctx_user := Some alice; ctx_access := fun _ _ => false |}.

(** A session that may look but holds no other capability. *)
Definition ctxViewer : CTX :=
  {| ctx_user := Some alice;
     ctx_access := fun _ cap => match cap with ViewAccess => true | _ => false end |}.

Definition tagWith (type : TagType) (groups : list ObjectId) : Tag :=
  {| tag_id := idTag; tag_orgId := idOrg; tag_name := "Landing page";
     tag_tagCode := "abc123"; tag_revisionId := idRevision; tag_type := type;
     tag_ruleGroupIds := groups; tag_width := 0; tag_height := 0;
     tag_autoLoad := false; tag_isActive := true |}.

Definition exampleRevision : Revision :=
  {| rev_id := idRevision; rev_orgId := idOrg; rev_tagIds := [idTag] |}.

Definition exampleGroups : gmap ObjectId RuleGroup :=
  <[idGroupA := {| rg_id := idGroupA; rg_name := "A" |}]>
    (<[idGroupB := {| rg_id := idGroupB; rg_name := "B" |}]>
       (<[idGroupC := {| rg_id := idGroupC; rg_name := "C" |}]> ∅)).

(** The store holding tag [t] in the example revision, with [budget] as
    its [writesLeft]. *)
Definition storeWith (t : Tag) (budget : option nat) : Store :=
  {| tags := {[ idTag := t ]};
     revisions := {[ idRevision := exampleRevision ]};
     ruleGroups := exampleGroups;
     journal := [];
     writesLeft := budget |}.

(** The same store with the revision document missing. *)
Definition storeWithoutRevision (t : Tag) : Store :=
  {| tags := {[ idTag := t ]};
     revisions := ∅;
     ruleGroups := exampleGroups;
     journal := [];
     writesLeft := None |}.

(** Requests against the example tag and revision. *)
Definition reorderRequest (new_order : list string) : TagRuleGroupOrderInput :=
  {| ro_tag_id := idTag; ro_new_order := new_order |}.

Definition deleteRequest (preview : bool) : TagDeleteInput :=
  {| tx_tag_id := idTag; tx_preview := preview; tx_comments := None |}.

Definition createRequest (type : TagType) (auto_load : bool) : TagCreateInput :=
  {| tc_revision_id := idRevision; tc_name := "Banner"; tc_type := type;
     tc_width := 300; tc_height := 250; tc_auto_load := auto_load;
     tc_comments := None |}.

Definition duplicateRequest (tag_id name : string) : TagDuplicateInput :=
  {| td_tag_id := tag_id; td_name := name |}.

(** An update of name and width whose payload also carries the four keys
    the input type does not declare. *)
Definition renameRequest : TagUpdateInput :=
  {| tu_tag_id := idTag; tu_name := Some "Renamed"; tu_is_active := None;
     tu_width := Some 300; tu_height := None; tu_auto_load := None;
     tu_comments := None; tu_type := Some PLACEMENT; tu_tag_code := Some "zzz999";
     tu_revision_id := Some idOrg; tu_rule_group_ids := Some [] |}.

(** An update that only sets auto-load. *)
Definition autoLoadRequest : TagUpdateInput :=
  {| tu_tag_id := idTag; tu_name := None; tu_is_active := None;
     tu_width := None; tu_height := None; tu_auto_load := Some true;
     tu_comments := None; tu_type := None; tu_tag_code := None;
     tu_revision_id := None; tu_rule_group_ids := None |}.

(** An update that carries a comment and none of the five properties. *)
Definition commentOnlyRequest : TagUpdateInput :=
  {| tu_tag_id := idTag; tu_name := None; tu_is_active := None;
     tu_width := None; tu_height := None; tu_auto_load := None;
     tu_comments := Some "Nothing changed"; tu_type := None; tu_tag_code := None;
     tu_revision_id := None; tu_rule_group_ids := None |}.



(** The tag a resolver answered with, [d] if it threw. *)
Definition answered (x : Store * Result TagGQL) (d : TagGQL) : TagGQL :=
  match x.2 with
  | Ok g => g
  | Throw _ => d
  end.

End Examples.

(** * Properties *)

Section Facts.
Context `{ObjectIdOps}.

(** ** Running the monad *)

Lemma bind_ok {A B} (m : M A) (k : A -> M B) s s' a :
  m s = (s', Ok a) -> bind m k s = k a s'.
Proof. unfold bind. by intros ->. Qed.

Lemma bind_throw {A B} (m : M A) (k : A -> M B) s s' e :
  m s = (s', Throw e) -> bind m k s = (s', Throw e).
Proof. unfold bind. by intros ->. Qed.

Lemma run_eta {A} (x : Store * Result A) (r : Result A) :
  x.2 = r -> x = (x.1, r).
Proof. destruct x. simpl. by intros ->. Qed.

Lemma filedById_singleton {T} {R : Repo T} (x : T) s :
  collection s = {[ model_id x := x ]} -> filedById (T:=T) s.
Proof.
  intros Hs k y. rewrite Hs. intros [<- <-]%lookup_singleton_Some. done.
Qed.

(** ** Running the collaborators *)

Lemma persist_run w upd s :
  persist w upd s =
    if decide (writesLeft s = Some O) then (s, Throw PersistenceFailure)
    else (written w (upd s), Ok tt).
Proof.
  unfold persist. destruct (writesLeft s) as [[|n]|]; by repeat case_decide.
Qed.

Lemma save_run {T} {R : Repo T} (x : T) actor owner meta s :
  save x actor owner meta s =
    if decide (writesLeft s = Some O) then (s, Throw PersistenceFailure)
    else (written (Saved (as_model x) actor owner meta)
                  (with_collection (<[model_id x := x]> (collection s)) s), Ok x).
Proof.
  unfold save, bind. cbv beta. rewrite persist_run. by case_decide.
Qed.

Lemma deleteModel_run {T} {R : Repo T} (x : T) actor s :
  deleteModel x actor s =
    if decide (writesLeft s = Some O) then (s, Throw PersistenceFailure)
    else (written (Deleted (as_model x) actor)
                  (with_collection (delete (model_id x) (collection s)) s), Ok tt).
Proof. unfold deleteModel. by rewrite persist_run. Qed.

Lemma newObjectId_run (str : string) s :
  newObjectId str s =
    match ObjectId_new str with
    | Some i => (s, Ok i)
    | None => (s, Throw BSONTypeError)
    end.
Proof. unfold newObjectId. by destruct (ObjectId_new str). Qed.

Lemma asUserWithAccess_granted {A} cap ctx org (k : User -> M A) me :
  ctx_user ctx = Some me -> ctx_access ctx org cap = true ->
  asUserWithAccess cap ctx org k = k me.
Proof. unfold asUserWithAccess. by intros -> ->. Qed.

Lemma asUserWithAccess_denied {A} cap ctx org (k : User -> M A) s :
  (ctx_user ctx = None \/ ctx_access ctx org cap = false) ->
  asUserWithAccess cap ctx org k s = (s, Throw AuthorizationDenied).
Proof.
  unfold asUserWithAccess. intros [-> | ->]; [done|]. by destruct (ctx_user ctx).
Qed.

(** ** Reordering the rule groups *)

Lemma indexOf_lower (l : list string) x : (-1 <= indexOf l x)%Z.
Proof.
  induction l as [|y l IH]; simpl; [lia|].
  destruct (String.eqb y x); [lia|]. destruct (Z.eqb_spec (indexOf l x) (-1)); lia.
Qed.

Lemma indexOf_found (l : list string) x : indexOf l x <> (-1)%Z <-> x ∈ l.
Proof.
  induction l as [|y l IH]; simpl.
  - split; [done | by intros ?%elem_of_nil].
  - destruct (String.eqb_spec y x) as [->|Hne].
    + split; [left | done].
    + pose proof (indexOf_lower l x).
      destruct (Z.eqb_spec (indexOf l x) (-1)) as [E|E].
      * split; [done|]. intros [?|Hin]%elem_of_cons; [congruence|].
        apply IH in Hin. contradiction.
      * split; [|lia]. intros _. right. by apply IH.
Qed.

Lemma reorderAccepted_spec (t : Tag) (new_order : list string) :
  reorderAccepted t new_order = true <->
  length (tag_ruleGroupIds t) = length new_order
  /\ (forall x, x ∈ tag_ruleGroupIds t -> toString x ∈ new_order).
Proof.
  unfold reorderAccepted. rewrite andb_true_iff, Z.eqb_eq, Nat2Z.inj_iff.
  rewrite forallb_forall. apply and_iff_compat_l. split.
  - intros Hall x Hx. apply indexOf_found.
    specialize (Hall (toString x)). rewrite negb_true_iff, Z.eqb_neq in Hall.
    apply Hall, in_map, list_elem_of_In, Hx.
  - intros Hall str [x [<- Hx]]%in_map_iff.
    rewrite negb_true_iff, Z.eqb_neq. apply indexOf_found, Hall, list_elem_of_In, Hx.
Qed.

Lemma newObjectIds_toString (l : list ObjectId) :
  newObjectIds (map toString l) = Some l.
Proof.
  induction l as [|x l IH]; simpl; [done|].
  by rewrite ObjectId_new_toString, IH.
Qed.

Lemma NoDup_map_toString (l : list ObjectId) :
  NoDup l -> NoDup (map toString l).
Proof.
  intros Hnd. by apply (NoDup_fmap_2 toString).
Qed.

(** With no identifier listed twice, the condition of the resolver is a
    permutation test. *)
Lemma reorderAccepted_permutation (t : Tag) (new_order : list string) :
  NoDup (tag_ruleGroupIds t) ->
  reorderAccepted t new_order = true <->
  Permutation (map toString (tag_ruleGroupIds t)) new_order.
Proof.
  intros Hnd. rewrite reorderAccepted_spec. split.
  - intros [Hlen Hcov]. apply submseteq_length_Permutation.
    + apply NoDup_submseteq; [by apply NoDup_map_toString|].
      intros str [x [-> Hx]]%list_elem_of_fmap. by apply Hcov.
    + rewrite length_map. lia.
  - intros Hp. split.
    + apply Permutation_length in Hp. by rewrite length_map in Hp.
    + intros x Hx. rewrite <- Hp. by apply list_elem_of_fmap_2.
Qed.

(** What [updateRuleGroupsOrder] does for a caller with edit access on
    the organisation of an existing tag. *)
Lemma updateRuleGroupsOrder_run ctx data s tid t me :
  ObjectId_new (ro_tag_id data) = Some tid ->
  tags s !! tid = Some t ->
  ctx_user ctx = Some me ->
  ctx_access ctx (tag_orgId t) EditAccess = true ->
  updateRuleGroupsOrder ctx data s =
    if reorderAccepted t (ro_new_order data) then
      match newObjectIds (ro_new_order data) with
      | None => (s, Throw BSONTypeError)
      | Some ids =>
          if decide (writesLeft s = Some O) then (s, Throw PersistenceFailure)
          else
            (written
               (Saved (TagModel (setRuleGroupIds ids t)) me USER
                  {| gqlMethod := REORDER_LINKED_ENTITIES;
                     userComments := None;
                     opConnectedModels :=
                       map RuleGroupModel
                         (omap (fun i => ruleGroups s !! i) (remove_dups ids)) |})
               {| tags := <[tag_id t := setRuleGroupIds ids t]> (tags s);
                  revisions := revisions s; ruleGroups := ruleGroups s;
                  journal := journal s; writesLeft := writesLeft s |},
             Ok true)
      end
    else (s, Throw reOrderError).
Proof.
  intros Hid Ht Hme Hacc. unfold updateRuleGroupsOrder.
  erewrite bind_ok; [|by rewrite newObjectId_run, Hid].
  erewrite bind_ok; [|by unfold findByIdThrows; simpl; rewrite Ht].
  unfold asUserWithEditAccess. rewrite (asUserWithAccess_granted _ _ _ _ me) by done.
  destruct (reorderAccepted t (ro_new_order data)); [|done].
  destruct (newObjectIds (ro_new_order data)) as [ids|]; [|done].
  erewrite bind_ok; [|reflexivity].
  unfold bind. rewrite save_run. by case_decide.
Qed.


Lemma not_Permutation_twice (A B : ObjectId) :
  A <> B -> ~ Permutation [A; A] [A; B].
Proof.
  intros Hne Hp. assert (HB : B ∈ [A; A]).
  { rewrite Hp. apply elem_of_cons. right. by apply list_elem_of_singleton. }
  apply elem_of_cons in HB as [->|HB]; [done|].
  by apply list_elem_of_singleton in HB as ->.
Qed.

(** C1 (amended): for an existing tag whose [ruleGroupIds] lists no
    identifier twice, a caller with edit access and a store that takes
    the write, [updateRuleGroupsOrder] returns [true] exactly when
    [new_order] is a permutation of the serialized [ruleGroupIds]; the
    tag then carries the identifiers of [new_order], in that order.  Any
    other [new_order] is answered with the reorder error and the store is
    left as it was. *)
Theorem updateRuleGroupsOrder_permutation ctx data s t me :
  ObjectId_new (ro_tag_id data) = Some (tag_id t) ->
  tags s !! tag_id t = Some t ->
  ctx_user ctx = Some me ->
  ctx_access ctx (tag_orgId t) EditAccess = true ->
  writesLeft s <> Some O ->
  NoDup (tag_ruleGroupIds t) ->
  (Permutation (map toString (tag_ruleGroupIds t)) (ro_new_order data) ->
     exists ids s',
       updateRuleGroupsOrder ctx data s = (s', Ok true)
       /\ map toString ids = ro_new_order data
       /\ Permutation (tag_ruleGroupIds t) ids
       /\ tags s' = <[tag_id t := setRuleGroupIds ids t]> (tags s))
  /\ (~ Permutation (map toString (tag_ruleGroupIds t)) (ro_new_order data) ->
     updateRuleGroupsOrder ctx data s = (s, Throw reOrderError))
  /\ ((exists s', updateRuleGroupsOrder ctx data s = (s', Ok true)) <->
      Permutation (map toString (tag_ruleGroupIds t)) (ro_new_order data)).
Proof.
  intros Hid Ht Hme Hacc Hw Hnd.
  pose proof (updateRuleGroupsOrder_run ctx data s _ t me Hid Ht Hme Hacc) as Hrun.
  pose proof (reorderAccepted_permutation t (ro_new_order data) Hnd) as Hperm.
  assert (Hyes : Permutation (map toString (tag_ruleGroupIds t)) (ro_new_order data) ->
     exists ids s',
       updateRuleGroupsOrder ctx data s = (s', Ok true)
       /\ map toString ids = ro_new_order data
       /\ Permutation (tag_ruleGroupIds t) ids
       /\ tags s' = <[tag_id t := setRuleGroupIds ids t]> (tags s)).
  { intros Hp. apply Hperm in Hp as Hacc'. rewrite Hacc' in Hrun.
    symmetry in Hp. apply Permutation_map_inv in Hp as (ids & Heq & Hp).
    rewrite Heq, newObjectIds_toString in Hrun.
    destruct (decide (writesLeft s = Some O)); [done|].
    eexists ids, _. split; [exact Hrun|]. by rewrite Heq. }
  assert (Hno : ~ Permutation (map toString (tag_ruleGroupIds t)) (ro_new_order data) ->
     updateRuleGroupsOrder ctx data s = (s, Throw reOrderError)).
  { intros Hp. rewrite <- Hperm in Hp. apply not_true_is_false in Hp.
    by rewrite Hp in Hrun. }
  split; [done|]. split; [done|]. split.
  - intros [s' Hs']. destruct (reorderAccepted t (ro_new_order data)) eqn:E.
    + by apply Hperm.
    + rewrite Hrun in Hs'. discriminate.
  - intros Hp. destruct (Hyes Hp) as (ids & s' & Hs' & _). eauto.
Qed.

(** C9: the condition of [updateRuleGroupsOrder] is that the lengths
    agree and that every current identifier occurs in [new_order]; the
    converse is not looked at.  So a tag that lists an identifier [A]
    twice accepts the new order [A, B]: the call returns [true], the tag
    then lists [B], which it did not before, and the new list is no
    permutation of the old one. *)
Theorem updateRuleGroupsOrder_coverage_only ctx data s t me :
  ObjectId_new (ro_tag_id data) = Some (tag_id t) ->
  tags s !! tag_id t = Some t ->
  ctx_user ctx = Some me ->
  ctx_access ctx (tag_orgId t) EditAccess = true ->
  writesLeft s <> Some O ->
  ((updateRuleGroupsOrder ctx data s <> (s, Throw reOrderError)) <->
     (length (tag_ruleGroupIds t) = length (ro_new_order data)
      /\ (forall x, x ∈ tag_ruleGroupIds t -> toString x ∈ ro_new_order data)))
  /\ (forall A B : ObjectId,
        A <> B ->
        tag_ruleGroupIds t = [A; A] ->
        ro_new_order data = [toString A; toString B] ->
        exists s',
          updateRuleGroupsOrder ctx data s = (s', Ok true)
          /\ tags s' !! tag_id t = Some (setRuleGroupIds [A; B] t)
          /\ (B ∉ tag_ruleGroupIds t)
          /\ ~ Permutation (tag_ruleGroupIds t) [A; B]).
Proof.
  intros Hid Ht Hme Hacc Hw.
  pose proof (updateRuleGroupsOrder_run ctx data s _ t me Hid Ht Hme Hacc) as Hrun.
  split.
  - rewrite <- reorderAccepted_spec.
    destruct (reorderAccepted t (ro_new_order data)).
    + split; [done|]. intros _. rewrite Hrun.
      destruct (newObjectIds _); [case_decide|]; discriminate.
    + split; [|done]. intros Hne. by destruct Hne.
  - intros A B Hne Hcur Hnew.
    assert (Hacc' : reorderAccepted t (ro_new_order data) = true).
    { apply reorderAccepted_spec. rewrite Hcur, Hnew. split; [done|].
      intros x [Hx|Hx%list_elem_of_singleton]%elem_of_cons; subst x;
        apply elem_of_cons; by left. }
    rewrite Hacc', Hnew in Hrun.
    change [toString A; toString B] with (map toString [A; B]) in Hrun.
    rewrite newObjectIds_toString in Hrun.
    destruct (decide (writesLeft s = Some O)); [done|].
    eexists. split; [exact Hrun|]. simpl. rewrite lookup_insert_eq.
    split; [done|]. rewrite Hcur. split.
    { intros [HB|HB%list_elem_of_singleton]%elem_of_cons; by subst B. }
    by apply not_Permutation_twice.
Qed.


(** ** The auto-load rule of placements *)

Lemma asUserWithAccess_no_access {A} cap ctx org (k : User -> M A) s :
  hasAccess ctx org cap = false ->
  asUserWithAccess cap ctx org k s = (s, Throw AuthorizationDenied).
Proof.
  unfold hasAccess, asUserWithAccess.
  destruct (ctx_user ctx); [by intros ->|done].
Qed.

Lemma asUserWithAccess_has_access {A} cap ctx org (k : User -> M A) :
  hasAccess ctx org cap = true ->
  exists me, ctx_user ctx = Some me /\ asUserWithAccess cap ctx org k = k me.
Proof.
  unfold hasAccess, asUserWithAccess.
  destruct (ctx_user ctx) as [me|]; [|done]. intros ->. eauto.
Qed.

(** [createTag] on a request for an auto-loading placement, once the
    revision is found: the access check answers first, the validation second,
    and the store is not touched. *)
Lemma createTag_autoLoad_placement ctx data s rid rev :
  ObjectId_new (tc_revision_id data) = Some rid ->
  revisions s !! rid = Some rev ->
  tc_type data = PLACEMENT ->
  tc_auto_load data = true ->
  createTag ctx data s =
    (s, Throw (if hasAccess ctx (rev_orgId rev) CreateAccess
               then autoLoadPlacementError else AuthorizationDenied)).
Proof.
  intros Hid Hrev Hty Hal. unfold createTag.
  erewrite bind_ok; [|by rewrite newObjectId_run, Hid].
  erewrite bind_ok; [|by unfold findByIdThrows; simpl; rewrite Hrev].
  unfold asUserWithCreateAccess.
  destruct (hasAccess ctx (rev_orgId rev) CreateAccess) eqn:Hacc.
  - apply (asUserWithAccess_has_access _ _ _
             (fun me => if bool_decide (tc_type data = PLACEMENT)
                             && Bool.eqb (tc_auto_load data) true
                        then throw autoLoadPlacementError
                        else _)) in Hacc as (me & _ & ->).
    by rewrite Hty, Hal.
  - by apply asUserWithAccess_no_access.
Qed.

(** [updateTag] on a request that sets auto-load on a stored placement. *)
Lemma updateTag_autoLoad_placement ctx data s tid t :
  ObjectId_new (tu_tag_id data) = Some tid ->
  tags s !! tid = Some t ->
  tag_type t = PLACEMENT ->
  tu_auto_load data = Some true ->
  updateTag ctx data s =
    (s, Throw (if hasAccess ctx (tag_orgId t) EditAccess
               then autoLoadPlacementError else AuthorizationDenied)).
Proof.
  intros Hid Ht Hty Hal. unfold updateTag.
  erewrite bind_ok; [|by rewrite newObjectId_run, Hid].
  erewrite bind_ok; [|by unfold findByIdThrows; simpl; rewrite Ht].
  unfold asUserWithEditAccess.
  destruct (hasAccess ctx (tag_orgId t) EditAccess) eqn:Hacc.
  - apply (asUserWithAccess_has_access _ _ _
             (fun me => if bool_decide (tag_type t = PLACEMENT)
                             && bool_decide (tu_auto_load data = Some true)
                        then throw autoLoadPlacementError
                        else _)) in Hacc as (me & _ & ->).
    by rewrite Hty, Hal.
  - by apply asUserWithAccess_no_access.
Qed.

Lemma gqlSet_allowed {A} only key (v : option A) old :
  key ∈ only -> gqlSet only key v old = default old v.
Proof. unfold gqlSet. intros Hin. by rewrite bool_decide_true. Qed.

Lemma gqlSet_ignored {A} only key (v : option A) old :
  key ∉ only -> gqlSet only key v old = old.
Proof. unfold gqlSet. intros Hin. by rewrite bool_decide_false. Qed.

(** On a tag that satisfies I4, an update would break I4 exactly when it
    sets auto-load on a placement. *)
Lemma bulkGQLSet_autoLoadOnPlacement data t :
  ~ autoLoadOnPlacement t ->
  autoLoadOnPlacement (bulkGQLSet data updateTagKeys t) <->
  tag_type t = PLACEMENT /\ tu_auto_load data = Some true.
Proof.
  unfold autoLoadOnPlacement. intros HI4. simpl.
  rewrite gqlSet_ignored, gqlSet_allowed by (apply (bool_decide_unpack _); by vm_compute).
  destruct (tu_auto_load data) as [[]|]; simpl;
    (split; intros [? ?]; try done; by destruct HI4).
Qed.

(** C2: [createTag] and [updateTag] reject every request whose result
    would be an auto-loading placement, and leave the store as it was.
    For [createTag] that is a request with [type = PLACEMENT] and
    [auto_load = true]; for [updateTag] the incoming [auto_load = true]
    is held against the type the stored tag has, which on a store where
    I4 holds covers every update whose result would break I4.  The error
    is the validation error for every caller who passes the look-up and
    the access check. *)
Theorem autoLoad_placement_rejected :
  (forall ctx data s,
     tc_type data = PLACEMENT -> tc_auto_load data = true ->
     exists e, createTag ctx data s = (s, Throw e)
       /\ forall rid rev,
            ObjectId_new (tc_revision_id data) = Some rid ->
            revisions s !! rid = Some rev ->
            hasAccess ctx (rev_orgId rev) CreateAccess = true ->
            e = autoLoadPlacementError)
  /\ (forall ctx data s tid t,
        ObjectId_new (tu_tag_id data) = Some tid ->
        tags s !! tid = Some t ->
        ~ autoLoadOnPlacement t ->
        autoLoadOnPlacement (bulkGQLSet data updateTagKeys t) ->
        tag_type t = PLACEMENT /\ tu_auto_load data = Some true
        /\ exists e, updateTag ctx data s = (s, Throw e)
             /\ (hasAccess ctx (tag_orgId t) EditAccess = true ->
                 e = autoLoadPlacementError)).
Proof.
  split.
  - intros ctx data s Hty Hal.
    destruct (ObjectId_new (tc_revision_id data)) as [rid|] eqn:Hid.
    + destruct (revisions s !! rid) as [rev|] eqn:Hrev.
      * rewrite (createTag_autoLoad_placement ctx data s rid rev) by done.
        eexists. split; [done|]. intros ? ? [= <-]. rewrite Hrev.
        by intros [= <-] ->.
      * exists (NotFound revisionFailed). split; [|congruence].
        unfold createTag. erewrite bind_ok; [|by rewrite newObjectId_run, Hid].
        apply bind_throw. unfold findByIdThrows. simpl. by rewrite Hrev.
    + exists BSONTypeError. split; [|congruence].
      unfold createTag. apply bind_throw. by rewrite newObjectId_run, Hid.
  - intros ctx data s tid t Hid Ht HI4 Hres.
    apply bulkGQLSet_autoLoadOnPlacement in Hres as [Hty Hal]; [|done].
    split; [done|]. split; [done|].
    rewrite (updateTag_autoLoad_placement ctx data s tid t) by done.
    eexists. split; [done|]. by intros ->.
Qed.

(** C4 (amended): in [createTag] the auto-load validation sits inside the
    create-access check, behind the look-up of the revision.  A caller
    without create access who asks for an auto-loading placement is
    answered with the authorization denial; a caller with create access
    is answered with the validation error; the store is left as it was
    in both cases. *)
Theorem createTag_validation_behind_access_check ctx data s rid rev :
  ObjectId_new (tc_revision_id data) = Some rid ->
  revisions s !! rid = Some rev ->
  tc_type data = PLACEMENT ->
  tc_auto_load data = true ->
  (hasAccess ctx (rev_orgId rev) CreateAccess = false ->
     createTag ctx data s = (s, Throw AuthorizationDenied))
  /\ (hasAccess ctx (rev_orgId rev) CreateAccess = true ->
     createTag ctx data s = (s, Throw autoLoadPlacementError)).
Proof.
  intros Hid Hrev Hty Hal.
  rewrite (createTag_autoLoad_placement ctx data s rid rev) by done.
  split; by intros ->.
Qed.


(** ** Deleting a tag *)

Lemma without_absent (i : ObjectId) ids : i ∉ without i ids.
Proof.
  unfold without, equals. intros [Hi _]%list_elem_of_filter.
  by rewrite bool_decide_true in Hi.
Qed.

(** Deleting rule groups one after the other touches neither tags nor
    revisions, writes deletions only, and can only fail in the
    persistence layer. *)
Lemma mapM_deleteModel_inv (me : User) (gs : list RuleGroup) s s' r :
  mapM (fun g => deleteModel g me) gs s = (s', r) ->
  tags s' = tags s /\ revisions s' = revisions s
  /\ (exists ds, journal s' = journal s ++ ds /\ Forall isDelete ds)
  /\ (r = Throw PersistenceFailure \/ exists us, r = Ok us)
  /\ (writesLeft s = None -> writesLeft s' = None /\ exists us, r = Ok us).
Proof.
  revert s s' r. induction gs as [|g gs IH]; intros s s' r; simpl.
  - intros [= <- <-]. split; [done|]. split; [done|]. split.
    + exists []. by rewrite app_nil_r.
    + split; [|split]; eauto.
  - unfold bind at 1. rewrite deleteModel_run. case_decide as Hw.
    + intros [= <- <-]. split; [done|]. split; [done|]. split.
      * exists []. by rewrite app_nil_r.
      * split; [by left | congruence].
    + unfold bind at 1.
      destruct (mapM _ gs _) as [s2 r2] eqn:Hrest.
      apply IH in Hrest as (Ht & Hr & (ds & Hj & Hds) & Hres & Hrel).
      simpl in Ht, Hr, Hj, Hrel.
      assert (Hout : tags s2 = tags s /\ revisions s2 = revisions s
                /\ exists ds', journal s2 = journal s ++ ds' /\ Forall isDelete ds').
      { split; [done|]. split; [done|].
        exists (Deleted (RuleGroupModel g) me :: ds). split.
        - by rewrite Hj, <- app_assoc.
        - by constructor. }
      destruct Hout as (Ht' & Hr' & Hj').
      destruct r2 as [us|e].
      * intros [= <- <-]. split; [done|]. split; [done|]. split; [done|].
        split; [eauto|]. intros Hnone. rewrite Hnone in Hrel.
        destruct Hrel as [-> _]; [done|]. eauto.
      * intros [= <- <-]. split; [done|]. split; [done|]. split; [done|].
        destruct Hres as [->|[us [=]]]. split; [by left|].
        intros Hnone. rewrite Hnone in Hrel. by destruct Hrel as [_ [us [=]]].
Qed.

Lemma deleteModelCascading_preview me t s :
  deleteModelCascading me t true s = (s, Ok (cascadeAcks t s)).
Proof. reflexivity. Qed.

(** A real cascade leaves the revisions alone, writes deletions only,
    and either fails in the persistence layer or acknowledges what a
    preview on the same store acknowledges. *)
Lemma deleteModelCascading_real me t s s' r :
  deleteModelCascading me t false s = (s', r) ->
  revisions s' = revisions s
  /\ (exists ds, journal s' = journal s ++ ds /\ Forall isDelete ds)
  /\ (r = Throw PersistenceFailure \/ r = Ok (cascadeAcks t s))
  /\ (writesLeft s = None ->
      r = Ok (cascadeAcks t s) /\ tags s' = delete (tag_id t) (tags s)).
Proof.
  unfold deleteModelCascading.
  erewrite bind_ok; [|reflexivity].
  unfold bind at 1 2. rewrite deleteModel_run. case_decide as Hw.
  - intros [= <- <-]. split; [done|]. split.
    + exists []. by rewrite app_nil_r.
    + split; [by left | congruence].
  - unfold bind at 1.
    match goal with
    | |- context [mapM ?f ?l ?s0] => destruct (mapM f l s0) as [s2 r2] eqn:Hrest
    end.
    apply mapM_deleteModel_inv in Hrest as (Ht & Hr & (ds & Hj & Hds) & Hres & Hrel).
    simpl in Ht, Hr, Hj, Hrel.
    assert (Hj' : exists ds', journal s2 = journal s ++ ds' /\ Forall isDelete ds').
    { exists (Deleted (TagModel t) me :: ds). split.
      - by rewrite Hj, <- app_assoc.
      - by constructor. }
    destruct r2 as [us|e].
    + intros [= <- <-]. split; [done|]. split; [done|]. split; [by right|].
      intros _. by split.
    + intros [= <- <-]. split; [done|]. split; [done|].
      destruct Hres as [[= ->]|[us [=]]]. split; [by left|].
      intros Hnone. rewrite Hnone in Hrel. by destruct Hrel as [_ [us [=]]].
Qed.


(** [deleteTag] up to the cascade. *)
Lemma deleteTag_guarded ctx data s tid t :
  ObjectId_new (tx_tag_id data) = Some tid ->
  tags s !! tid = Some t ->
  deleteTag ctx data s =
    match ctx_user ctx with
    | Some me =>
        if ctx_access ctx (tag_orgId t) DeleteAccess then
          if tx_preview data then deleteModelCascading me t true s
          else
            match revisions s !! tag_revisionId t with
            | None => (s, Throw (NotFound revisionFailed))
            | Some rev =>
                if decide (writesLeft s = Some O) then (s, Throw PersistenceFailure)
                else deleteModelCascading me t false (unlinked me data t rev s)
            end
        else (s, Throw AuthorizationDenied)
    | None => (s, Throw AuthorizationDenied)
    end.
Proof.
  intros Hid Ht. unfold deleteTag.
  erewrite bind_ok; [|by rewrite newObjectId_run, Hid].
  erewrite bind_ok; [|by unfold findByIdThrows; simpl; rewrite Ht].
  unfold asUserWithDeleteAccess, asUserWithAccess.
  destruct (ctx_user ctx) as [me|]; [|done].
  destruct (ctx_access ctx (tag_orgId t) DeleteAccess); [|done].
  destruct (tx_preview data); simpl.
  - by erewrite bind_ok.
  - unfold bind at 1 2. unfold findByIdThrows at 1. simpl.
    destruct (revisions s !! tag_revisionId t) as [rev|]; [|done].
    unfold bind at 1. rewrite save_run. by case_decide.
Qed.

(** A preview never writes, whatever the request and the store. *)
Lemma deleteTag_preview_pure ctx data s :
  tx_preview data = true -> (deleteTag ctx data s).1 = s.
Proof.
  intros Hp. unfold deleteTag.
  unfold bind at 1. rewrite newObjectId_run.
  destruct (ObjectId_new (tx_tag_id data)) as [tid|]; [|done].
  unfold bind at 1, findByIdThrows at 1. simpl.
  destruct (tags s !! tid) as [t|] eqn:Ht; [|done].
  unfold asUserWithDeleteAccess, asUserWithAccess.
  destruct (ctx_user ctx) as [me|]; [|done].
  destruct (ctx_access ctx (tag_orgId t) DeleteAccess); [|done].
  rewrite Hp. reflexivity.
Qed.

(** C3: in a non-preview [deleteTag] on an existing tag the revision is
    saved without the tag's identifier before [deleteModelCascading] is
    called: either that save is refused and nothing has happened, or the
    cascade runs on the store in which the tag is already unlinked and
    nothing is deleted yet.  Whatever the cascade then does -- succeed,
    or fail after some deletions -- the revision of the resulting store
    does not list the tag, and the journal shows the unlink before every
    deletion.  On a store that refuses no write the delete succeeds. *)
Theorem deleteTag_unlinks_before_cascade ctx data s t me rev :
  ObjectId_new (tx_tag_id data) = Some (tag_id t) ->
  tags s !! tag_id t = Some t ->
  ctx_user ctx = Some me ->
  ctx_access ctx (tag_orgId t) DeleteAccess = true ->
  tx_preview data = false ->
  revisions s !! tag_revisionId t = Some rev ->
  rev_id rev = tag_revisionId t ->
  (forall s' r,
     deleteTag ctx data s = (s', r) ->
     (writesLeft s = Some O /\ s' = s /\ r = Throw PersistenceFailure)
     \/ (deleteModelCascading me t false (unlinked me data t rev s) = (s', r)
         /\ tags (unlinked me data t rev s) = tags s
         /\ ruleGroups (unlinked me data t rev s) = ruleGroups s
         /\ (exists rev',
               revisions s' !! tag_revisionId t = Some rev'
               /\ rev_tagIds rev' = without (tag_id t) (rev_tagIds rev)
               /\ tag_id t ∉ rev_tagIds rev')
         /\ (exists ds,
               journal s' = journal s ++ unlinkWrite me data t rev :: ds
               /\ Forall isDelete ds)))
  /\ (writesLeft s = None ->
      exists s', deleteTag ctx data s = (s', Ok (cascadeAcks t s))
        /\ tags s' !! tag_id t = None).
Proof.
  intros Hid Ht Hme Hacc Hp Hrev Hkey.
  pose proof (deleteTag_guarded ctx data s _ t Hid Ht) as Hrun.
  rewrite Hme, Hacc, Hp, Hrev in Hrun. split.
  - intros s' r Hout. rewrite Hrun in Hout. case_decide as Hw.
    + left. by injection Hout as <- <-.
    + right. split; [done|]. split; [done|]. split; [done|].
      apply deleteModelCascading_real in Hout as (Hr & (ds & Hj & Hds) & _ & _).
      split.
      * eexists. rewrite Hr. simpl. rewrite Hkey, lookup_insert_eq.
        split; [done|]. split; [done|]. apply without_absent.
      * exists ds. split; [|done]. rewrite Hj. simpl. by rewrite <- app_assoc.
  - intros Hnone. rewrite Hnone in Hrun. case_decide; [done|].
    destruct (deleteModelCascading me t false (unlinked me data t rev s))
      as [s' r] eqn:Hout.
    apply deleteModelCascading_real in Hout as (_ & _ & _ & Hrel).
    destruct Hrel as [-> Htags]; [by simpl; rewrite Hnone|].
    exists s'. split; [by rewrite Hrun|].
    rewrite Htags. apply lookup_delete_eq.
Qed.

(** C5: [deleteTag] with [preview = true] performs no write -- the store
    it leaves is the store it found, tag, revision and rule groups
    included -- and it returns the acknowledgements, in the same order,
    that the request returns without the preview flag whenever that
    request succeeds. *)
Theorem deleteTag_preview_is_dry_run ctx preview_data real_data s :
  tx_preview preview_data = true ->
  tx_preview real_data = false ->
  tx_tag_id real_data = tx_tag_id preview_data ->
  (deleteTag ctx preview_data s).1 = s
  /\ (forall s' acks,
        deleteTag ctx real_data s = (s', Ok acks) ->
        deleteTag ctx preview_data s = (s, Ok acks)).
Proof.
  intros Hp Hr Hid. split; [by apply deleteTag_preview_pure|].
  intros s' acks Hreal.
  destruct (ObjectId_new (tx_tag_id preview_data)) as [tid|] eqn:Hparse.
  2:{ unfold deleteTag in Hreal. erewrite bind_throw in Hreal; [done|].
      by rewrite newObjectId_run, Hid, Hparse. }
  destruct (tags s !! tid) as [t|] eqn:Ht.
  2:{ unfold deleteTag in Hreal.
      erewrite bind_ok in Hreal; [|by rewrite newObjectId_run, Hid, Hparse].
      erewrite bind_throw in Hreal; [done|].
      unfold findByIdThrows. simpl. by rewrite Ht. }
  rewrite (deleteTag_guarded ctx preview_data s tid t) by done.
  rewrite (deleteTag_guarded ctx real_data s tid t) in Hreal by (by rewrite ?Hid).
  destruct (ctx_user ctx) as [me|]; [|done].
  destruct (ctx_access ctx (tag_orgId t) DeleteAccess); [|done].
  rewrite Hp. rewrite Hr in Hreal.
  destruct (revisions s !! tag_revisionId t) as [rev|]; [|done].
  case_decide; [done|].
  apply deleteModelCascading_real in Hreal as (_ & _ & [[=]|[= ->]] & _).
  by rewrite deleteModelCascading_preview.
Qed.

(** C10: [deleteTag] with [preview = true] does not look the revision up.
    For a tag whose [revisionId] resolves to no revision the preview
    returns the acknowledgements and writes nothing, while the same
    request without the preview flag fails with the revision's not-found
    error and writes nothing either; and the answer of a preview is the
    same whatever the collection of revisions holds. *)
Theorem deleteTag_preview_skips_revision ctx preview_data real_data s tid t :
  tx_preview preview_data = true ->
  tx_preview real_data = false ->
  tx_tag_id real_data = tx_tag_id preview_data ->
  ObjectId_new (tx_tag_id preview_data) = Some tid ->
  tags s !! tid = Some t ->
  hasAccess ctx (tag_orgId t) DeleteAccess = true ->
  (revisions s !! tag_revisionId t = None ->
     deleteTag ctx preview_data s = (s, Ok (cascadeAcks t s))
     /\ deleteTag ctx real_data s = (s, Throw (NotFound revisionFailed)))
  /\ (forall revs,
        (deleteTag ctx preview_data (setRevisions revs s)).2
        = (deleteTag ctx preview_data s).2).
Proof.
  intros Hp Hr Hid Hparse Ht Hacc.
  unfold hasAccess in Hacc. destruct (ctx_user ctx) as [me|] eqn:Hme; [|done].
  split.
  - intros Hrev.
    rewrite (deleteTag_guarded ctx preview_data s tid t) by done.
    rewrite (deleteTag_guarded ctx real_data s tid t) by (by rewrite ?Hid).
    by rewrite Hme, Hacc, Hp, Hr, Hrev.
  - intros revs.
    rewrite (deleteTag_guarded ctx preview_data s tid t) by done.
    rewrite (deleteTag_guarded ctx preview_data (setRevisions revs s) tid t) by done.
    by rewrite Hme, Hacc, Hp.
Qed.


(** ** Updating a tag *)

(** What [bulkGQLSet] does with the keys [updateTag] allows. *)
Lemma bulkGQLSet_updateTagKeys data t :
  bulkGQLSet data updateTagKeys t =
    {| tag_id := tag_id t;
       tag_orgId := tag_orgId t;
       tag_name := default (tag_name t) (tu_name data);
       tag_tagCode := tag_tagCode t;
       tag_revisionId := tag_revisionId t;
       tag_type := tag_type t;
       tag_ruleGroupIds := tag_ruleGroupIds t;
       tag_width := default (tag_width t) (tu_width data);
       tag_height := default (tag_height t) (tu_height data);
       tag_autoLoad := default (tag_autoLoad t) (tu_auto_load data);
       tag_isActive := default (tag_isActive t) (tu_is_active data) |}.
Proof.
  unfold bulkGQLSet.
  rewrite !(gqlSet_allowed updateTagKeys "name"), !(gqlSet_allowed updateTagKeys "width"),
    !(gqlSet_allowed updateTagKeys "height"), !(gqlSet_allowed updateTagKeys "auto_load"),
    !(gqlSet_allowed updateTagKeys "is_active"),
    !(gqlSet_ignored updateTagKeys "tag_code"), !(gqlSet_ignored updateTagKeys "revision_id"),
    !(gqlSet_ignored updateTagKeys "type"), !(gqlSet_ignored updateTagKeys "rule_group_ids")
    by (apply (bool_decide_unpack _); by vm_compute).
  reflexivity.
Qed.

(** [updateTag] up to the write. *)
Lemma updateTag_guarded ctx data s tid t :
  ObjectId_new (tu_tag_id data) = Some tid ->
  tags s !! tid = Some t ->
  updateTag ctx data s =
    match ctx_user ctx with
    | Some me =>
        if ctx_access ctx (tag_orgId t) EditAccess then
          if bool_decide (tag_type t = PLACEMENT)
             && bool_decide (tu_auto_load data = Some true)
          then (s, Throw autoLoadPlacementError)
          else if decide (writesLeft s = Some O) then (s, Throw PersistenceFailure)
          else
            (written
               (Saved (TagModel (bulkGQLSet data updateTagKeys t)) me USER
                  {| gqlMethod := UPDATE_PROPERTIES;
                     userComments := tu_comments data;
                     opConnectedModels := [] |})
               {| tags := <[tag_id t := bulkGQLSet data updateTagKeys t]> (tags s);
                  revisions := revisions s; ruleGroups := ruleGroups s;
                  journal := journal s; writesLeft := writesLeft s |},
             Ok true)
        else (s, Throw AuthorizationDenied)
    | None => (s, Throw AuthorizationDenied)
    end.
Proof.
  intros Hid Ht. unfold updateTag.
  erewrite bind_ok; [|by rewrite newObjectId_run, Hid].
  erewrite bind_ok; [|by unfold findByIdThrows; simpl; rewrite Ht].
  unfold asUserWithEditAccess, asUserWithAccess.
  destruct (ctx_user ctx) as [me|]; [|done].
  destruct (ctx_access ctx (tag_orgId t) EditAccess); [|done].
  destruct (_ && _); [done|].
  unfold bind. rewrite save_run. by case_decide.
Qed.

(** Every run of [updateTag] either leaves the store as it was or files
    the updated document in place of the tag it found. *)
Lemma updateTag_cases ctx data s s' r :
  updateTag ctx data s = (s', r) ->
  (s' = s /\ exists e, r = Throw e)
  \/ (exists tid t,
        ObjectId_new (tu_tag_id data) = Some tid
        /\ tags s !! tid = Some t
        /\ r = Ok true
        /\ tags s' = <[tag_id t := bulkGQLSet data updateTagKeys t]> (tags s)).
Proof.
  intros Hrun.
  destruct (ObjectId_new (tu_tag_id data)) as [tid|] eqn:Hid.
  2:{ unfold updateTag in Hrun. erewrite bind_throw in Hrun;
        [|by rewrite newObjectId_run, Hid].
      injection Hrun as <- <-. left. eauto. }
  destruct (tags s !! tid) as [t|] eqn:Ht.
  2:{ unfold updateTag in Hrun.
      erewrite bind_ok in Hrun; [|by rewrite newObjectId_run, Hid].
      erewrite bind_throw in Hrun; [|by unfold findByIdThrows; simpl; rewrite Ht].
      injection Hrun as <- <-. left. eauto. }
  rewrite (updateTag_guarded ctx data s tid t) in Hrun by done.
  destruct (ctx_user ctx) as [me|]; [|injection Hrun as <- <-; left; eauto].
  destruct (ctx_access ctx (tag_orgId t) EditAccess);
    [|injection Hrun as <- <-; left; eauto].
  destruct (_ && _); [injection Hrun as <- <-; left; eauto|].
  case_decide; injection Hrun as <- <-; [left; eauto|].
  right. exists tid, t. eauto.
Qed.

(** C6: a successful [updateTag] files, in place of the tag it found, the
    document in which [name], [is_active], [width], [height] and
    [auto_load] have the value of the payload where the payload carries
    the key and their prior value where it does not; [type], [tagCode],
    [revisionId] and [ruleGroupIds] (and the identifiers) keep their
    prior value whatever the payload carries under those keys.  No run
    of [updateTag], successful or not, changes those properties on any
    tag of the store. *)
Theorem updateTag_partial_update ctx data s s' r :
  filedById (T:=Tag) s ->
  updateTag ctx data s = (s', r) ->
  (forall b, r = Ok b ->
     exists t t',
       ObjectId_new (tu_tag_id data) = Some (tag_id t)
       /\ tags s !! tag_id t = Some t
       /\ tags s' = <[tag_id t := t']> (tags s)
       /\ tag_name t' = default (tag_name t) (tu_name data)
       /\ tag_isActive t' = default (tag_isActive t) (tu_is_active data)
       /\ tag_width t' = default (tag_width t) (tu_width data)
       /\ tag_height t' = default (tag_height t) (tu_height data)
       /\ tag_autoLoad t' = default (tag_autoLoad t) (tu_auto_load data))
  /\ (forall k u,
        tags s !! k = Some u ->
        exists u',
          tags s' !! k = Some u'
          /\ tag_type u' = tag_type u
          /\ tag_tagCode u' = tag_tagCode u
          /\ tag_revisionId u' = tag_revisionId u
          /\ tag_ruleGroupIds u' = tag_ruleGroupIds u
          /\ tag_id u' = tag_id u
          /\ tag_orgId u' = tag_orgId u).
Proof.
  intros Hfiled Hrun.
  apply updateTag_cases in Hrun as [[-> [e ->]]|(tid & t & Hid & Ht & -> & Htags)].
  - split; [done|]. intros k u Hu. by exists u.
  - pose proof (Hfiled _ _ Ht) as Hkey. simpl in Hkey. subst tid.
    rewrite bulkGQLSet_updateTagKeys in Htags. split.
    + intros b _. eexists t, _. split; [done|]. split; [done|].
      split; [exact Htags|]. done.
    + intros k u Hu. rewrite Htags.
      destruct (decide (tag_id t = k)) as [<-|Hne].
      * rewrite lookup_insert_eq. eexists. split; [done|].
        rewrite Ht in Hu. by injection Hu as <-.
      * rewrite lookup_insert_ne by done. by exists u.
Qed.


(** ** Creating and duplicating tags *)

Lemma generateObjectId_fresh_tag s :
  tags s !! ObjectId_fresh (storeIds s) = None.
Proof.
  destruct (tags s !! ObjectId_fresh (storeIds s)) as [u|] eqn:Hu; [|done].
  destruct (ObjectId_fresh_spec (storeIds s)).
  unfold storeIds. apply elem_of_app. left.
  apply list_elem_of_fmap. exists (ObjectId_fresh (storeIds s), u).
  split; [done|]. by apply elem_of_map_to_list.
Qed.

(** Copying rule groups touches neither tags nor revisions, and goes
    through on a store that refuses no write. *)
Lemma mapM_cloneRuleGroup_inv (me : User) (gs : list RuleGroup) s s' r :
  mapM (cloneRuleGroup me) gs s = (s', r) ->
  tags s' = tags s /\ revisions s' = revisions s
  /\ (writesLeft s = None -> writesLeft s' = None /\ exists cs, r = Ok cs).
Proof.
  revert s s' r. induction gs as [|g gs IH]; intros s s' r; simpl.
  - intros [= <- <-]. eauto.
  - unfold bind at 1. unfold cloneRuleGroup at 1.
    erewrite bind_ok; [|reflexivity]. rewrite save_run. case_decide as Hw.
    + intros [= <- <-]. split; [done|]. split; [done|]. congruence.
    + unfold bind at 1.
      match goal with
      | |- context [mapM ?f ?l ?s0] => destruct (mapM f l s0) as [s2 r2] eqn:Hrest
      end.
      apply IH in Hrest as (Ht & Hr & Hrel). simpl in Ht, Hr, Hrel.
      destruct r2 as [cs|e]; intros [= <- <-].
      * split; [done|]. split; [done|]. intros Hnone. rewrite Hnone in Hrel.
        destruct Hrel as [-> _]; [done|]. eauto.
      * split; [done|]. split; [done|]. intros Hnone. rewrite Hnone in Hrel.
        by destruct Hrel as [_ [cs [=]]].
Qed.

(** A branch of a tag: on success the copy is filed under an identifier
    no tag had, with the lineage code and the revision of its source;
    on failure no tag has changed.  The revisions are not touched. *)
Lemma createNewModelBranchFromModel_inv me t s s' r :
  createNewModelBranchFromModel me t s = (s', r) ->
  revisions s' = revisions s
  /\ match r with
     | Ok newTag =>
         tags s !! tag_id newTag = None
         /\ tags s' = <[tag_id newTag := newTag]> (tags s)
         /\ tag_tagCode newTag = tag_tagCode t
         /\ tag_revisionId newTag = tag_revisionId t
     | Throw _ => tags s' = tags s
     end
  /\ (writesLeft s = None -> writesLeft s' = None /\ exists newTag, r = Ok newTag).
Proof.
  unfold createNewModelBranchFromModel.
  erewrite bind_ok; [|reflexivity]. unfold bind at 1.
  match goal with
  | |- context [mapM ?f ?l ?s0] => destruct (mapM f l s0) as [s2 r2] eqn:Hcopies
  end.
  apply mapM_cloneRuleGroup_inv in Hcopies as (Ht & Hr & Hrel).
  destruct r2 as [copies|e].
  2:{ intros [= <- <-]. split; [done|]. split; [done|].
      intros Hnone. by destruct (Hrel Hnone) as [_ [cs [=]]]. }
  erewrite bind_ok; [|reflexivity]. rewrite save_run. case_decide as Hw.
  - intros [= <- <-]. split; [done|]. split; [done|].
    intros Hnone. destruct (Hrel Hnone) as [Hnone' _]. congruence.
  - intros [= <- <-]. simpl. split; [done|]. split.
    + rewrite <- Ht. split; [apply generateObjectId_fresh_tag|done].
    + intros Hnone. destruct (Hrel Hnone) as [-> _]. eauto.
Qed.


Lemma duplicateTag_inner_inv me t s s' r :
  duplicateTag_inner me t s = (s', r) ->
  match r with
  | Ok newTag =>
      exists rev,
        revisions s !! tag_revisionId t = Some rev
        /\ tags s !! tag_id newTag = None
        /\ tags s' = <[tag_id newTag := newTag]> (tags s)
        /\ tag_tagCode newTag = tag_tagCode t
        /\ tag_revisionId newTag = tag_revisionId t
        /\ revisions s' =
             <[rev_id rev := setTagIds (rev_tagIds rev ++ [tag_id newTag]) rev]>
               (revisions s)
  | Throw _ => tags s ⊆ tags s'
  end
  /\ (writesLeft s = None -> is_Some (revisions s !! tag_revisionId t) ->
      writesLeft s' = None /\ exists newTag, r = Ok newTag).
Proof.
  unfold duplicateTag_inner. unfold bind at 1, findByIdThrows at 1. simpl.
  destruct (revisions s !! tag_revisionId t) as [rev|] eqn:Hrev.
  2:{ intros [= <- <-]. split; [done|]. by intros _ [? [=]]. }
  unfold bind at 1.
  destruct (createNewModelBranchFromModel me t s) as [s1 r1] eqn:Hbranch.
  apply createNewModelBranchFromModel_inv in Hbranch as (Hr1 & Hres & Hrel).
  destruct r1 as [newTag|e].
  2:{ intros [= <- <-]. split; [by rewrite Hres|].
      intros Hnone _. by destruct (Hrel Hnone) as [_ [? [=]]]. }
  destruct Hres as (Hfresh & Ht1 & Hcode & Hrevid).
  unfold bind at 1. rewrite save_run. case_decide as Hw.
  - intros [= <- <-]. split.
    + rewrite Ht1. by apply insert_subseteq.
    + intros Hnone _. destruct (Hrel Hnone) as [Hnone' _]. congruence.
  - intros [= <- <-]. simpl. split.
    + exists rev. by rewrite Hr1.
    + intros Hnone _. destruct (Hrel Hnone) as [-> _]. eauto.
Qed.

(** Every run of [duplicateTag] keeps the tags the store had; a
    successful one adds the renamed copy and lists it on the revision
    the source points to. *)
Lemma duplicateTag_inv ctx data s s' r :
  duplicateTag ctx data s = (s', r) ->
  tags s ⊆ tags s'
  /\ forall g, r = Ok g ->
       exists tid t rev newTag,
         ObjectId_new (td_tag_id data) = Some tid
         /\ tags s !! tid = Some t
         /\ hasAccess ctx (tag_orgId t) CreateAccess = true
         /\ revisions s !! tag_revisionId t = Some rev
         /\ tags s !! tag_id newTag = None
         /\ tag_tagCode newTag = tag_tagCode t
         /\ tag_revisionId newTag = tag_revisionId t
         /\ g = toGQLType (setName (td_name data) newTag)
         /\ tags s' = <[tag_id newTag := setName (td_name data) newTag]> (tags s)
         /\ revisions s' =
              <[rev_id rev := setTagIds (rev_tagIds rev ++ [tag_id newTag]) rev]>
                (revisions s).
Proof.
  unfold duplicateTag. unfold bind at 1. rewrite newObjectId_run.
  destruct (ObjectId_new (td_tag_id data)) as [tid|] eqn:Hid.
  2:{ by intros [= <- <-]. }
  unfold bind at 1, findByIdThrows at 1. simpl.
  destruct (tags s !! tid) as [t|] eqn:Ht.
  2:{ by intros [= <- <-]. }
  unfold asUserWithCreateAccess, asUserWithAccess.
  destruct (ctx_user ctx) as [me|] eqn:Hme.
  2:{ by intros [= <- <-]. }
  destruct (ctx_access ctx (tag_orgId t) CreateAccess) eqn:Hacc.
  2:{ by intros [= <- <-]. }
  unfold bind at 1.
  destruct (duplicateTag_inner me t s) as [s1 r1] eqn:Hinner.
  apply duplicateTag_inner_inv in Hinner as [Hres _].
  destruct r1 as [newTag|e].
  2:{ by intros [= <- <-]. }
  destruct Hres as (rev & Hrev & Hfresh & Ht1 & Hcode & Hrevid & Hr1).
  unfold bind at 1. rewrite save_run. case_decide as Hw.
  - intros [= <- <-]. split; [|done]. rewrite Ht1. by apply insert_subseteq.
  - intros [= <- <-]. simpl. rewrite Ht1, insert_insert_eq. split.
    + by apply insert_subseteq.
    + intros g [= <-]. exists tid, t, rev, newTag.
      unfold hasAccess. rewrite Hme. by repeat split.
Qed.

(** On a store that refuses no write, a caller with create access can
    duplicate every tag whose revision exists. *)
Lemma duplicateTag_succeeds ctx data s tid t :
  ObjectId_new (td_tag_id data) = Some tid ->
  tags s !! tid = Some t ->
  hasAccess ctx (tag_orgId t) CreateAccess = true ->
  is_Some (revisions s !! tag_revisionId t) ->
  writesLeft s = None ->
  exists s' g, duplicateTag ctx data s = (s', Ok g).
Proof.
  intros Hid Ht Hacc Hrev Hnone. unfold duplicateTag.
  erewrite bind_ok; [|by rewrite newObjectId_run, Hid].
  erewrite bind_ok; [|by unfold findByIdThrows; simpl; rewrite Ht].
  unfold asUserWithCreateAccess.
  match goal with
  | |- context [asUserWithAccess _ _ _ ?k] =>
      apply (asUserWithAccess_has_access _ _ _ k) in Hacc as (me & _ & ->)
  end.
  destruct (duplicateTag_inner me t s) as [s1 r1] eqn:Hinner.
  pose proof Hinner as Hinner'.
  apply duplicateTag_inner_inv in Hinner' as [_ Hrel].
  destruct (Hrel Hnone Hrev) as [Hnone1 [newTag ->]].
  erewrite bind_ok; [|exact Hinner].
  unfold bind. rewrite save_run. rewrite Hnone1. case_decide; [done|]. eauto.
Qed.

(** [createTagSkeleton]: on success the new tag is filed under its
    identifier and listed last on the revision it was created for. *)
Lemma createTagSkeleton_inv me rev name type width height autoLoad comments s s' r :
  createTagSkeleton me rev name type width height autoLoad comments s = (s', r) ->
  tags s ⊆ tags s'
  /\ (forall newTag, r = Ok newTag ->
        tags s !! tag_id newTag = None
        /\ tags s' = <[tag_id newTag := newTag]> (tags s)
        /\ revisions s' =
             <[rev_id rev := setTagIds (rev_tagIds rev ++ [tag_id newTag]) rev]>
               (revisions s)
        /\ tag_revisionId newTag = rev_id rev
        /\ tag_orgId newTag = rev_orgId rev
        /\ tag_name newTag = name
        /\ tag_type newTag = type
        /\ tag_ruleGroupIds newTag = []
        /\ tag_autoLoad newTag = autoLoad)
  /\ (writesLeft s = None -> exists newTag, r = Ok newTag).
Proof.
  unfold createTagSkeleton.
  erewrite bind_ok; [|reflexivity].
  unfold bind at 1. rewrite save_run. case_decide as Hw.
  { intros [= <- <-]. split; [done|]. split; [done|]. congruence. }
  pose proof (generateObjectId_fresh_tag s) as Hfresh.
  unfold bind at 1. rewrite save_run. simpl. case_decide as Hw'.
  - intros [= <- <-]. simpl. split; [by apply insert_subseteq|].
    split; [done|]. intros Hnone. by rewrite Hnone in Hw'.
  - intros [= <- <-]. simpl. split; [by apply insert_subseteq|].
    split; [|eauto]. by intros newTag [= <-].
Qed.

Lemma createTag_inv ctx data s s' r :
  createTag ctx data s = (s', r) ->
  tags s ⊆ tags s'
  /\ forall g, r = Ok g ->
       exists rid rev newTag,
         ObjectId_new (tc_revision_id data) = Some rid
         /\ revisions s !! rid = Some rev
         /\ hasAccess ctx (rev_orgId rev) CreateAccess = true
         /\ g = toGQLType newTag
         /\ tags s !! tag_id newTag = None
         /\ tags s' = <[tag_id newTag := newTag]> (tags s)
         /\ revisions s' =
              <[rev_id rev := setTagIds (rev_tagIds rev ++ [tag_id newTag]) rev]>
                (revisions s)
         /\ tag_revisionId newTag = rev_id rev
         /\ ~ autoLoadOnPlacement newTag.
Proof.
  unfold createTag. unfold bind at 1. rewrite newObjectId_run.
  destruct (ObjectId_new (tc_revision_id data)) as [rid|] eqn:Hid.
  2:{ by intros [= <- <-]. }
  unfold bind at 1, findByIdThrows at 1. simpl.
  destruct (revisions s !! rid) as [rev|] eqn:Hrev.
  2:{ by intros [= <- <-]. }
  unfold asUserWithCreateAccess, asUserWithAccess.
  destruct (ctx_user ctx) as [me|] eqn:Hme.
  2:{ by intros [= <- <-]. }
  destruct (ctx_access ctx (rev_orgId rev) CreateAccess) eqn:Hacc.
  2:{ by intros [= <- <-]. }
  destruct (bool_decide (tc_type data = PLACEMENT) && Bool.eqb (tc_auto_load data) true)
    eqn:Hval.
  { by intros [= <- <-]. }
  unfold bind at 1.
  match goal with
  | |- context [createTagSkeleton ?a ?b ?c ?d ?e ?f ?g ?h ?s0] =>
      destruct (createTagSkeleton a b c d e f g h s0) as [s1 r1] eqn:Hskel
  end.
  apply createTagSkeleton_inv in Hskel as (Hsub & Hok & _).
  destruct r1 as [newTag|e]; intros [= <- <-]; [|done].
  split; [done|]. intros g [= <-].
  destruct (Hok newTag eq_refl) as (Hfresh & Ht & Hr & Hrid & _ & _ & Hty & _ & Hal).
  exists rid, rev, newTag. unfold hasAccess. rewrite Hme.
  repeat (split; [done|]).
  unfold autoLoadOnPlacement. rewrite Hty, Hal. intros [Hp Ha].
  by rewrite Hp, Ha, bool_decide_true in Hval.
Qed.



(** C8: after a successful [createTag] the returned tag is a new one --
    no tag was stored under its identifier -- and it is stored; the
    revision the request named lists what it listed, followed by the
    identifier of the new tag; and the [revisionId] of the new tag is
    that revision's identifier.  After a successful [duplicateTag] the
    same holds for the copy and the revision of its source: the copy is
    a new tag, not the source, the source is stored as it was, and the
    revision lists every identifier it listed before, the source's among
    them, followed by the copy's.  On a store where the identifiers a
    revision lists are those of stored tags, the revision did not list
    the new identifier before. *)
Theorem new_tag_is_linked ctx s s' g :
  filedById (T:=Revision) s ->
  (forall data,
     createTag ctx data s = (s', Ok g) ->
     exists rid rev rev' newTag,
       ObjectId_new (tc_revision_id data) = Some rid
       /\ revisions s !! rid = Some rev
       /\ revisions s' !! rid = Some rev'
       /\ rev_id rev' = rid
       /\ tags s !! tag_id newTag = None
       /\ tags s' !! tag_id newTag = Some newTag
       /\ g = toGQLType newTag
       /\ rev_tagIds rev' = rev_tagIds rev ++ [tag_id newTag]
       /\ tag_id newTag ∈ rev_tagIds rev'
       /\ tag_revisionId newTag = rev_id rev'
       /\ (listedAreTags s -> tag_id newTag ∉ rev_tagIds rev))
  /\ (forall data,
        duplicateTag ctx data s = (s', Ok g) ->
        exists tid t rev rev' newTag,
          ObjectId_new (td_tag_id data) = Some tid
          /\ tags s !! tid = Some t
          /\ revisions s !! tag_revisionId t = Some rev
          /\ revisions s' !! tag_revisionId t = Some rev'
          /\ rev_id rev' = tag_revisionId t
          /\ tags s !! tag_id newTag = None
          /\ tag_id newTag <> tid
          /\ tags s' !! tid = Some t
          /\ tags s' !! tag_id newTag = Some newTag
          /\ g = toGQLType newTag
          /\ rev_tagIds rev' = rev_tagIds rev ++ [tag_id newTag]
          /\ tag_id newTag ∈ rev_tagIds rev'
          /\ tag_revisionId newTag = rev_id rev'
          /\ (forall i, i ∈ rev_tagIds rev -> i ∈ rev_tagIds rev')
          /\ (listedAreTags s -> tag_id newTag ∉ rev_tagIds rev)).
Proof.
  intros Hfiled. split.
  - intros data Hrun. apply createTag_inv in Hrun as [_ Hok].
    destruct (Hok g eq_refl)
      as (rid & rev & newTag & Hid & Hrev & _ & -> & Hnew & Ht & Hr & Hrid & _).
    pose proof (Hfiled _ _ Hrev) as Hkey. simpl in Hkey.
    exists rid, rev, (setTagIds (rev_tagIds rev ++ [tag_id newTag]) rev), newTag.
    split; [done|]. split; [done|]. rewrite Hr, Ht, Hkey, !lookup_insert_eq.
    repeat (split; [done|]). split; [|split; [by rewrite Hrid|]].
    + apply elem_of_app. right. by apply list_elem_of_singleton.
    + intros Hlisted Hin.
      destruct (Hlisted _ _ _ Hrev Hin) as (u & Hu & _). by rewrite Hnew in Hu.
  - intros data Hrun. apply duplicateTag_inv in Hrun as [_ Hok].
    destruct (Hok g eq_refl)
      as (tid & t & rev & newTag & Hid & Ht & _ & Hrev & Hnew & _ & Hrid & -> & Hts & Hr).
    pose proof (Hfiled _ _ Hrev) as Hkey. simpl in Hkey.
    assert (Hne : tag_id newTag <> tid).
    { intros Heq. by rewrite Heq, Ht in Hnew. }
    exists tid, t, rev, (setTagIds (rev_tagIds rev ++ [tag_id newTag]) rev),
      (setName (td_name data) newTag).
    split; [done|]. split; [done|]. split; [done|].
    rewrite Hr, Hts, Hkey, !lookup_insert_eq. simpl.
    rewrite lookup_insert_ne by done.
    repeat (split; [done|]). split.
    + apply elem_of_app. right. by apply list_elem_of_singleton.
    + split; [by rewrite Hrid|]. split.
      * intros i Hi. apply elem_of_app. by left.
      * intros Hlisted Hin.
        destruct (Hlisted _ _ _ Hrev Hin) as (u & Hu & _). by rewrite Hnew in Hu.
Qed.

(** ** The lineage code *)

Lemma duplicated_lineage T s0 ds s :
  tags s0 !! tag_id T = Some T ->
  duplicated T s0 ds s ->
  lineageStored T ds s /\ Forall (fun d => gql_tag_code d = tag_tagCode T) ds.
Proof.
  intros HT. induction 1 as [|ds s ctx data d s' _ [IHs IHc] Hsrc Hrun].
  - split; [|done]. intros o Ho. simpl in Ho.
    apply list_elem_of_singleton in Ho as ->. by exists (tag_id T), T.
  - apply duplicateTag_inv in Hrun as [Hsub Hok].
    destruct (Hok d eq_refl)
      as (tid & t & rev & newTag & Hid & Ht & _ & _ & _ & Hcode & _ & -> & Hts & _).
    destruct (IHs _ Hsrc) as (i & u & Hi & Hu & Hcu).
    assert (Hdcode : tag_tagCode newTag = tag_tagCode T).
    { rewrite Hid in Hi. injection Hi as <-. rewrite Ht in Hu. injection Hu as <-.
      by rewrite Hcode. }
    split.
    + intros o Ho. rewrite map_app, app_comm_cons in Ho.
      apply elem_of_app in Ho as [Ho|Ho].
      * destruct (IHs _ Ho) as (j & v & -> & Hv & Hcv).
        exists j, v. split; [done|]. split; [|done].
        by apply (lookup_weaken _ _ _ _ Hv).
      * simpl in Ho. apply list_elem_of_singleton in Ho as ->.
        rewrite ObjectId_new_toString. eexists _, _. split; [done|].
        rewrite Hts, lookup_insert_eq. by split.
    + apply Forall_app. split; [done|]. by constructor.
Qed.


(** Every run of [updateRuleGroupsOrder] either leaves the store as it
    was or files the tag it found with another order of rule groups. *)
Lemma updateRuleGroupsOrder_cases ctx data s s' r :
  updateRuleGroupsOrder ctx data s = (s', r) ->
  (s' = s /\ exists e, r = Throw e)
  \/ (exists tid t ids,
        tags s !! tid = Some t
        /\ r = Ok true
        /\ tags s' = <[tag_id t := setRuleGroupIds ids t]> (tags s)).
Proof.
  intros Hrun.
  destruct (ObjectId_new (ro_tag_id data)) as [tid|] eqn:Hid.
  2:{ unfold updateRuleGroupsOrder in Hrun.
      erewrite bind_throw in Hrun; [|by rewrite newObjectId_run, Hid].
      injection Hrun as <- <-. left. eauto. }
  destruct (tags s !! tid) as [t|] eqn:Ht.
  2:{ unfold updateRuleGroupsOrder in Hrun.
      erewrite bind_ok in Hrun; [|by rewrite newObjectId_run, Hid].
      erewrite bind_throw in Hrun; [|by unfold findByIdThrows; simpl; rewrite Ht].
      injection Hrun as <- <-. left. eauto. }
  destruct (ctx_user ctx) as [me|] eqn:Hme.
  2:{ unfold updateRuleGroupsOrder in Hrun.
      erewrite bind_ok in Hrun; [|by rewrite newObjectId_run, Hid].
      erewrite bind_ok in Hrun; [|by unfold findByIdThrows; simpl; rewrite Ht].
      unfold asUserWithEditAccess in Hrun.
      rewrite asUserWithAccess_denied in Hrun by auto.
      injection Hrun as <- <-. left. eauto. }
  destruct (ctx_access ctx (tag_orgId t) EditAccess) eqn:Hacc.
  2:{ unfold updateRuleGroupsOrder in Hrun.
      erewrite bind_ok in Hrun; [|by rewrite newObjectId_run, Hid].
      erewrite bind_ok in Hrun; [|by unfold findByIdThrows; simpl; rewrite Ht].
      unfold asUserWithEditAccess in Hrun.
      rewrite asUserWithAccess_denied in Hrun by auto.
      injection Hrun as <- <-. left. eauto. }
  rewrite (updateRuleGroupsOrder_run ctx data s tid t me) in Hrun by done.
  destruct (reorderAccepted t (ro_new_order data));
    [|injection Hrun as <- <-; left; eauto].
  destruct (newObjectIds (ro_new_order data)) as [ids|];
    [|injection Hrun as <- <-; left; eauto].
  case_decide; injection Hrun as <- <-; [left; eauto|].
  right. exists tid, t, ids. eauto.
Qed.

(** A cascade only removes tags. *)
Lemma deleteModelCascading_tags me t preview s :
  tags (deleteModelCascading me t preview s).1 ⊆ tags s.
Proof.
  destruct preview; [done|].
  unfold deleteModelCascading.
  erewrite bind_ok; [|reflexivity].
  unfold bind at 1 2. rewrite deleteModel_run. case_decide as Hw; [done|].
  unfold bind at 1.
  match goal with
  | |- context [mapM ?f ?l ?s0] => destruct (mapM f l s0) as [s2 r2] eqn:Hrest
  end.
  apply mapM_deleteModel_inv in Hrest as (Ht & _).
  assert (Hsub : tags s2 ⊆ tags s) by (rewrite Ht; apply delete_subseteq).
  by destruct r2.
Qed.

Lemma deleteTag_tags ctx data s : tags (deleteTag ctx data s).1 ⊆ tags s.
Proof.
  destruct (ObjectId_new (tx_tag_id data)) as [tid|] eqn:Hid.
  2:{ unfold deleteTag.
      erewrite bind_throw; [|by rewrite newObjectId_run, Hid]. done. }
  destruct (tags s !! tid) as [t|] eqn:Ht.
  2:{ unfold deleteTag.
      erewrite bind_ok; [|by rewrite newObjectId_run, Hid].
      erewrite bind_throw; [|by unfold findByIdThrows; simpl; rewrite Ht]. done. }
  rewrite (deleteTag_guarded ctx data s tid t) by done.
  destruct (ctx_user ctx) as [me|]; [|done].
  destruct (ctx_access ctx (tag_orgId t) DeleteAccess); [|done].
  destruct (tx_preview data); [apply deleteModelCascading_tags|].
  destruct (revisions s !! tag_revisionId t) as [rev|]; [|done].
  case_decide; [done|].
  apply (deleteModelCascading_tags me t false (unlinked me data t rev s)).
Qed.

(** No mutation changes the lineage code of a tag that is in the store
    before and after it. *)
Lemma storeAfter_tagCode ctx m s k u u' :
  filedById (T:=Tag) s ->
  tags s !! k = Some u ->
  tags (storeAfter ctx m s) !! k = Some u' ->
  tag_tagCode u' = tag_tagCode u.
Proof.
  intros Hfiled Hu. destruct m as [data|data|data|data|data]; simpl.
  - destruct (updateRuleGroupsOrder ctx data s) as [s' r] eqn:Hrun.
    apply updateRuleGroupsOrder_cases in Hrun
      as [[-> _]|(tid & t & ids & Ht & _ & Htags)]; simpl.
    + rewrite Hu. by intros [= <-].
    + pose proof (Hfiled _ _ Ht) as Hkey. simpl in Hkey. subst tid.
      rewrite Htags. destruct (decide (tag_id t = k)) as [<-|Hne].
      * rewrite lookup_insert_eq. intros [= <-].
        rewrite Ht in Hu. by injection Hu as <-.
      * rewrite lookup_insert_ne by done. rewrite Hu. by intros [= <-].
  - intros Hu'. pose proof (lookup_weaken _ _ _ _ Hu' (deleteTag_tags ctx data s)) as Hu''.
    rewrite Hu in Hu''. by injection Hu'' as <-.
  - destruct (updateTag ctx data s) as [s' r] eqn:Hrun.
    apply updateTag_cases in Hrun as [[-> _]|(tid & t & _ & Ht & _ & Htags)]; simpl.
    + rewrite Hu. by intros [= <-].
    + pose proof (Hfiled _ _ Ht) as Hkey. simpl in Hkey. subst tid.
      rewrite Htags, bulkGQLSet_updateTagKeys.
      destruct (decide (tag_id t = k)) as [<-|Hne].
      * rewrite lookup_insert_eq. intros [= <-].
        rewrite Ht in Hu. by injection Hu as <-.
      * rewrite lookup_insert_ne by done. rewrite Hu. by intros [= <-].
  - destruct (duplicateTag ctx data s) as [s' r] eqn:Hrun.
    apply duplicateTag_inv in Hrun as [Hsub _]. simpl.
    rewrite (lookup_weaken _ _ _ _ Hu Hsub). by intros [= <-].
  - destruct (createTag ctx data s) as [s' r] eqn:Hrun.
    apply createTag_inv in Hrun as [Hsub _]. simpl.
    rewrite (lookup_weaken _ _ _ _ Hu Hsub). by intros [= <-].
Qed.

(** C7: every duplicate that a sequence of successful [duplicateTag]
    calls starting from tag [T] returns -- duplicates of duplicates
    included -- carries the lineage code of [T], and so does every
    member of the lineage as stored; and no mutation of the tag manager
    changes the lineage code of a stored tag. *)
Theorem tagCode_stable :
  (forall T s0 ds s,
     tags s0 !! tag_id T = Some T ->
     duplicated T s0 ds s ->
     Forall (fun d => gql_tag_code d = tag_tagCode T) ds
     /\ lineageStored T ds s)
  /\ (forall ctx m s k u u',
        filedById (T:=Tag) s ->
        tags s !! k = Some u ->
        tags (storeAfter ctx m s) !! k = Some u' ->
        tag_tagCode u' = tag_tagCode u).
Proof.
  split.
  - intros T s0 ds s HT Hdup.
    destruct (duplicated_lineage T s0 ds s HT Hdup). by split.
  - apply storeAfter_tagCode.
Qed.

End Facts.

(** * Further behaviour of the resolvers *)

Section Behaviour.
Context `{ObjectIdOps}.

(** ** The order of look-up, access check and work *)

(** Every resolver that names a tag starts the same way: the identifier
    is parsed, the tag is looked up, the caller is checked against the
    organisation of the tag, and only then the body runs. *)
Lemma tagRequest_run {A} str cap ctx (k : Tag -> User -> M A) s :
  (let* tagId := newObjectId str in
   let* t := findByIdThrows (T:=Tag) tagId tagFailed in
   asUserWithAccess cap ctx (tag_orgId t) (k t)) s =
  match resolveTag str s with
  | Throw e => (s, Throw e)
  | Ok t =>
      match ctx_user ctx with
      | Some me =>
          if ctx_access ctx (tag_orgId t) cap then k t me s
          else (s, Throw AuthorizationDenied)
      | None => (s, Throw AuthorizationDenied)
      end
  end.
Proof.
  unfold resolveTag, bind at 1. rewrite newObjectId_run.
  destruct (ObjectId_new str) as [i|]; [|done].
  unfold bind, findByIdThrows. simpl.
  destruct (tags s !! i) as [t|]; [|done].
  unfold asUserWithAccess. destruct (ctx_user ctx); [|done].
  by destruct (ctx_access ctx (tag_orgId t) cap).
Qed.

Lemma revisionRequest_run {A} str cap ctx (k : Revision -> User -> M A) s :
  (let* revisionId := newObjectId str in
   let* revision := findByIdThrows (T:=Revision) revisionId revisionFailed in
   asUserWithAccess cap ctx (rev_orgId revision) (k revision)) s =
  match resolveRevision str s with
  | Throw e => (s, Throw e)
  | Ok r =>
      match ctx_user ctx with
      | Some me =>
          if ctx_access ctx (rev_orgId r) cap then k r me s
          else (s, Throw AuthorizationDenied)
      | None => (s, Throw AuthorizationDenied)
      end
  end.
Proof.
  unfold resolveRevision, bind at 1. rewrite newObjectId_run.
  destruct (ObjectId_new str) as [i|]; [|done].
  unfold bind, findByIdThrows. simpl.
  destruct (revisions s !! i) as [r|]; [|done].
  unfold asUserWithAccess. destruct (ctx_user ctx); [|done].
  by destruct (ctx_access ctx (rev_orgId r) cap).
Qed.

Lemma updateRuleGroupsOrder_eq ctx data s :
  updateRuleGroupsOrder ctx data s =
  match resolveTag (ro_tag_id data) s with
  | Throw e => (s, Throw e)
  | Ok t =>
      match ctx_user ctx with
      | Some me =>
          if ctx_access ctx (tag_orgId t) EditAccess then
            if reorderAccepted t (ro_new_order data) then
              match newObjectIds (ro_new_order data) with
              | None => (s, Throw BSONTypeError)
              | Some ids =>
                  if decide (writesLeft s = Some O) then (s, Throw PersistenceFailure)
                  else
                    (written
                       (Saved (TagModel (setRuleGroupIds ids t)) me USER
                          {| gqlMethod := REORDER_LINKED_ENTITIES;
                             userComments := None;
                             opConnectedModels :=
                               map RuleGroupModel
                                 (omap (fun i => ruleGroups s !! i) (remove_dups ids)) |})
                       {| tags := <[tag_id t := setRuleGroupIds ids t]> (tags s);
                          revisions := revisions s; ruleGroups := ruleGroups s;
                          journal := journal s; writesLeft := writesLeft s |},
                     Ok true)
              end
            else (s, Throw reOrderError)
          else (s, Throw AuthorizationDenied)
      | None => (s, Throw AuthorizationDenied)
      end
  end.
Proof.
  unfold updateRuleGroupsOrder, asUserWithEditAccess. rewrite tagRequest_run.
  destruct (resolveTag (ro_tag_id data) s) as [t|]; [|done].
  destruct (ctx_user ctx) as [me|]; [|done].
  destruct (ctx_access ctx (tag_orgId t) EditAccess); [|done].
  destruct (reorderAccepted t (ro_new_order data)); [|done].
  destruct (newObjectIds (ro_new_order data)) as [ids|]; [|done].
  erewrite bind_ok; [|reflexivity].
  unfold bind. rewrite save_run. by case_decide.
Qed.

Lemma updateTag_eq ctx data s :
  updateTag ctx data s =
  match resolveTag (tu_tag_id data) s with
  | Throw e => (s, Throw e)
  | Ok t =>
      match ctx_user ctx with
      | Some me =>
          if ctx_access ctx (tag_orgId t) EditAccess then
            if bool_decide (tag_type t = PLACEMENT)
               && bool_decide (tu_auto_load data = Some true)
            then (s, Throw autoLoadPlacementError)
            else if decide (writesLeft s = Some O) then (s, Throw PersistenceFailure)
            else
              (written
                 (Saved (TagModel (bulkGQLSet data updateTagKeys t)) me USER
                    {| gqlMethod := UPDATE_PROPERTIES;
                       userComments := tu_comments data;
                       opConnectedModels := [] |})
                 {| tags := <[tag_id t := bulkGQLSet data updateTagKeys t]> (tags s);
                    revisions := revisions s; ruleGroups := ruleGroups s;
                    journal := journal s; writesLeft := writesLeft s |},
               Ok true)
          else (s, Throw AuthorizationDenied)
      | None => (s, Throw AuthorizationDenied)
      end
  end.
Proof.
  unfold updateTag, asUserWithEditAccess. rewrite tagRequest_run.
  destruct (resolveTag (tu_tag_id data) s) as [t|]; [|done].
  destruct (ctx_user ctx) as [me|]; [|done].
  destruct (ctx_access ctx (tag_orgId t) EditAccess); [|done].
  destruct (_ && _); [done|].
  unfold bind. rewrite save_run. by case_decide.
Qed.

Lemma deleteTag_eq ctx data s :
  deleteTag ctx data s =
  match resolveTag (tx_tag_id data) s with
  | Throw e => (s, Throw e)
  | Ok t =>
      match ctx_user ctx with
      | Some me =>
          if ctx_access ctx (tag_orgId t) DeleteAccess then
            if tx_preview data then deleteModelCascading me t true s
            else
              match revisions s !! tag_revisionId t with
              | None => (s, Throw (NotFound revisionFailed))
              | Some rev =>
                  if decide (writesLeft s = Some O) then (s, Throw PersistenceFailure)
                  else deleteModelCascading me t false (unlinked me data t rev s)
              end
          else (s, Throw AuthorizationDenied)
      | None => (s, Throw AuthorizationDenied)
      end
  end.
Proof.
  unfold resolveTag.
  destruct (ObjectId_new (tx_tag_id data)) as [tid|] eqn:Hid.
  2:{ unfold deleteTag. apply bind_throw. by rewrite newObjectId_run, Hid. }
  destruct (tags s !! tid) as [t|] eqn:Ht.
  2:{ unfold deleteTag. erewrite bind_ok; [|by rewrite newObjectId_run, Hid].
      apply bind_throw. unfold findByIdThrows. simpl. by rewrite Ht. }
  by apply (deleteTag_guarded ctx data s tid t).
Qed.

Lemma getTag_eq ctx id s :
  getTag ctx id s =
  match resolveTag id s with
  | Throw e => (s, Throw e)
  | Ok t =>
      if hasAccess ctx (tag_orgId t) ViewAccess then (s, Ok (toGQLType t))
      else (s, Throw AuthorizationDenied)
  end.
Proof.
  unfold getTag, asUserWithViewAccess. rewrite tagRequest_run. unfold hasAccess.
  destruct (resolveTag id s) as [t|]; [|done].
  by destruct (ctx_user ctx).
Qed.

Lemma duplicateTag_eq ctx data s :
  duplicateTag ctx data s =
  match resolveTag (td_tag_id data) s with
  | Throw e => (s, Throw e)
  | Ok t =>
      match ctx_user ctx with
      | Some me =>
          if ctx_access ctx (tag_orgId t) CreateAccess then
            (let* duplicate := duplicateTag_inner me t in
             let* saved := save (setName (td_name data) duplicate) me USER
                    {| gqlMethod := UPDATE_PROPERTIES;
                       userComments :=
                         Some ("Changed tag name to " ++ td_name data)%string;
                       opConnectedModels := [] |} in
             ret (toGQLType saved)) s
          else (s, Throw AuthorizationDenied)
      | None => (s, Throw AuthorizationDenied)
      end
  end.
Proof.
  unfold duplicateTag, asUserWithCreateAccess. by rewrite tagRequest_run.
Qed.

Lemma createTag_eq ctx data s :
  createTag ctx data s =
  match resolveRevision (tc_revision_id data) s with
  | Throw e => (s, Throw e)
  | Ok revision =>
      match ctx_user ctx with
      | Some me =>
          if ctx_access ctx (rev_orgId revision) CreateAccess then
            if bool_decide (tc_type data = PLACEMENT) && Bool.eqb (tc_auto_load data) true
            then (s, Throw autoLoadPlacementError)
            else
              (let* t := createTagSkeleton me revision (tc_name data) (tc_type data)
                           (tc_width data) (tc_height data) (tc_auto_load data)
                           (tc_comments data) in
               ret (toGQLType t)) s
          else (s, Throw AuthorizationDenied)
      | None => (s, Throw AuthorizationDenied)
      end
  end.
Proof.
  unfold createTag, asUserWithCreateAccess. rewrite revisionRequest_run.
  destruct (resolveRevision (tc_revision_id data) s) as [r|]; [|done].
  destruct (ctx_user ctx) as [me|]; [|done].
  destruct (ctx_access ctx (rev_orgId r) CreateAccess); [|done].
  by destruct (_ && _).
Qed.

Lemma no_access_cases ctx org cap :
  hasAccess ctx org cap = false ->
  ctx_user ctx = None \/ ctx_access ctx org cap = false.
Proof. unfold hasAccess. destruct (ctx_user ctx); auto. Qed.

(** X1: every mutation first parses the identifier the request names and
    looks the document up, then checks the caller, and only then does
    anything else.  A malformed identifier or a missing document is
    reported to every caller, entitled or not; a caller who does not hold
    the capability of the mutation on the organisation of the document is
    denied whatever else the request says; and in both cases the store
    is left as it was. *)
Theorem mutation_lookup_then_access ctx m s :
  (forall e, targetOrg m s = Throw e ->
     storeAfter ctx m s = s /\ thrown ctx m s = Some e)
  /\ (forall org, targetOrg m s = Ok org ->
        hasAccess ctx org (required m) = false ->
        storeAfter ctx m s = s /\ thrown ctx m s = Some AuthorizationDenied).
Proof.
  destruct m as [data|data|data|data|data]; unfold thrown, errorOf; simpl.
  - rewrite updateRuleGroupsOrder_eq.
    destruct (resolveTag (ro_tag_id data) s) as [t|e0].
    + split; [done|]. intros org [= <-] [->| ->]%no_access_cases; [done|].
      by destruct (ctx_user ctx).
    + split; [by intros e [= <-]|done].
  - rewrite deleteTag_eq.
    destruct (resolveTag (tx_tag_id data) s) as [t|e0].
    + split; [done|]. intros org [= <-] [->| ->]%no_access_cases; [done|].
      by destruct (ctx_user ctx).
    + split; [by intros e [= <-]|done].
  - rewrite updateTag_eq.
    destruct (resolveTag (tu_tag_id data) s) as [t|e0].
    + split; [done|]. intros org [= <-] [->| ->]%no_access_cases; [done|].
      by destruct (ctx_user ctx).
    + split; [by intros e [= <-]|done].
  - rewrite duplicateTag_eq.
    destruct (resolveTag (td_tag_id data) s) as [t|e0].
    + split; [done|]. intros org [= <-] [->| ->]%no_access_cases; [done|].
      by destruct (ctx_user ctx).
    + split; [by intros e [= <-]|done].
  - rewrite createTag_eq.
    destruct (resolveRevision (tc_revision_id data) s) as [t|e0].
    + split; [done|]. intros org [= <-] [->| ->]%no_access_cases; [done|].
      by destruct (ctx_user ctx).
    + split; [by intros e [= <-]|done].
Qed.

(** ** Mutations that save once *)

Lemma single_write_throw_unchanged ctx m s :
  savesOnce m -> thrown ctx m s <> None -> storeAfter ctx m s = s.
Proof.
  destruct m as [data|data|data|data|data]; try done; intros _;
    unfold thrown, errorOf; simpl.
  - rewrite updateRuleGroupsOrder_eq.
    destruct (resolveTag (ro_tag_id data) s) as [t|]; [|done].
    destruct (ctx_user ctx) as [me|]; [|done].
    destruct (ctx_access ctx (tag_orgId t) EditAccess); [|done].
    destruct (reorderAccepted t (ro_new_order data)); [|done].
    destruct (newObjectIds (ro_new_order data)) as [ids|]; [|done].
    by case_decide.
  - rewrite updateTag_eq.
    destruct (resolveTag (tu_tag_id data) s) as [t|]; [|done].
    destruct (ctx_user ctx) as [me|]; [|done].
    destruct (ctx_access ctx (tag_orgId t) EditAccess); [|done].
    destruct (_ && _); [done|]. by case_decide.
Qed.

(** X2: [updateRuleGroupsOrder] and [updateTag] save once, as their last
    step, so they are all-or-nothing: a run that throws -- be it the
    look-up, the access check, the validation or the store refusing the
    write -- leaves the store exactly as it was; a run that succeeds
    replaces one tag document under its own identifier, appends one entry
    to the journal, and touches neither revisions nor rule groups. *)
Theorem single_save_all_or_nothing ctx m s :
  savesOnce m ->
  (thrown ctx m s <> None -> storeAfter ctx m s = s)
  /\ (thrown ctx m s = None ->
        revisions (storeAfter ctx m s) = revisions s
        /\ ruleGroups (storeAfter ctx m s) = ruleGroups s
        /\ (exists w, journal (storeAfter ctx m s) = journal s ++ [w])
        /\ exists k t t',
             tags s !! k = Some t
             /\ tag_id t' = tag_id t
             /\ tags (storeAfter ctx m s) = <[tag_id t := t']> (tags s)).
Proof.
  destruct m as [data|data|data|data|data]; try done; intros _;
    unfold thrown, errorOf; simpl.
  - rewrite updateRuleGroupsOrder_eq. unfold resolveTag.
    destruct (ObjectId_new (ro_tag_id data)) as [k|]; [|done].
    destruct (tags s !! k) as [t|] eqn:Ht; [|done].
    destruct (ctx_user ctx) as [me|]; [|done].
    destruct (ctx_access ctx (tag_orgId t) EditAccess); [|done].
    destruct (reorderAccepted t (ro_new_order data)); [|done].
    destruct (newObjectIds (ro_new_order data)) as [ids|]; [|done].
    case_decide; [done|]. simpl. split; [done|]. intros _.
    split; [done|]. split; [done|]. split; [eauto|].
    by exists k, t, (setRuleGroupIds ids t).
  - rewrite updateTag_eq. unfold resolveTag.
    destruct (ObjectId_new (tu_tag_id data)) as [k|]; [|done].
    destruct (tags s !! k) as [t|] eqn:Ht; [|done].
    destruct (ctx_user ctx) as [me|]; [|done].
    destruct (ctx_access ctx (tag_orgId t) EditAccess); [|done].
    destruct (_ && _); [done|].
    case_decide; [done|]. simpl. split; [done|]. intros _.
    split; [done|]. split; [done|]. split; [eauto|].
    by exists k, t, (bulkGQLSet data updateTagKeys t).
Qed.

(** ** More on reordering *)

Lemma newObjectIds_inv (l : list string) ids :
  newObjectIds l = Some ids ->
  length ids = length l /\ forall x, toString x ∈ l -> x ∈ ids.
Proof.
  revert ids. induction l as [|str l IH]; intros ids; simpl.
  - intros [= <-]. split; [done|]. by intros x ?%elem_of_nil.
  - destruct (ObjectId_new str) as [i|] eqn:Hi; [|done].
    destruct (newObjectIds l) as [ids'|]; [|done]. intros [= <-].
    destruct (IH ids' eq_refl) as [Hlen Hin]. split; [by simpl; rewrite Hlen|].
    intros x [<-|Hx]%elem_of_cons.
    + rewrite ObjectId_new_toString in Hi. injection Hi as <-.
      apply elem_of_cons. by left.
    + apply elem_of_cons. right. by apply Hin.
Qed.

(** A successful reorder, read backwards. *)
Lemma updateRuleGroupsOrder_ok_inv ctx data s s' b :
  updateRuleGroupsOrder ctx data s = (s', Ok b) ->
  exists t ids,
    resolveTag (ro_tag_id data) s = Ok t
    /\ hasAccess ctx (tag_orgId t) EditAccess = true
    /\ reorderAccepted t (ro_new_order data) = true
    /\ newObjectIds (ro_new_order data) = Some ids
    /\ writesLeft s <> Some O
    /\ b = true
    /\ tags s' = <[tag_id t := setRuleGroupIds ids t]> (tags s).
Proof.
  rewrite updateRuleGroupsOrder_eq. unfold hasAccess.
  destruct (resolveTag (ro_tag_id data) s) as [t|]; [|done].
  destruct (ctx_user ctx) as [me|]; [|done].
  destruct (ctx_access ctx (tag_orgId t) EditAccess) eqn:Hca; [|done].
  destruct (reorderAccepted t (ro_new_order data)) eqn:Hacc; [|done].
  destruct (newObjectIds (ro_new_order data)) as [ids|]; [|done].
  case_decide; [done|]. intros [= <- <-]. by exists t, ids.
Qed.

Lemma updateRuleGroupsOrder_ok_members ctx data s s' b :
  updateRuleGroupsOrder ctx data s = (s', Ok b) ->
  exists t ids,
    resolveTag (ro_tag_id data) s = Ok t
    /\ tags s' = <[tag_id t := setRuleGroupIds ids t]> (tags s)
    /\ ruleGroups s' = ruleGroups s
    /\ length ids = length (tag_ruleGroupIds t)
    /\ (forall i, i ∈ tag_ruleGroupIds t -> i ∈ ids)
    /\ (NoDup (tag_ruleGroupIds t) ->
        NoDup ids /\ forall i, i ∈ ids <-> i ∈ tag_ruleGroupIds t).
Proof.
  intros Hrun. pose proof Hrun as Hrg.
  apply updateRuleGroupsOrder_ok_inv in Hrun
    as (t & ids & Ht & _ & Hacc & Hids & Hw & _ & Htags).
  assert (Hgroups : ruleGroups s' = ruleGroups s).
  { rewrite updateRuleGroupsOrder_eq, Ht in Hrg.
    destruct (ctx_user ctx); [|done].
    destruct (ctx_access ctx (tag_orgId t) EditAccess); [|done].
    rewrite Hacc, Hids in Hrg.
    destruct (decide (writesLeft s = Some O)); [done|]. by injection Hrg as <-. }
  apply reorderAccepted_spec in Hacc as [Hlen Hcov].
  apply newObjectIds_inv in Hids as [Hlen' Hin].
  assert (Hsub : forall i, i ∈ tag_ruleGroupIds t -> i ∈ ids)
    by (intros i Hi; by apply Hin, Hcov).
  exists t, ids. split; [done|]. split; [done|]. split; [done|].
  split; [congruence|]. split; [done|]. intros Hnd.
  assert (Hp : Permutation (tag_ruleGroupIds t) ids).
  { apply submseteq_length_Permutation; [by apply NoDup_submseteq | lia]. }
  split; [by rewrite <- Hp|]. intros i. by rewrite Hp.
Qed.

(** X3: a successful [updateRuleGroupsOrder] never drops a rule group
    and never changes how many the tag lists: the new list has the
    length of the old one and contains every identifier of the old one.
    If the old list had no duplicate, the new one has none and lists the
    same identifiers. *)
Theorem reorder_keeps_rule_groups ctx data s s' b :
  updateRuleGroupsOrder ctx data s = (s', Ok b) ->
  exists t ids,
    resolveTag (ro_tag_id data) s = Ok t
    /\ tags s' = <[tag_id t := setRuleGroupIds ids t]> (tags s)
    /\ length ids = length (tag_ruleGroupIds t)
    /\ (forall i, i ∈ tag_ruleGroupIds t -> i ∈ ids)
    /\ (NoDup (tag_ruleGroupIds t) ->
        NoDup ids /\ forall i, i ∈ ids <-> i ∈ tag_ruleGroupIds t).
Proof.
  intros (t & ids & Ht & Htags & _ & Hrest)%updateRuleGroupsOrder_ok_members.
  by exists t, ids.
Qed.

Lemma reorderAccepted_current (t : Tag) :
  reorderAccepted t (map toString (tag_ruleGroupIds t)) = true.
Proof.
  apply reorderAccepted_spec. split; [by rewrite length_map|].
  intros x Hx. by apply list_elem_of_fmap_2.
Qed.

Lemma setRuleGroupIds_current (t : Tag) : setRuleGroupIds (tag_ruleGroupIds t) t = t.
Proof. by destruct t. Qed.

Lemma resolveTag_filed id s t :
  filedById (T:=Tag) s -> resolveTag id s = Ok t ->
  ObjectId_new id = Some (tag_id t) /\ tags s !! tag_id t = Some t.
Proof.
  intros Hfiled. unfold resolveTag.
  destruct (ObjectId_new id) as [k|]; [|done].
  destruct (tags s !! k) as [t0|] eqn:Hk; [|done]. intros [= ->].
  pose proof (Hfiled _ _ Hk) as E. simpl in E. by subst k.
Qed.

(** In the store of this development, where a document is filed up to
    its timestamps, resending the current order and undoing an accepted
    reorder both leave the collection of tags as it was. *)
Lemma reorder_round_trip_stored ctx id s t :
  filedById (T:=Tag) s ->
  resolveTag id s = Ok t ->
  hasAccess ctx (tag_orgId t) EditAccess = true ->
  let back := {| ro_tag_id := id; ro_new_order := map toString (tag_ruleGroupIds t) |} in
  (writesLeft s <> Some O ->
     exists s', updateRuleGroupsOrder ctx back s = (s', Ok true) /\ tags s' = tags s)
  /\ (NoDup (tag_ruleGroupIds t) ->
      forall new_order s1,
        updateRuleGroupsOrder ctx {| ro_tag_id := id; ro_new_order := new_order |} s
          = (s1, Ok true) ->
        writesLeft s1 <> Some O ->
        exists s2, updateRuleGroupsOrder ctx back s1 = (s2, Ok true) /\ tags s2 = tags s).
Proof.
  intros Hfiled Ht Hacc back.
  destruct (resolveTag_filed id s t Hfiled Ht) as [Hparse Hkey].
  unfold hasAccess in Hacc. destruct (ctx_user ctx) as [me|] eqn:Hme; [|done].
  split.
  - intros Hw. rewrite updateRuleGroupsOrder_eq. simpl. rewrite Ht, Hme, Hacc.
    rewrite reorderAccepted_current, newObjectIds_toString.
    case_decide; [done|]. eexists. split; [done|]. simpl.
    rewrite setRuleGroupIds_current. by apply insert_id.
  - intros Hnd new_order s1 Hrun Hw1.
    pose proof Hrun as Hkeep.
    apply updateRuleGroupsOrder_ok_members in Hkeep
      as (t0 & ids & Ht0 & Htags & _ & Hlen & _ & Hsame).
    simpl in Ht0. rewrite Ht in Ht0. injection Ht0 as <-.
    destruct (Hsame Hnd) as [_ Hiff].
    rewrite updateRuleGroupsOrder_eq. simpl. unfold resolveTag.
    rewrite Hparse, Htags, lookup_insert_eq. simpl. rewrite Hme, Hacc.
    assert (Hacc' : reorderAccepted (setRuleGroupIds ids t)
                      (map toString (tag_ruleGroupIds t)) = true).
    { apply reorderAccepted_spec. simpl. split; [by rewrite length_map|].
      intros x Hx. apply list_elem_of_fmap_2. by apply Hiff. }
    rewrite Hacc', newObjectIds_toString. case_decide; [done|].
    eexists. split; [done|]. simpl.
    rewrite insert_insert_eq.
    replace (setRuleGroupIds (tag_ruleGroupIds t) (setRuleGroupIds ids t)) with t
      by (by destruct t).
    by apply insert_id.
Qed.

Lemma resolveTag_same_tags id s s' :
  tags s' = tags s -> resolveTag id s' = resolveTag id s.
Proof. intros Hs. unfold resolveTag. by rewrite Hs. Qed.

Lemma sameProperties_refl (t : Tag) : sameProperties t t.
Proof. by repeat split. Qed.

(** X4: for a caller with edit access, sending the order the tag has is
    accepted, and afterwards the tag has, for its rule groups and for
    every other property the resolvers handle, the values it had; and
    when the tag lists no rule group twice, every accepted reorder can be
    taken back: the former order is accepted afterwards, and the tag then
    lists its rule groups in the former order again, with every other
    property as it was.  No other tag is touched. *)
Theorem reorder_round_trip ctx id s t :
  filedById (T:=Tag) s ->
  resolveTag id s = Ok t ->
  hasAccess ctx (tag_orgId t) EditAccess = true ->
  let back := {| ro_tag_id := id; ro_new_order := map toString (tag_ruleGroupIds t) |} in
  (writesLeft s <> Some O ->
     exists s' u,
       updateRuleGroupsOrder ctx back s = (s', Ok true)
       /\ resolveTag id s' = Ok u
       /\ tag_ruleGroupIds u = tag_ruleGroupIds t
       /\ sameProperties t u
       /\ forall k, k <> tag_id t -> tags s' !! k = tags s !! k)
  /\ (NoDup (tag_ruleGroupIds t) ->
      forall new_order s1,
        updateRuleGroupsOrder ctx {| ro_tag_id := id; ro_new_order := new_order |} s
          = (s1, Ok true) ->
        writesLeft s1 <> Some O ->
        exists s2 u,
          updateRuleGroupsOrder ctx back s1 = (s2, Ok true)
          /\ resolveTag id s2 = Ok u
          /\ tag_ruleGroupIds u = tag_ruleGroupIds t
          /\ sameProperties t u
          /\ forall k, k <> tag_id t -> tags s2 !! k = tags s !! k).
Proof.
  intros Hfiled Ht Hacc back.
  destruct (reorder_round_trip_stored ctx id s t Hfiled Ht Hacc) as [Hsame Hback].
  split.
  - intros Hw. destruct (Hsame Hw) as (s' & Hrun & Htags).
    exists s', t. split; [exact Hrun|].
    rewrite (resolveTag_same_tags id s s' Htags).
    split; [exact Ht|]. split; [done|]. split; [apply sameProperties_refl|].
    intros k _. by rewrite Htags.
  - intros Hnd new_order s1 Hrun Hw1.
    destruct (Hback Hnd new_order s1 Hrun Hw1) as (s2 & Hrun2 & Htags).
    exists s2, t. split; [exact Hrun2|].
    rewrite (resolveTag_same_tags id s s2 Htags).
    split; [exact Ht|]. split; [done|]. split; [apply sameProperties_refl|].
    intros k _. by rewrite Htags.
Qed.

(** ** What the validation lets through *)


Lemma resolveTag_inv id s t :
  resolveTag id s = Ok t ->
  exists tid, ObjectId_new id = Some tid /\ tags s !! tid = Some t.
Proof.
  unfold resolveTag. destruct (ObjectId_new id) as [tid|]; [|done].
  destruct (tags s !! tid) as [t0|] eqn:Ht; [|done]. intros [= ->]. eauto.
Qed.


(** ** Updating twice, updating nothing *)

Lemma bulkGQLSet_idempotent data t :
  bulkGQLSet data updateTagKeys (bulkGQLSet data updateTagKeys t)
  = bulkGQLSet data updateTagKeys t.
Proof.
  rewrite !bulkGQLSet_updateTagKeys. simpl.
  by destruct (tu_name data), (tu_width data), (tu_height data),
    (tu_auto_load data), (tu_is_active data).
Qed.

Lemma updateTag_ok_inv ctx data s s' b :
  updateTag ctx data s = (s', Ok b) ->
  exists t me,
    resolveTag (tu_tag_id data) s = Ok t
    /\ ctx_user ctx = Some me
    /\ ctx_access ctx (tag_orgId t) EditAccess = true
    /\ bool_decide (tag_type t = PLACEMENT)
       && bool_decide (tu_auto_load data = Some true) = false
    /\ writesLeft s <> Some O
    /\ b = true
    /\ s' = written
              (Saved (TagModel (bulkGQLSet data updateTagKeys t)) me USER
                 {| gqlMethod := UPDATE_PROPERTIES;
                    userComments := tu_comments data;
                    opConnectedModels := [] |})
              {| tags := <[tag_id t := bulkGQLSet data updateTagKeys t]> (tags s);
                 revisions := revisions s; ruleGroups := ruleGroups s;
                 journal := journal s; writesLeft := writesLeft s |}.
Proof.
  rewrite updateTag_eq.
  destruct (resolveTag (tu_tag_id data) s) as [t|]; [|done].
  destruct (ctx_user ctx) as [me|]; [|done].
  destruct (ctx_access ctx (tag_orgId t) EditAccess) eqn:Hca; [|done].
  destruct (_ && _) eqn:Hval; [done|].
  destruct (decide (writesLeft s = Some O)); [done|].
  intros [= <- <-]. by exists t, me.
Qed.

(** In the store of this development, a second run of a successful
    update files the document the first run filed. *)
Lemma updateTag_idempotent_stored ctx data s s1 b :
  filedById (T:=Tag) s ->
  updateTag ctx data s = (s1, Ok b) ->
  writesLeft s1 <> Some O ->
  exists s2,
    updateTag ctx data s1 = (s2, Ok true)
    /\ tags s2 = tags s1
    /\ revisions s2 = revisions s1
    /\ ruleGroups s2 = ruleGroups s1.
Proof.
  intros Hfiled (t & me & Ht & Hme & Hacc & Hval & _ & _ & ->)%updateTag_ok_inv Hw1.
  destruct (resolveTag_filed _ _ _ Hfiled Ht) as [Hparse Hkey].
  rewrite updateTag_eq. unfold resolveTag. rewrite Hparse. simpl.
  rewrite lookup_insert_eq, Hme.
  replace (tag_orgId (bulkGQLSet data updateTagKeys t)) with (tag_orgId t) by done.
  rewrite Hacc.
  replace (tag_type (bulkGQLSet data updateTagKeys t)) with (tag_type t)
    by (by rewrite bulkGQLSet_updateTagKeys).
  rewrite Hval.
  simpl in Hw1.
  destruct (decide (pred <$> writesLeft s = Some O)); [done|].
  eexists. split; [done|]. simpl.
  by rewrite bulkGQLSet_idempotent, insert_insert_eq.
Qed.

(** X6: [updateTag] is idempotent on the properties of the tag: when a
    request has succeeded, the same request by the same caller succeeds
    again as long as the store takes the write, and the tag then has, for
    every property the resolvers handle, the value the first run left;
    no other tag, no revision and no rule group is touched. *)
Theorem updateTag_idempotent ctx data s s1 b :
  filedById (T:=Tag) s ->
  updateTag ctx data s = (s1, Ok b) ->
  writesLeft s1 <> Some O ->
  exists s2 u1 u2,
    updateTag ctx data s1 = (s2, Ok true)
    /\ resolveTag (tu_tag_id data) s1 = Ok u1
    /\ resolveTag (tu_tag_id data) s2 = Ok u2
    /\ sameProperties u1 u2
    /\ (forall k, k <> tag_id u1 -> tags s2 !! k = tags s1 !! k)
    /\ revisions s2 = revisions s1
    /\ ruleGroups s2 = ruleGroups s1.
Proof.
  intros Hfiled Hrun Hw1.
  destruct (updateTag_idempotent_stored ctx data s s1 b Hfiled Hrun Hw1)
    as (s2 & Hrun2 & Htags & Hrevs & Hgroups).
  apply updateTag_ok_inv in Hrun as (t & me & Ht & _ & _ & _ & _ & _ & ->).
  destruct (resolveTag_filed _ _ _ Hfiled Ht) as [Hparse _].
  assert (Hu1 : resolveTag (tu_tag_id data)
                  (written
                     (Saved (TagModel (bulkGQLSet data updateTagKeys t)) me USER
                        {| gqlMethod := UPDATE_PROPERTIES;
                           userComments := tu_comments data;
                           opConnectedModels := [] |})
                     {| tags := <[tag_id t := bulkGQLSet data updateTagKeys t]> (tags s);
                        revisions := revisions s; ruleGroups := ruleGroups s;
                        journal := journal s; writesLeft := writesLeft s |})
                = Ok (bulkGQLSet data updateTagKeys t)).
  { unfold resolveTag. rewrite Hparse. simpl. by rewrite lookup_insert_eq. }
  exists s2, (bulkGQLSet data updateTagKeys t), (bulkGQLSet data updateTagKeys t).
  split; [exact Hrun2|]. split; [exact Hu1|].
  rewrite (resolveTag_same_tags _ _ _ Htags).
  split; [exact Hu1|]. split; [apply sameProperties_refl|].
  split; [|done]. intros k _. by rewrite Htags.
Qed.

(** In the store of this development, an update that carries none of
    the five properties files the document it found. *)
Lemma updateTag_empty_payload_stored ctx data s t me :
  filedById (T:=Tag) s ->
  resolveTag (tu_tag_id data) s = Ok t ->
  ctx_user ctx = Some me ->
  ctx_access ctx (tag_orgId t) EditAccess = true ->
  tu_name data = None -> tu_is_active data = None -> tu_width data = None ->
  tu_height data = None -> tu_auto_load data = None ->
  (writesLeft s = Some O -> updateTag ctx data s = (s, Throw PersistenceFailure))
  /\ (writesLeft s <> Some O ->
      exists s',
        updateTag ctx data s = (s', Ok true)
        /\ tags s' = tags s
        /\ journal s' =
             journal s ++ [Saved (TagModel t) me USER
                             {| gqlMethod := UPDATE_PROPERTIES;
                                userComments := tu_comments data;
                                opConnectedModels := [] |}]).
Proof.
  intros Hfiled Ht Hme Hacc Hn Ha Hw Hh Hal.
  destruct (resolveTag_filed _ _ _ Hfiled Ht) as [_ Hkey].
  assert (Hsame : bulkGQLSet data updateTagKeys t = t).
  { rewrite bulkGQLSet_updateTagKeys, Hn, Ha, Hw, Hh, Hal. by destruct t. }
  rewrite updateTag_eq, Ht, Hme, Hacc, Hal, Hsame.
  rewrite (bool_decide_false (None = Some true)), andb_false_r by done.
  split; intros Hbudget; destruct (decide (writesLeft s = Some O)); try done.
  eexists. split; [done|]. simpl. split; [by apply insert_id|done].
Qed.

(** X7: an update that carries none of the five properties is still
    carried out: the tag keeps, for every property the resolvers handle,
    the value it had, and no other tag is touched, but the save is made
    and recorded with the request's comments -- and fails, like any write,
    when the store refuses it. *)
Theorem updateTag_empty_payload ctx data s t me :
  filedById (T:=Tag) s ->
  resolveTag (tu_tag_id data) s = Ok t ->
  ctx_user ctx = Some me ->
  ctx_access ctx (tag_orgId t) EditAccess = true ->
  tu_name data = None -> tu_is_active data = None -> tu_width data = None ->
  tu_height data = None -> tu_auto_load data = None ->
  (writesLeft s = Some O -> updateTag ctx data s = (s, Throw PersistenceFailure))
  /\ (writesLeft s <> Some O ->
      exists s' u d,
        updateTag ctx data s = (s', Ok true)
        /\ resolveTag (tu_tag_id data) s' = Ok u
        /\ sameProperties t u
        /\ (forall k, k <> tag_id t -> tags s' !! k = tags s !! k)
        /\ sameProperties t d
        /\ journal s' =
             journal s ++ [Saved (TagModel d) me USER
                             {| gqlMethod := UPDATE_PROPERTIES;
                                userComments := tu_comments data;
                                opConnectedModels := [] |}]).
Proof.
  intros Hfiled Ht Hme Hacc Hn Ha Hw Hh Hal.
  destruct (updateTag_empty_payload_stored ctx data s t me Hfiled Ht Hme Hacc Hn Ha Hw Hh Hal)
    as [Hrefused Htaken].
  split; [exact Hrefused|]. intros Hbudget.
  destruct (Htaken Hbudget) as (s' & Hrun & Htags & Hjournal).
  exists s', t, t. split; [exact Hrun|].
  rewrite (resolveTag_same_tags _ _ _ Htags).
  split; [exact Ht|]. split; [apply sameProperties_refl|].
  split; [intros k _; by rewrite Htags|].
  split; [apply sameProperties_refl | exact Hjournal].
Qed.

(** ** Reading back what a mutation wrote *)

(** A branch copies every property of its source but the identifier and
    the rule groups. *)
Lemma createNewModelBranchFromModel_copy me t s s' n :
  createNewModelBranchFromModel me t s = (s', Ok n) ->
  tag_orgId n = tag_orgId t /\ tag_name n = tag_name t
  /\ tag_tagCode n = tag_tagCode t /\ tag_revisionId n = tag_revisionId t
  /\ tag_type n = tag_type t /\ tag_width n = tag_width t
  /\ tag_height n = tag_height t /\ tag_autoLoad n = tag_autoLoad t
  /\ tag_isActive n = tag_isActive t.
Proof.
  unfold createNewModelBranchFromModel.
  erewrite bind_ok; [|reflexivity]. unfold bind at 1.
  match goal with
  | |- context [mapM ?f ?l ?s0] => destruct (mapM f l s0) as [s2 [copies|e]]
  end; [|done].
  erewrite bind_ok; [|reflexivity]. rewrite save_run.
  case_decide; [done|]. by intros [= _ <-].
Qed.

Lemma duplicateTag_inner_copy me t s s' n :
  duplicateTag_inner me t s = (s', Ok n) ->
  tag_orgId n = tag_orgId t /\ tag_name n = tag_name t
  /\ tag_tagCode n = tag_tagCode t /\ tag_revisionId n = tag_revisionId t
  /\ tag_type n = tag_type t /\ tag_width n = tag_width t
  /\ tag_height n = tag_height t /\ tag_autoLoad n = tag_autoLoad t
  /\ tag_isActive n = tag_isActive t.
Proof.
  unfold duplicateTag_inner. unfold bind at 1, findByIdThrows at 1.
  destruct (collection s !! tag_revisionId t) as [rev|]; [|done].
  unfold bind at 1.
  destruct (createNewModelBranchFromModel me t s) as [s1 [n0|e]] eqn:Hbranch; [|done].
  apply createNewModelBranchFromModel_copy in Hbranch.
  unfold bind at 1. rewrite save_run. case_decide; [done|]. by intros [= _ <-].
Qed.

(** A successful [duplicateTag], read backwards. *)
Lemma duplicateTag_ok_copy ctx data s s' g :
  duplicateTag ctx data s = (s', Ok g) ->
  exists tid t n,
    ObjectId_new (td_tag_id data) = Some tid
    /\ tags s !! tid = Some t
    /\ tags s' !! tid = Some t
    /\ tags s !! tag_id n = None
    /\ tags s' !! tag_id n = Some n
    /\ g = toGQLType n
    /\ tag_name n = td_name data
    /\ tag_orgId n = tag_orgId t /\ tag_tagCode n = tag_tagCode t
    /\ tag_revisionId n = tag_revisionId t /\ tag_type n = tag_type t
    /\ tag_width n = tag_width t /\ tag_height n = tag_height t
    /\ tag_autoLoad n = tag_autoLoad t /\ tag_isActive n = tag_isActive t.
Proof.
  rewrite duplicateTag_eq. unfold resolveTag.
  destruct (ObjectId_new (td_tag_id data)) as [tid|]; [|done].
  destruct (tags s !! tid) as [t|] eqn:Ht; [|done].
  destruct (ctx_user ctx) as [me|]; [|done].
  destruct (ctx_access ctx (tag_orgId t) CreateAccess); [|done].
  unfold bind at 1.
  destruct (duplicateTag_inner me t s) as [s1 [n|e]] eqn:Hinner; [|done].
  pose proof Hinner as Hcopy.
  apply duplicateTag_inner_copy in Hcopy
    as (Horg & _ & Hcode & Hrev & Hty & Hw & Hh & Hal & Hact).
  apply duplicateTag_inner_inv in Hinner
    as [(rev & _ & Hfresh & Hts & _) _].
  unfold bind. rewrite save_run.
  destruct (decide (writesLeft s1 = Some O)); [done|].
  intros [= <- <-]. simpl. rewrite Hts, insert_insert_eq.
  exists tid, t, (setName (td_name data) n).
  split; [done|]. split; [done|]. split.
  { rewrite lookup_insert_ne; [done|]. intros E. by rewrite E, Ht in Hfresh. }
  split; [done|]. simpl. rewrite lookup_insert_eq. done.
Qed.

(** X8: the tag [duplicateTag] answers with is its source under an
    identifier no tag had and under the requested name: type, size,
    auto-load, active flag, lineage code and revision are the source's.
    The duplicate is stored as answered, and the source is stored as it
    was. *)
Theorem duplicate_is_a_renamed_copy ctx data s s' g :
  duplicateTag ctx data s = (s', Ok g) ->
  exists tid t n,
    ObjectId_new (td_tag_id data) = Some tid
    /\ tags s !! tid = Some t
    /\ tags s' !! tid = Some t
    /\ tags s !! tag_id n = None
    /\ tags s' !! tag_id n = Some n
    /\ g = toGQLType n
    /\ gql_name g = td_name data
    /\ gql_tag_code g = tag_tagCode t
    /\ gql_revision_id g = toString (tag_revisionId t)
    /\ gql_type g = tag_type t
    /\ gql_width g = tag_width t
    /\ gql_height g = tag_height t
    /\ gql_auto_load g = tag_autoLoad t
    /\ gql_is_active g = tag_isActive t
    /\ tag_orgId n = tag_orgId t.
Proof.
  intros (tid & t & n & Hid & Ht & Ht' & Hfresh & Hn & -> & Hname & Horg & Hcode
          & Hrev & Hty & Hw & Hh & Hal & Hact)%duplicateTag_ok_copy.
  exists tid, t, n. simpl. rewrite Hrev. done.
Qed.

Lemma getTag_stored ctx s n :
  tags s !! tag_id n = Some n ->
  hasAccess ctx (tag_orgId n) ViewAccess = true ->
  getTag ctx (toString (tag_id n)) s = (s, Ok (toGQLType n)).
Proof.
  intros Hn Hacc. rewrite getTag_eq. unfold resolveTag.
  by rewrite ObjectId_new_toString, Hn, Hacc.
Qed.

(** X9: what [createTag] and [duplicateTag] answer with can be read
    back: the created tag has the requested name, type and auto-load
    flag and no rule group, and for both mutations [getTag] on the
    returned identifier, by any caller with view access on the
    organisation, answers with the very same tag and writes nothing. *)
Theorem new_tag_can_be_read_back ctx s s' g :
  (forall data,
     createTag ctx data s = (s', Ok g) ->
     exists r,
       resolveRevision (tc_revision_id data) s = Ok r
       /\ gql_name g = tc_name data
       /\ gql_type g = tc_type data
       /\ gql_auto_load g = tc_auto_load data
       /\ gql_rule_group_ids g = []
       /\ forall ctx', hasAccess ctx' (rev_orgId r) ViewAccess = true ->
            getTag ctx' (gql_id g) s' = (s', Ok g))
  /\ (forall data,
        duplicateTag ctx data s = (s', Ok g) ->
        exists t,
          resolveTag (td_tag_id data) s = Ok t
          /\ forall ctx', hasAccess ctx' (tag_orgId t) ViewAccess = true ->
               getTag ctx' (gql_id g) s' = (s', Ok g)).
Proof.
  split.
  - intros data. rewrite createTag_eq.
    destruct (resolveRevision (tc_revision_id data) s) as [r|]; [|done].
    destruct (ctx_user ctx) as [me|]; [|done].
    destruct (ctx_access ctx (rev_orgId r) CreateAccess); [|done].
    destruct (_ && _); [done|].
    unfold bind.
    match goal with
    | |- context [createTagSkeleton ?a1 ?a2 ?a3 ?a4 ?a5 ?a6 ?a7 ?a8 ?s0] =>
        destruct (createTagSkeleton a1 a2 a3 a4 a5 a6 a7 a8 s0)
          as [s1 [n|err]] eqn:Hskel
    end; [|done].
    apply createTagSkeleton_inv in Hskel as (_ & Hok & _).
    destruct (Hok n eq_refl) as (_ & Hts & _ & _ & Horg & Hname & Hty & Hrg & Hal).
    intros [= <- <-]. exists r. split; [done|]. simpl.
    rewrite Hrg. repeat (split; [done|]).
    intros ctx' Hacc. apply getTag_stored; [|by rewrite Horg].
    rewrite Hts. apply lookup_insert_eq.
  - intros data Hrun.
    apply duplicateTag_ok_copy in Hrun
      as (tid & t & n & Hid & Ht & _ & _ & Hn & -> & _ & Horg & _).
    exists t. split; [unfold resolveTag; by rewrite Hid, Ht|].
    intros ctx' Hacc. apply getTag_stored; [done|by rewrite Horg].
Qed.

(** X10: after a successful [updateTag], [getTag] on the same identifier
    shows the update to every caller with view access: the five
    properties have the value of the payload where it carried the key
    and the former value where it did not, and lineage code, revision,
    type and rule groups are the former ones. *)
Theorem updated_tag_is_read_back ctx data s s' b :
  filedById (T:=Tag) s ->
  updateTag ctx data s = (s', Ok b) ->
  exists t,
    resolveTag (tu_tag_id data) s = Ok t
    /\ forall ctx', hasAccess ctx' (tag_orgId t) ViewAccess = true ->
         exists g,
           getTag ctx' (tu_tag_id data) s' = (s', Ok g)
           /\ gql_name g = default (tag_name t) (tu_name data)
           /\ gql_is_active g = default (tag_isActive t) (tu_is_active data)
           /\ gql_width g = default (tag_width t) (tu_width data)
           /\ gql_height g = default (tag_height t) (tu_height data)
           /\ gql_auto_load g = default (tag_autoLoad t) (tu_auto_load data)
           /\ gql_id g = toString (tag_id t)
           /\ gql_tag_code g = tag_tagCode t
           /\ gql_revision_id g = toString (tag_revisionId t)
           /\ gql_type g = tag_type t
           /\ gql_rule_group_ids g = map toString (tag_ruleGroupIds t).
Proof.
  intros Hfiled (t & me & Ht & _ & _ & _ & _ & _ & ->)%updateTag_ok_inv.
  destruct (resolveTag_filed _ _ _ Hfiled Ht) as [Hparse Hkey].
  exists t. split; [done|]. intros ctx' Hacc.
  exists (toGQLType (bulkGQLSet data updateTagKeys t)). split.
  - rewrite getTag_eq. unfold resolveTag. rewrite Hparse. simpl.
    rewrite lookup_insert_eq.
    replace (tag_orgId (bulkGQLSet data updateTagKeys t)) with (tag_orgId t) by done.
    by rewrite Hacc.
  - by rewrite bulkGQLSet_updateTagKeys.
Qed.

(** ** What a delete removes *)

(** Deleting rule groups one after the other removes each of them and
    no other. *)
Lemma mapM_deleteModel_ok (me : User) (gs : list RuleGroup) s s' us :
  mapM (fun g => deleteModel g me) gs s = (s', Ok us) ->
  forall i, ruleGroups s' !! i =
              if bool_decide (i ∈ map rg_id gs) then None else ruleGroups s !! i.
Proof.
  revert s s' us. induction gs as [|g gs IH]; intros s s' us; simpl.
  - by intros [= <- _] i.
  - unfold bind at 1. rewrite deleteModel_run. case_decide as Hw; [done|].
    unfold bind at 1.
    match goal with
    | |- context [mapM ?f ?l ?s0] => destruct (mapM f l s0) as [s2 [us2|e]] eqn:Hrest
    end; [|done].
    intros [= <- _] i. rewrite (IH _ _ _ Hrest i). simpl.
    destruct (decide (i = rg_id g)) as [->|Hne].
    + rewrite lookup_delete_eq. rewrite (bool_decide_true (rg_id g ∈ rg_id g :: _));
        [by case_bool_decide|]. apply elem_of_cons. by left.
    + rewrite lookup_delete_ne by done.
      destruct (decide (i ∈ map rg_id gs)) as [Hin|Hnin].
      * rewrite !bool_decide_true; [done| |done]. apply elem_of_cons. by right.
      * rewrite !bool_decide_false; [done| |done].
        intros [?|?]%elem_of_cons; done.
Qed.

(** A cascade that went through has removed the tag and the rule groups
    it lists, and has left the revisions alone. *)
Lemma deleteModelCascading_ok me t s s' acks :
  deleteModelCascading me t false s = (s', Ok acks) ->
  tags s' = delete (tag_id t) (tags s)
  /\ revisions s' = revisions s
  /\ forall i, ruleGroups s' !! i =
       if bool_decide (i ∈ map rg_id (ruleGroupsOf t s)) then None
       else ruleGroups s !! i.
Proof.
  unfold deleteModelCascading.
  erewrite bind_ok; [|reflexivity].
  unfold bind at 1 2. rewrite deleteModel_run. case_decide as Hw; [done|].
  unfold bind at 1.
  match goal with
  | |- context [mapM ?f ?l ?s0] => destruct (mapM f l s0) as [s2 [us|e]] eqn:Hrest
  end; [|done].
  intros [= <- _]. pose proof Hrest as Hrest'.
  apply mapM_deleteModel_inv in Hrest as (Ht & Hr & _).
  split; [done|]. split; [done|].
  intros i. by rewrite (mapM_deleteModel_ok _ _ _ _ _ Hrest' i).
Qed.

Lemma ruleGroupsOf_ids (t : Tag) s i :
  filedById (T:=RuleGroup) s ->
  i ∈ map rg_id (ruleGroupsOf t s) <->
  i ∈ tag_ruleGroupIds t /\ is_Some (ruleGroups s !! i).
Proof.
  intros Hfiled. unfold ruleGroupsOf. split.
  - intros (g & -> & (j & Hj & Hg)%list_elem_of_omap)%list_elem_of_fmap.
    pose proof (Hfiled _ _ Hg) as Hkey. simpl in Hkey. subst j.
    rewrite elem_of_remove_dups in Hj. eauto.
  - intros [Hi [g Hg]]. apply list_elem_of_fmap. exists g.
    pose proof (Hfiled _ _ Hg) as Hkey. simpl in Hkey. split; [done|].
    apply list_elem_of_omap. exists i. split; [|done].
    by rewrite elem_of_remove_dups.
Qed.

(** X11: a non-preview [deleteTag] that succeeds removes the tag and the
    rule groups it lists, and no other tag or rule group: afterwards
    [getTag] on the identifier fails with the tag's not-found error for
    every caller, every other tag is stored as before, and a rule group
    is gone exactly if the tag listed it. *)
Theorem deleted_tag_is_gone ctx data s s' acks :
  filedById (T:=Tag) s ->
  filedById (T:=RuleGroup) s ->
  tx_preview data = false ->
  deleteTag ctx data s = (s', Ok acks) ->
  exists t,
    resolveTag (tx_tag_id data) s = Ok t
    /\ tags s' = delete (tag_id t) (tags s)
    /\ (forall i, ruleGroups s' !! i =
          if bool_decide (i ∈ tag_ruleGroupIds t) then None else ruleGroups s !! i)
    /\ forall ctx', getTag ctx' (tx_tag_id data) s' = (s', Throw (NotFound tagFailed)).
Proof.
  intros Hfiled Hfiledg Hp. rewrite deleteTag_eq.
  destruct (resolveTag (tx_tag_id data) s) as [t|] eqn:Ht; [|done].
  destruct (resolveTag_filed _ _ _ Hfiled Ht) as [Hparse Hkey].
  destruct (ctx_user ctx) as [me|]; [|done].
  destruct (ctx_access ctx (tag_orgId t) DeleteAccess); [|done].
  rewrite Hp.
  destruct (revisions s !! tag_revisionId t) as [rev|]; [|done].
  case_decide; [done|].
  intros (Hts & _ & Hgs)%deleteModelCascading_ok.
  exists t. split; [done|]. split; [done|]. split.
  - intros i. rewrite Hgs. simpl.
    change (ruleGroupsOf t (unlinked me data t rev s)) with (ruleGroupsOf t s).
    destruct (decide (i ∈ tag_ruleGroupIds t)) as [Hi|Hi].
    + rewrite (bool_decide_true (i ∈ tag_ruleGroupIds t)) by done.
      case_bool_decide as Hin; [done|].
      destruct (ruleGroups s !! i) as [g|] eqn:Hg; [|done].
      destruct Hin. apply ruleGroupsOf_ids; eauto.
    + rewrite (bool_decide_false (i ∈ tag_ruleGroupIds t)) by done.
      rewrite bool_decide_false; [done|].
      by intros [? _]%ruleGroupsOf_ids.
  - intros ctx'. rewrite getTag_eq. unfold resolveTag.
    by rewrite Hparse, Hts, lookup_delete_eq.
Qed.

(** X12: [deleteTag] is not all-or-nothing.  When the store takes one
    more write and no further, the unlink goes through and the cascade
    fails on its first deletion: the request fails with the persistence
    error, the tag and its rule groups are all still stored, but its
    revision no longer lists it. *)
Theorem deleteTag_one_write_left ctx data s t me rev :
  resolveTag (tx_tag_id data) s = Ok t ->
  ctx_user ctx = Some me ->
  ctx_access ctx (tag_orgId t) DeleteAccess = true ->
  tx_preview data = false ->
  revisions s !! tag_revisionId t = Some rev ->
  writesLeft s = Some 1%nat ->
  deleteTag ctx data s = (unlinked me data t rev s, Throw PersistenceFailure)
  /\ tags (unlinked me data t rev s) = tags s
  /\ ruleGroups (unlinked me data t rev s) = ruleGroups s
  /\ exists rev',
       revisions (unlinked me data t rev s) !! rev_id rev = Some rev'
       /\ (tag_id t ∉ rev_tagIds rev').
Proof.
  intros Ht Hme Hacc Hp Hrev Hw.
  rewrite deleteTag_eq, Ht, Hme, Hacc, Hp, Hrev.
  destruct (decide (writesLeft s = Some O)) as [Hz|_]; [congruence|].
  split.
  - unfold deleteModelCascading. erewrite bind_ok; [|reflexivity].
    unfold bind at 1 2. rewrite deleteModel_run. simpl. by rewrite Hw.
  - split; [done|]. split; [done|]. eexists. simpl. rewrite lookup_insert_eq.
    split; [done|]. apply without_absent.
Qed.

(** ** The custom resolvers *)

Lemma Tag_rule_groups_eq ctx parent s :
  Tag_rule_groups ctx parent s =
  match resolveTag (gql_id parent) s with
  | Throw e => (s, Throw e)
  | Ok t =>
      if hasAccess ctx (tag_orgId t) ViewAccess then (s, Ok (ruleGroupsOf t s))
      else (s, Throw AuthorizationDenied)
  end.
Proof.
  unfold Tag_rule_groups, asUserWithViewAccess. rewrite tagRequest_run.
  unfold hasAccess. destruct (resolveTag (gql_id parent) s) as [t|]; [|done].
  by destruct (ctx_user ctx).
Qed.

Lemma Tag_revision_eq ctx parent s :
  Tag_revision ctx parent s =
  match resolveRevision (gql_revision_id parent) s with
  | Throw e => (s, Throw e)
  | Ok r =>
      if hasAccess ctx (rev_orgId r) ViewAccess then (s, Ok r)
      else (s, Throw AuthorizationDenied)
  end.
Proof.
  unfold Tag_revision, asUserWithViewAccess. rewrite revisionRequest_run.
  unfold hasAccess. destruct (resolveRevision (gql_revision_id parent) s) as [r|]; [|done].
  by destruct (ctx_user ctx).
Qed.

Lemma ruleGroupsOf_members (t : Tag) s g :
  g ∈ ruleGroupsOf t s <->
  exists i, i ∈ tag_ruleGroupIds t /\ ruleGroups s !! i = Some g.
Proof.
  unfold ruleGroupsOf. rewrite list_elem_of_omap.
  split; intros (i & Hi & Hg); exists i; by rewrite elem_of_remove_dups in *.
Qed.

(** X13: the field [rule_groups] is answered from the stored tag, not
    from the parent object.  The resolver uses the parent for its
    identifier only: two parents with the same [id] get the same outcome,
    whatever rule groups they list.  When [parent.id] is malformed or
    names no stored tag the resolver fails with the error of the look-up,
    for every caller; when the caller has no view access on the
    organisation of the stored tag it fails with the denial; in both
    cases the store is left as it was.  Otherwise its outcome is that of
    [findByIds] on the list of the stored tag. *)
Theorem Tag_rule_groups_reads_stored_tag ctx parent s :
  (forall parent',
     gql_id parent' = gql_id parent ->
     Tag_rule_groups ctx parent' s = Tag_rule_groups ctx parent s)
  /\ (forall e,
        resolveTag (gql_id parent) s = Throw e ->
        Tag_rule_groups ctx parent s = (s, Throw e))
  /\ (forall t,
        resolveTag (gql_id parent) s = Ok t ->
        hasAccess ctx (tag_orgId t) ViewAccess = false ->
        Tag_rule_groups ctx parent s = (s, Throw AuthorizationDenied))
  /\ (forall t,
        resolveTag (gql_id parent) s = Ok t ->
        hasAccess ctx (tag_orgId t) ViewAccess = true ->
        Tag_rule_groups ctx parent s
        = findByIds (T:=RuleGroup) (tag_ruleGroupIds t) s).
Proof.
  split; [|split; [|split]].
  - intros parent' Hid. by rewrite !Tag_rule_groups_eq, Hid.
  - intros e He. by rewrite Tag_rule_groups_eq, He.
  - intros t Ht Hacc. by rewrite Tag_rule_groups_eq, Ht, Hacc.
  - intros t Ht Hacc. by rewrite Tag_rule_groups_eq, Ht, Hacc.
Qed.

(** X14: reordering does not change which rule groups the field
    [rule_groups] resolves to: for a tag that lists no rule group twice,
    the resolver answers after a successful [updateRuleGroupsOrder] with
    the same rule groups as before it. *)
Theorem reorder_keeps_resolved_rule_groups ctx data s s' b t :
  filedById (T:=Tag) s ->
  resolveTag (ro_tag_id data) s = Ok t ->
  NoDup (tag_ruleGroupIds t) ->
  updateRuleGroupsOrder ctx data s = (s', Ok b) ->
  forall ctx' parent,
    gql_id parent = ro_tag_id data ->
    hasAccess ctx' (tag_orgId t) ViewAccess = true ->
    exists gs gs',
      Tag_rule_groups ctx' parent s = (s, Ok gs)
      /\ Tag_rule_groups ctx' parent s' = (s', Ok gs')
      /\ forall g, g ∈ gs' <-> g ∈ gs.
Proof.
  intros Hfiled Ht Hnd Hrun ctx' parent Hid Hacc.
  destruct (resolveTag_filed _ _ _ Hfiled Ht) as [Hparse Hkey].
  pose proof Hrun as Hkeep.
  apply updateRuleGroupsOrder_ok_members in Hkeep
    as (t0 & ids & Ht0 & Htags & Hrg & _ & _ & Hsame).
  rewrite Ht in Ht0. injection Ht0 as <-.
  destruct (Hsame Hnd) as [_ Hiff].
  exists (ruleGroupsOf t s), (ruleGroupsOf (setRuleGroupIds ids t) s').
  split; [by rewrite Tag_rule_groups_eq, Hid, Ht, Hacc|]. split.
  - rewrite Tag_rule_groups_eq, Hid. unfold resolveTag.
    rewrite Hparse, Htags, lookup_insert_eq. simpl. by rewrite Hacc.
  - intros g. rewrite !ruleGroupsOf_members. simpl. rewrite Hrg.
    split; intros (i & Hi & Hg); exists i; (split; [by apply Hiff|done]).
Qed.

(** X15: the field [revision] of the tag that [createTag] or
    [duplicateTag] answered with resolves, for a caller with view access
    on the organisation of the revision, to the revision the tag was
    made in; that revision lists what it listed before, in the same
    order, followed by the identifier of the new tag. *)
Theorem revision_field_of_new_tag ctx s s' g :
  filedById (T:=Revision) s ->
  (forall data,
     createTag ctx data s = (s', Ok g) ->
     exists r i,
       resolveRevision (tc_revision_id data) s = Ok r
       /\ ObjectId_new (gql_id g) = Some i
       /\ forall ctx', hasAccess ctx' (rev_orgId r) ViewAccess = true ->
            Tag_revision ctx' g s' = (s', Ok (setTagIds (rev_tagIds r ++ [i]) r)))
  /\ (forall data,
        duplicateTag ctx data s = (s', Ok g) ->
        exists t r i,
          resolveTag (td_tag_id data) s = Ok t
          /\ revisions s !! tag_revisionId t = Some r
          /\ ObjectId_new (gql_id g) = Some i
          /\ forall ctx', hasAccess ctx' (rev_orgId r) ViewAccess = true ->
               Tag_revision ctx' g s' = (s', Ok (setTagIds (rev_tagIds r ++ [i]) r))).
Proof.
  intros Hfiled. split.
  - intros data Hrun. apply createTag_inv in Hrun as [_ Hok].
    destruct (Hok g eq_refl)
      as (rid & r & n & Hid & Hr & _ & -> & _ & _ & Hrevs & Hrid & _).
    pose proof (Hfiled _ _ Hr) as Hkey. simpl in Hkey.
    exists r, (tag_id n). split; [unfold resolveRevision; by rewrite Hid, Hr|].
    split; [apply ObjectId_new_toString|]. intros ctx' Hacc.
    rewrite Tag_revision_eq. simpl. unfold resolveRevision.
    rewrite ObjectId_new_toString, Hrevs, Hrid, lookup_insert_eq. simpl.
    by rewrite Hacc.
  - intros data Hrun. apply duplicateTag_inv in Hrun as [_ Hok].
    destruct (Hok g eq_refl)
      as (tid & t & r & n & Hid & Ht & _ & Hr & _ & _ & Hrid & -> & _ & Hrevs).
    pose proof (Hfiled _ _ Hr) as Hkey. simpl in Hkey.
    exists t, r, (tag_id n). split; [unfold resolveTag; by rewrite Hid, Ht|].
    split; [done|]. split; [apply ObjectId_new_toString|]. intros ctx' Hacc.
    rewrite Tag_revision_eq. simpl. unfold resolveRevision.
    rewrite ObjectId_new_toString, Hrevs, Hrid, <- Hkey, lookup_insert_eq. simpl.
    by rewrite Hacc.
Qed.

(** ** Invariants of the store *)

Lemma hoare_ret {A} (P : Store -> Prop) (a : A) (Q : A -> Store -> Prop) E :
  (forall s, P s -> Q a s) -> hoare P (ret a) Q E.
Proof. intros HQ s HP. by apply HQ. Qed.

Lemma hoare_throw {A} (P : Store -> Prop) e (Q : A -> Store -> Prop) (E : Store -> Prop) :
  (forall s, P s -> E s) -> hoare P (throw e) Q E.
Proof. intros HE s HP. by apply HE. Qed.

Lemma hoare_bind {A B} P (m : M A) Q (k : A -> M B) R E :
  hoare P m Q E -> (forall a, hoare (Q a) (k a) R E) -> hoare P (bind m k) R E.
Proof.
  intros Hm Hk s HP. unfold bind. specialize (Hm s HP).
  destruct (m s) as [s1 [a|e]]; [apply (Hk a s1 Hm) | done].
Qed.

Lemma hoare_weaken {A} (P P' : Store -> Prop) (m : M A) (Q Q' : A -> Store -> Prop)
    (E E' : Store -> Prop) :
  hoare P m Q E ->
  (forall s, P' s -> P s) -> (forall a s, Q a s -> Q' a s) -> (forall s, E s -> E' s) ->
  hoare P' m Q' E'.
Proof.
  intros Hm HP HQ HE s HP'. specialize (Hm s (HP s HP')).
  destruct (m s) as [s1 [a|e]]; auto.
Qed.

Lemma hoare_newObjectId P str : hoare P (newObjectId str) (fun _ => P) P.
Proof. intros s HP. rewrite newObjectId_run. by destruct (ObjectId_new str). Qed.

Lemma hoare_findByIdThrows {T} {R : Repo T} P id msg :
  hoare P (findByIdThrows (T:=T) id msg)
    (fun x s => P s /\ collection s !! id = Some x) P.
Proof.
  intros s HP. unfold findByIdThrows.
  by destruct (collection s !! id) as [x|] eqn:Hx.
Qed.

Lemma hoare_findByIds {T} {R : Repo T} P ids :
  hoare P (findByIds (T:=T) ids) (fun _ => P) P.
Proof. by intros s HP. Qed.

Lemma hoare_generateObjectId P : hoare P generateObjectId (fun _ => P) P.
Proof. by intros s HP. Qed.

Lemma hoare_access {A} P cap ctx org (k : User -> M A) Q (E : Store -> Prop) :
  (forall me, hoare P (k me) Q E) -> (forall s, P s -> E s) ->
  hoare P (asUserWithAccess cap ctx org k) Q E.
Proof.
  intros Hk HE s HP. unfold asUserWithAccess.
  destruct (ctx_user ctx) as [me|]; [|by apply HE].
  destruct (ctx_access ctx org cap); [by apply Hk | by apply HE].
Qed.

Lemma hoare_save {T} {R : Repo T} (P : Store -> Prop) (x : T) actor owner meta
    (Q : T -> Store -> Prop) (E : Store -> Prop) :
  (forall s, P s ->
     Q x (written (Saved (as_model x) actor owner meta)
            (with_collection (<[model_id x := x]> (collection s)) s))) ->
  (forall s, P s -> E s) ->
  hoare P (save x actor owner meta) Q E.
Proof.
  intros HQ HE s HP. rewrite save_run. case_decide; [by apply HE | by apply HQ].
Qed.

Lemma hoare_deleteModel {T} {R : Repo T} (P : Store -> Prop) (x : T) actor
    (Q : unit -> Store -> Prop) (E : Store -> Prop) :
  (forall s, P s ->
     Q tt (written (Deleted (as_model x) actor)
             (with_collection (delete (model_id x) (collection s)) s))) ->
  (forall s, P s -> E s) ->
  hoare P (deleteModel x actor) Q E.
Proof.
  intros HQ HE s HP. rewrite deleteModel_run.
  case_decide; [by apply HE | by apply HQ].
Qed.

Lemma hoare_mapM {A B} (I : Store -> Prop) (f : A -> M B) l :
  (forall a, hoare I (f a) (fun _ => I) I) -> hoare I (mapM f l) (fun _ => I) I.
Proof.
  intros Hf. induction l as [|a l IH]; simpl.
  - by apply hoare_ret.
  - eapply hoare_bind; [apply Hf|]. intros b.
    eapply hoare_bind; [apply IH|]. intros bs. by apply hoare_ret.
Qed.

(** An invariant [I] of the store, with the property [G] it asks of
    every tag, is kept by every mutation as soon as it is kept by the
    writes of the persistence layer and [G] is kept by what the resolvers
    do to a tag. *)
Section Invariant.
Variable I : Store -> Prop.
Variable G : Tag -> Prop.
Hypothesis I_tag : forall s k t, I s -> tags s !! k = Some t -> G t.
Hypothesis I_save_tag : forall s (x : Tag) w, I s -> G x ->
  I (written w (with_collection (<[tag_id x := x]> (tags s)) s)).
Hypothesis I_save_revision : forall s (r : Revision) w, I s ->
  I (written w (with_collection (<[rev_id r := r]> (revisions s)) s)).
Hypothesis I_save_ruleGroup : forall s (g : RuleGroup) w, I s ->
  I (written w (with_collection (<[rg_id g := g]> (ruleGroups s)) s)).
Hypothesis I_delete_tag : forall s (k : ObjectId) w, I s ->
  I (written w (with_collection (delete k (tags s)) s)).
Hypothesis I_delete_ruleGroup : forall s (k : ObjectId) w, I s ->
  I (written w (with_collection (delete k (ruleGroups s)) s)).
Hypothesis G_like : forall t t',
  tag_type t' = tag_type t -> tag_autoLoad t' = tag_autoLoad t -> G t -> G t'.
Hypothesis G_update : forall t data,
  G t ->
  bool_decide (tag_type t = PLACEMENT) && bool_decide (tu_auto_load data = Some true)
    = false ->
  G (bulkGQLSet data updateTagKeys t).
Hypothesis G_new : forall t, ~ autoLoadOnPlacement t -> G t.

Lemma inv_tagRequest {A} str cap ctx (k : Tag -> User -> M A) :
  (forall t me, G t -> hoare I (k t me) (fun _ => I) I) ->
  hoare I (let* tagId := newObjectId str in
           let* t := findByIdThrows (T:=Tag) tagId tagFailed in
           asUserWithAccess cap ctx (tag_orgId t) (k t)) (fun _ => I) I.
Proof.
  intros Hk. eapply hoare_bind; [apply hoare_newObjectId|]. intros tid.
  eapply hoare_bind; [apply hoare_findByIdThrows|]. intros t s [HI Ht].
  simpl in Ht. apply (hoare_access I); [|done|done].
  intros me. apply Hk. by apply (I_tag s tid).
Qed.

Lemma inv_updateRuleGroupsOrder ctx data :
  hoare I (updateRuleGroupsOrder ctx data) (fun _ => I) I.
Proof.
  apply inv_tagRequest. intros t me Ht.
  destruct (reorderAccepted t (ro_new_order data)); [|by apply hoare_throw].
  destruct (newObjectIds (ro_new_order data)) as [ids|]; [|by apply hoare_throw].
  eapply hoare_bind; [apply hoare_findByIds|]. intros groups.
  eapply hoare_bind with (Q := fun _ => I); [|intros; by apply hoare_ret].
  apply hoare_save; [|done]. intros s HI. apply I_save_tag; [done|].
  by apply (G_like t).
Qed.

Lemma inv_updateTag ctx data : hoare I (updateTag ctx data) (fun _ => I) I.
Proof.
  apply inv_tagRequest. intros t me Ht.
  destruct (_ && _) eqn:Hval; [by apply hoare_throw|].
  eapply hoare_bind with (Q := fun _ => I); [|intros; by apply hoare_ret].
  apply hoare_save; [|done]. intros s HI. apply (I_save_tag s (bulkGQLSet _ _ t)); [done|].
  by apply G_update.
Qed.

Lemma inv_deleteModelCascading me t preview :
  hoare I (deleteModelCascading me t preview) (fun _ => I) I.
Proof.
  unfold deleteModelCascading.
  eapply hoare_bind; [apply hoare_findByIds|]. intros groups.
  eapply hoare_bind with (Q := fun _ => I); [|intros; by apply hoare_ret].
  destruct preview; [by apply hoare_ret|].
  eapply hoare_bind.
  { apply (hoare_deleteModel I t me (fun _ => I) I); [|done].
    intros s HI. by apply I_delete_tag. }
  intros []. eapply hoare_bind with (Q := fun _ => I); [|intros; by apply hoare_ret].
  apply hoare_mapM. intros g.
  apply (hoare_deleteModel I g me (fun _ => I) I); [|done].
  intros s HI. by apply I_delete_ruleGroup.
Qed.

Lemma inv_deleteTag ctx data : hoare I (deleteTag ctx data) (fun _ => I) I.
Proof.
  apply inv_tagRequest. intros t me Ht.
  eapply hoare_bind with (Q := fun _ => I); [|intros; apply inv_deleteModelCascading].
  destruct (negb _); [|by apply hoare_ret].
  eapply hoare_bind; [apply hoare_findByIdThrows|]. intros rev.
  eapply hoare_bind with (Q := fun _ => I); [|intros; by apply hoare_ret].
  apply hoare_save; [|by intros s [HI _]].
  intros s [HI _]. by apply (I_save_revision s (setTagIds _ rev)).
Qed.

Lemma inv_cloneRuleGroup me g : hoare I (cloneRuleGroup me g) (fun _ => I) I.
Proof.
  unfold cloneRuleGroup.
  eapply hoare_bind; [apply hoare_generateObjectId|]. intros i.
  apply hoare_save; [|done]. intros s HI.
  by apply (I_save_ruleGroup s {| rg_id := i; rg_name := rg_name g |}).
Qed.

Lemma inv_createNewModelBranchFromModel me t :
  G t ->
  hoare I (createNewModelBranchFromModel me t) (fun n s => I s /\ G n) I.
Proof.
  intros Ht. unfold createNewModelBranchFromModel.
  eapply hoare_bind; [apply hoare_findByIds|]. intros groups.
  eapply hoare_bind; [apply hoare_mapM; intros g; apply inv_cloneRuleGroup|].
  intros copies.
  eapply hoare_bind; [apply hoare_generateObjectId|]. intros i.
  apply hoare_save; [|done]. intros s HI.
  assert (Hn : G {| tag_id := i; tag_orgId := tag_orgId t; tag_name := tag_name t;
                    tag_tagCode := tag_tagCode t; tag_revisionId := tag_revisionId t;
                    tag_type := tag_type t; tag_ruleGroupIds := map rg_id copies;
                    tag_width := tag_width t; tag_height := tag_height t;
                    tag_autoLoad := tag_autoLoad t; tag_isActive := tag_isActive t |})
    by (by apply (G_like t)).
  split; [|done]. by apply (I_save_tag s _ _ HI Hn).
Qed.

Lemma inv_duplicateTag ctx data : hoare I (duplicateTag ctx data) (fun _ => I) I.
Proof.
  apply inv_tagRequest. intros t me Ht.
  eapply hoare_bind with (Q := fun n s => I s /\ G n).
  - unfold duplicateTag_inner.
    eapply hoare_bind; [apply hoare_findByIdThrows|]. intros rev.
    eapply hoare_bind.
    { eapply hoare_weaken; [by apply (inv_createNewModelBranchFromModel me t)|..].
      - by intros s [HI _].
      - intros n s Hn. exact Hn.
      - done. }
    intros n.
    eapply hoare_bind with (Q := fun _ s => I s /\ G n); [|intros; by apply hoare_ret].
    apply hoare_save; [|by intros s [HI _]].
    intros s [HI Hn]. split; [|done].
    by apply (I_save_revision s (setTagIds _ rev)).
  - intros n. eapply hoare_bind with (Q := fun _ => I); [|intros; by apply hoare_ret].
    apply hoare_save; [|by intros s [HI _]].
    intros s [HI Hn]. apply (I_save_tag s (setName _ n)); [done|].
    by apply (G_like n).
Qed.

Lemma inv_createTagSkeleton me rev name type width height autoLoad comments :
  ~ (type = PLACEMENT /\ autoLoad = true) ->
  hoare I (createTagSkeleton me rev name type width height autoLoad comments)
    (fun _ => I) I.
Proof.
  intros Hval. unfold createTagSkeleton.
  eapply hoare_bind; [apply hoare_generateObjectId|]. intros i.
  eapply hoare_bind with (Q := fun _ => I).
  - apply hoare_save; [|done]. intros s HI.
    match goal with
    | |- I (written _ (with_collection (<[_ := ?x]> _) _)) =>
        apply (I_save_tag s x); [done|]
    end.
    by apply G_new.
  - intros t. eapply hoare_bind with (Q := fun _ => I); [|intros; by apply hoare_ret].
    apply hoare_save; [|done]. intros s HI.
    by apply (I_save_revision s (setTagIds _ rev)).
Qed.

Lemma inv_createTag ctx data : hoare I (createTag ctx data) (fun _ => I) I.
Proof.
  unfold createTag.
  eapply hoare_bind; [apply hoare_newObjectId|]. intros rid.
  eapply hoare_bind; [apply hoare_findByIdThrows|]. intros rev.
  apply hoare_access; [|by intros s [HI _]]. intros me.
  destruct (bool_decide (tc_type data = PLACEMENT) && Bool.eqb (tc_auto_load data) true)
    eqn:Hval; [apply hoare_throw; by intros s [HI _]|].
  eapply hoare_bind with (Q := fun _ => I); [|intros; by apply hoare_ret].
  eapply hoare_weaken; [apply inv_createTagSkeleton|by intros s [HI _]|done|done].
  intros [Hp Ha]. by rewrite Hp, Ha, bool_decide_true in Hval.
Qed.

Lemma inv_storeAfter ctx m s : I s -> I (storeAfter ctx m s).
Proof.
  intros HI. destruct m as [data|data|data|data|data]; simpl.
  - pose proof (inv_updateRuleGroupsOrder ctx data s HI) as Hs.
    by destruct (updateRuleGroupsOrder ctx data s) as [s' [a|e]].
  - pose proof (inv_deleteTag ctx data s HI) as Hs.
    by destruct (deleteTag ctx data s) as [s' [a|e]].
  - pose proof (inv_updateTag ctx data s HI) as Hs.
    by destruct (updateTag ctx data s) as [s' [a|e]].
  - pose proof (inv_duplicateTag ctx data s HI) as Hs.
    by destruct (duplicateTag ctx data s) as [s' [a|e]].
  - pose proof (inv_createTag ctx data s HI) as Hs.
    by destruct (createTag ctx data s) as [s' [a|e]].
Qed.

Lemma inv_storeAfterAll ms s : I s -> I (storeAfterAll ms s).
Proof.
  unfold storeAfterAll. revert s.
  induction ms as [|[ctx m] ms IH]; intros s HI; simpl; [done|].
  apply IH. by apply inv_storeAfter.
Qed.

End Invariant.

Lemma filedById_insert {T} {R : Repo T} (x : T) s s' :
  filedById (T:=T) s ->
  collection s' = <[model_id x := x]> (collection s) ->
  filedById (T:=T) s'.
Proof.
  intros Hf Hs k y. rewrite Hs. destruct (decide (model_id x = k)) as [<-|Hne].
  - rewrite lookup_insert_eq. by intros [= <-].
  - rewrite lookup_insert_ne by done. apply Hf.
Qed.

Lemma filedById_delete {T} {R : Repo T} (i : ObjectId) s s' :
  filedById (T:=T) s ->
  collection s' = delete i (collection s) ->
  filedById (T:=T) s'.
Proof.
  intros Hf Hs k y. rewrite Hs. intros Hy. apply Hf.
  by apply (lookup_weaken _ _ _ _ Hy), delete_subseteq.
Qed.

Lemma filedById_same {T} {R : Repo T} s s' :
  filedById (T:=T) s -> collection s' = collection s -> filedById (T:=T) s'.
Proof. intros Hf Hs k y. rewrite Hs. apply Hf. Qed.

(** Documents stay filed under their identifier, whatever the mutations
    and however they end. *)
Lemma storeAfterAll_filed ms s : allFiled s -> allFiled (storeAfterAll ms s).
Proof.
  apply (inv_storeAfterAll allFiled (fun _ => True)); try done.
  - intros s0 x w (Ht & Hr & Hg) _. split; [|split].
    + by apply (filedById_insert x s0).
    + by apply (filedById_same s0).
    + by apply (filedById_same s0).
  - intros s0 r w (Ht & Hr & Hg). split; [|split].
    + by apply (filedById_same s0).
    + by apply (filedById_insert r s0).
    + by apply (filedById_same s0).
  - intros s0 g w (Ht & Hr & Hg). split; [|split].
    + by apply (filedById_same s0).
    + by apply (filedById_same s0).
    + by apply (filedById_insert g s0).
  - intros s0 k w (Ht & Hr & Hg). split; [|split].
    + by apply (filedById_delete k s0).
    + by apply (filedById_same s0).
    + by apply (filedById_same s0).
  - intros s0 k w (Ht & Hr & Hg). split; [|split].
    + by apply (filedById_same s0).
    + by apply (filedById_same s0).
    + by apply (filedById_delete k s0).
Qed.

(** A store that refuses no write stays one. *)
Lemma storeAfterAll_reliable ms s :
  writesLeft s = None -> writesLeft (storeAfterAll ms s) = None.
Proof.
  apply (inv_storeAfterAll (fun s => writesLeft s = None) (fun _ => True)); try done;
    intros; simpl; by match goal with Hn : writesLeft _ = None |- _ => rewrite Hn end.
Qed.

Lemma update_keeps_autoLoad_rule t data :
  ~ autoLoadOnPlacement t ->
  bool_decide (tag_type t = PLACEMENT) && bool_decide (tu_auto_load data = Some true)
    = false ->
  ~ autoLoadOnPlacement (bulkGQLSet data updateTagKeys t).
Proof.
  intros HI4 Hval Hbad.
  apply bulkGQLSet_autoLoadOnPlacement in Hbad as [Hp Ha]; [|done].
  by rewrite Hp, Ha, !bool_decide_true in Hval.
Qed.

(** X16: invariant I4 is kept by every sequence of mutations, by any
    callers, on any store and however the mutations end: if no stored
    tag is an auto-loading placement before, none is after. *)
Theorem mutations_keep_autoLoad_rule ms s :
  noAutoLoadOnPlacement s -> noAutoLoadOnPlacement (storeAfterAll ms s).
Proof.
  apply (inv_storeAfterAll noAutoLoadOnPlacement (fun t => ~ autoLoadOnPlacement t)).
  - intros s0 k t HI Ht. by apply (HI k).
  - intros s0 x w HI Hx k t. simpl.
    destruct (decide (tag_id x = k)) as [<-|Hne].
    + rewrite lookup_insert_eq. by intros [= <-].
    + rewrite lookup_insert_ne by done. apply HI.
  - intros s0 r w HI k t. simpl. apply HI.
  - intros s0 g w HI k t. simpl. apply HI.
  - intros s0 i w HI k t. simpl. intros Ht. apply (HI k).
    by apply (lookup_weaken _ _ _ _ Ht), delete_subseteq.
  - intros s0 i w HI k t. simpl. apply HI.
  - intros t t' Hty Hal Ht [Hp Ha]. apply Ht. split; congruence.
  - intros t data. apply update_keeps_autoLoad_rule.
  - done.
Qed.

(** ** The links between tags and revisions *)

Lemma without_elem (i j : ObjectId) ids : j ∈ without i ids <-> j <> i /\ j ∈ ids.
Proof.
  unfold without, equals. rewrite list_elem_of_filter, negb_true_iff.
  by rewrite bool_decide_eq_false.
Qed.

(** Replacing a tag by a document with the same identifier and the same
    revision keeps the links. *)
Lemma linked_replace s s' t t' :
  linked s ->
  tags s !! tag_id t = Some t ->
  tag_id t' = tag_id t -> tag_revisionId t' = tag_revisionId t ->
  tags s' = <[tag_id t := t']> (tags s) ->
  revisions s' = revisions s ->
  linked s'.
Proof.
  intros [Hl Hr] Ht Hid Hrev Hts Hrs. split.
  - intros k u. rewrite Hts, Hrs.
    destruct (decide (tag_id t = k)) as [<-|Hne].
    + rewrite lookup_insert_eq. intros [= <-]. rewrite Hid, Hrev. by apply (Hl (tag_id t)).
    + rewrite lookup_insert_ne by done. apply Hl.
  - intros k r i. rewrite Hts, Hrs. intros Hk Hi.
    destruct (Hr k r i Hk Hi) as (t0 & Ht0 & Hrev0).
    destruct (decide (tag_id t = i)) as [<-|Hne].
    + rewrite lookup_insert_eq. exists t'. split; [done|].
      rewrite Ht in Ht0. injection Ht0 as <-. by rewrite Hrev.
    + rewrite lookup_insert_ne by done. by exists t0.
Qed.

(** Filing a new tag and listing it last on its revision keeps the
    links. *)
Lemma linked_add s s' (n : Tag) (r : Revision) :
  linked s ->
  revisions s !! rev_id r = Some r ->
  tags s !! tag_id n = None ->
  tag_revisionId n = rev_id r ->
  tags s' = <[tag_id n := n]> (tags s) ->
  revisions s' = <[rev_id r := setTagIds (rev_tagIds r ++ [tag_id n]) r]> (revisions s) ->
  linked s'.
Proof.
  intros [Hl Hr] Hrev Hfresh Hrid Hts Hrs. split.
  - intros k u. rewrite Hts, Hrs.
    destruct (decide (tag_id n = k)) as [<-|Hne].
    + rewrite lookup_insert_eq. intros [= <-]. rewrite Hrid, lookup_insert_eq.
      eexists. split; [done|]. simpl. apply elem_of_app. right.
      by apply list_elem_of_singleton.
    + rewrite lookup_insert_ne by done. intros Hu.
      destruct (Hl k u Hu) as (r0 & Hr0 & Hin).
      destruct (decide (rev_id r = tag_revisionId u)) as [E|Hne'].
      * rewrite <- E, lookup_insert_eq. rewrite <- E, Hrev in Hr0. injection Hr0 as <-.
        eexists. split; [done|]. simpl. apply elem_of_app. by left.
      * rewrite lookup_insert_ne by done. by exists r0.
  - intros k r0 i. rewrite Hts, Hrs.
    destruct (decide (rev_id r = k)) as [<-|Hne].
    + rewrite lookup_insert_eq. intros [= <-]. simpl.
      intros [Hi|Hi%list_elem_of_singleton]%elem_of_app.
      * destruct (Hr _ _ i Hrev Hi) as (t0 & Ht0 & Hrev0).
        rewrite lookup_insert_ne; [by exists t0|].
        intros E. by rewrite E, Ht0 in Hfresh.
      * subst i. rewrite lookup_insert_eq. by exists n.
    + rewrite lookup_insert_ne by done. intros Hk Hi.
      destruct (Hr k r0 i Hk Hi) as (t0 & Ht0 & Hrev0).
      rewrite lookup_insert_ne; [by exists t0|].
      intros E. by rewrite E, Ht0 in Hfresh.
Qed.

(** Taking a tag off its revision and removing it keeps the links. *)
Lemma linked_remove s s' (t : Tag) (r : Revision) :
  linked s ->
  filedById (T:=Tag) s -> filedById (T:=Revision) s ->
  tags s !! tag_id t = Some t ->
  revisions s !! tag_revisionId t = Some r ->
  tags s' = delete (tag_id t) (tags s) ->
  revisions s' = <[rev_id r := setTagIds (without (tag_id t) (rev_tagIds r)) r]>
                   (revisions s) ->
  linked s'.
Proof.
  intros [Hl Hr] Hft Hfr Ht Hrev Hts Hrs.
  pose proof (Hfr _ _ Hrev) as Hkey. simpl in Hkey. split.
  - intros k u. rewrite Hts, Hrs. intros Hu.
    assert (Hne : k <> tag_id t).
    { intros ->. by rewrite lookup_delete_eq in Hu. }
    rewrite lookup_delete_ne in Hu by done.
    pose proof (Hft _ _ Hu) as Hku. simpl in Hku.
    destruct (Hl k u Hu) as (r0 & Hr0 & Hin).
    destruct (decide (rev_id r = tag_revisionId u)) as [E|Hne'].
    + rewrite <- E, lookup_insert_eq. rewrite <- E, Hkey, Hrev in Hr0.
      injection Hr0 as <-. eexists. split; [done|]. simpl.
      apply without_elem. split; [congruence|done].
    + rewrite lookup_insert_ne by done. by exists r0.
  - intros k r0 i. rewrite Hts, Hrs.
    destruct (decide (rev_id r = k)) as [<-|Hne].
    + rewrite lookup_insert_eq. intros [= <-]. simpl.
      intros [Hne Hi]%without_elem.
      destruct (Hr (rev_id r) r i) as (t0 & Ht0 & Hrev0); [by rewrite Hkey|done|].
      rewrite lookup_delete_ne by done. by exists t0.
    + rewrite lookup_insert_ne by done. intros Hk Hi.
      destruct (Hr k r0 i Hk Hi) as (t0 & Ht0 & Hrev0).
      pose proof (Hfr _ _ Hk) as Hkey0. simpl in Hkey0.
      rewrite lookup_delete_ne; [by exists t0|].
      intros <-. rewrite Ht in Ht0. injection Ht0 as <-. congruence.
Qed.

(** On a store that refuses no write, [duplicateTag] and [createTag]
    either succeed or leave the store as it was. *)
Lemma duplicateTag_reliable ctx data s s' e :
  writesLeft s = None -> duplicateTag ctx data s = (s', Throw e) -> s' = s.
Proof.
  intros Hnone. rewrite duplicateTag_eq.
  destruct (resolveTag (td_tag_id data) s) as [t|]; [|by intros [= <- _]].
  destruct (ctx_user ctx) as [me|]; [|by intros [= <- _]].
  destruct (ctx_access ctx (tag_orgId t) CreateAccess); [|by intros [= <- _]].
  unfold bind at 1.
  destruct (duplicateTag_inner me t s) as [s1 r1] eqn:Hinner.
  destruct (revisions s !! tag_revisionId t) as [rev|] eqn:Hrev.
  - apply duplicateTag_inner_inv in Hinner as [_ Hrel].
    destruct (Hrel Hnone) as [Hnone1 [n ->]]; [by rewrite Hrev|].
    unfold bind. rewrite save_run, Hnone1. by case_decide.
  - unfold duplicateTag_inner, bind at 1, findByIdThrows at 1 in Hinner.
    simpl in Hinner. rewrite Hrev in Hinner. injection Hinner as <- <-.
    by intros [= <- _].
Qed.

Lemma createTag_reliable ctx data s s' e :
  writesLeft s = None -> createTag ctx data s = (s', Throw e) -> s' = s.
Proof.
  intros Hnone. rewrite createTag_eq.
  destruct (resolveRevision (tc_revision_id data) s) as [r|]; [|by intros [= <- _]].
  destruct (ctx_user ctx) as [me|]; [|by intros [= <- _]].
  destruct (ctx_access ctx (rev_orgId r) CreateAccess); [|by intros [= <- _]].
  destruct (_ && _); [by intros [= <- _]|].
  unfold bind.
  match goal with
  | |- context [createTagSkeleton ?a1 ?a2 ?a3 ?a4 ?a5 ?a6 ?a7 ?a8 ?s0] =>
      destruct (createTagSkeleton a1 a2 a3 a4 a5 a6 a7 a8 s0) as [s1 r1] eqn:Hskel
  end.
  apply createTagSkeleton_inv in Hskel as (_ & _ & Hrel).
  by destruct (Hrel Hnone) as [n ->].
Qed.

Lemma linked_storeAfter ctx m s :
  allFiled s -> writesLeft s = None -> linked s -> linked (storeAfter ctx m s).
Proof.
  intros (Hft & Hfr & _) Hnone Hlinked.
  destruct m as [data|data|data|data|data]; simpl.
  - destruct (updateRuleGroupsOrder ctx data s) as [s' [b|e]] eqn:Hrun; simpl.
    + pose proof Hrun as Hrevs.
      apply updateRuleGroupsOrder_ok_inv in Hrun
        as (t & ids & Ht & _ & Hacc & Hids & _ & _ & Hts).
      destruct (resolveTag_filed _ _ _ Hft Ht) as [_ Hkey].
      apply (linked_replace s s' t (setRuleGroupIds ids t)); try done.
      rewrite updateRuleGroupsOrder_eq, Ht in Hrevs.
      destruct (ctx_user ctx); [|done].
      destruct (ctx_access ctx (tag_orgId t) EditAccess); [|done].
      rewrite Hacc, Hids in Hrevs.
      destruct (decide (writesLeft s = Some O)); [done|]. by injection Hrevs as <-.
    + pose proof (single_write_throw_unchanged ctx (UpdateRuleGroupsOrder data) s I) as Hs.
      unfold thrown, errorOf in Hs. simpl in Hs. rewrite Hrun in Hs. simpl in Hs.
      by rewrite Hs.
  - rewrite deleteTag_eq.
    destruct (resolveTag (tx_tag_id data) s) as [t|] eqn:Ht; [|done].
    destruct (resolveTag_filed _ _ _ Hft Ht) as [_ Hkey].
    destruct (ctx_user ctx) as [me|]; [|done].
    destruct (ctx_access ctx (tag_orgId t) DeleteAccess); [|done].
    destruct (tx_preview data); [done|].
    destruct (revisions s !! tag_revisionId t) as [rev|] eqn:Hrev; [|done].
    rewrite Hnone. case_decide; [done|].
    destruct (deleteModelCascading me t false (unlinked me data t rev s))
      as [s' r] eqn:Hout.
    pose proof Hout as Hreal.
    apply deleteModelCascading_real in Hreal as (Hrevs & _ & _ & Hrel).
    destruct Hrel as [-> Hts]; [by simpl; rewrite Hnone|]. simpl.
    apply (linked_remove s s' t rev); try done.
  - destruct (updateTag ctx data s) as [s' [b|e]] eqn:Hrun; simpl.
    + apply updateTag_ok_inv in Hrun as (t & me & Ht & _ & _ & _ & _ & _ & ->).
      destruct (resolveTag_filed _ _ _ Hft Ht) as [_ Hkey].
      apply (linked_replace s _ t (bulkGQLSet data updateTagKeys t)); done.
    + pose proof (single_write_throw_unchanged ctx (UpdateTag data) s I) as Hs.
      unfold thrown, errorOf in Hs. simpl in Hs. rewrite Hrun in Hs. simpl in Hs.
      by rewrite Hs.
  - destruct (duplicateTag ctx data s) as [s' [g|e]] eqn:Hrun; simpl.
    + apply duplicateTag_inv in Hrun as [_ Hok].
      destruct (Hok g eq_refl)
        as (tid & t & rev & n & _ & _ & _ & Hrev & Hfresh & _ & Hrid & _ & Hts & Hrs).
      pose proof (Hfr _ _ Hrev) as Hk. simpl in Hk.
      apply (linked_add s s' (setName (td_name data) n) rev); try done.
      * by rewrite Hk.
      * simpl. congruence.
    + by rewrite (duplicateTag_reliable ctx data s s' e Hnone Hrun).
  - destruct (createTag ctx data s) as [s' [g|e]] eqn:Hrun; simpl.
    + apply createTag_inv in Hrun as [_ Hok].
      destruct (Hok g eq_refl)
        as (rid & rev & n & _ & Hrev & _ & _ & Hfresh & Hts & Hrs & Hrid & _).
      pose proof (Hfr _ _ Hrev) as Hk. simpl in Hk.
      apply (linked_add s s' n rev); try done. by rewrite Hk.
    + by rewrite (createTag_reliable ctx data s s' e Hnone Hrun).
Qed.

(** X17: on a store that refuses no write and files every document under
    its identifier, invariant I1 is kept, both ways, by every sequence of
    mutations by any callers: if every tag is listed by the revision it
    points to and every listed identifier is that of a tag pointing
    back, the same holds afterwards. *)
Theorem mutations_keep_links ms s :
  allFiled s -> writesLeft s = None -> linked s -> linked (storeAfterAll ms s).
Proof.
  revert s. induction ms as [|[ctx m] ms IH]; intros s Hf Hnone Hl; [done|].
  change (linked (storeAfterAll ms (storeAfter ctx m s))).
  apply IH.
  - apply (storeAfterAll_filed [(ctx, m)] s Hf).
  - apply (storeAfterAll_reliable [(ctx, m)] s Hnone).
  - by apply linked_storeAfter.
Qed.

(** ** Stores of one tag in one revision *)

Lemma filedById_three {T} {R : Repo T} (a b c : T) s :
  collection s = <[model_id a := a]> (<[model_id b := b]> (<[model_id c := c]> ∅)) ->
  filedById (T:=T) s.
Proof.
  intros Hs.
  assert (Hall : map_Forall (fun k (x : T) => model_id x = k) (collection s)).
  { rewrite Hs. repeat (apply map_Forall_insert_2; [reflexivity|]).
    apply map_Forall_empty. }
  intros k x. apply Hall.
Qed.

Lemma noAutoLoadOnPlacement_singleton (t : Tag) s :
  tags s = {[ tag_id t := t ]} -> ~ autoLoadOnPlacement t -> noAutoLoadOnPlacement s.
Proof.
  intros Hs Ht k u. rewrite Hs. by intros [_ <-]%lookup_singleton_Some.
Qed.

Lemma linked_singleton (t : Tag) (r : Revision) s :
  tags s = {[ tag_id t := t ]} ->
  revisions s = {[ rev_id r := r ]} ->
  tag_revisionId t = rev_id r ->
  rev_tagIds r = [tag_id t] ->
  linked s.
Proof.
  intros Hts Hrs Hrev Hlist. split.
  - intros k u. rewrite Hts. intros [_ <-]%lookup_singleton_Some.
    exists r. rewrite Hrs, Hrev, lookup_singleton_eq, Hlist. split; [done|].
    apply elem_of_cons. by left.
  - intros k r' i. rewrite Hrs. intros [_ <-]%lookup_singleton_Some.
    rewrite Hlist. intros ->%list_elem_of_singleton.
    exists t. by rewrite Hts, lookup_singleton_eq.
Qed.


End Behaviour.

(** ** The enumerations *)

(** X18: every member of [TypeIcon] is initialised with its own name,
    except [TEXT], which is initialised with the name of [CHECKBOX]; so
    two members have the same value exactly if they are the same member
    or are [TEXT] and [CHECKBOX]. *)
Theorem TypeIcon_values_collide_on_TEXT_only (a b : TypeIcon.t) :
  (TypeIcon.value a = TypeIcon.name a <-> a <> TypeIcon.TEXT)
  /\ (TypeIcon.value a = TypeIcon.value b <->
      a = b
      \/ (a = TypeIcon.TEXT /\ b = TypeIcon.CHECKBOX)
      \/ (a = TypeIcon.CHECKBOX /\ b = TypeIcon.TEXT)).
Proof.
  split.
  - split.
    + intros Hv ->. discriminate Hv.
    + intros Hne. destruct a; try reflexivity. by destruct Hne.
  - split.
    + destruct a, b; intros Hv; try discriminate Hv; auto.
    + intros [->|[[-> ->]|[-> ->]]]; reflexivity.
Qed.

(** X19: the macros of the data manager.  Every macro is initialised with
    its own name between two percent signs, so within one enum no two
    macros share a value; and no string macro has the value of an integer
    macro. *)
Theorem macros_are_their_names_in_percent_signs :
  (forall m, StringMacros.value m = ("%" ++ StringMacros.name m ++ "%")%string)
  /\ (forall m, IntegerMacros.value m = ("%" ++ IntegerMacros.name m ++ "%")%string)
  /\ (forall m, DateTimeMacros.value m = ("%" ++ DateTimeMacros.name m ++ "%")%string)
  /\ (forall m, TimestampMacros.value m = ("%" ++ TimestampMacros.name m ++ "%")%string)
  /\ (forall m m', StringMacros.value m = StringMacros.value m' -> m = m')
  /\ (forall m m', IntegerMacros.value m = IntegerMacros.value m' -> m = m')
  /\ (forall m m', StringMacros.value m <> IntegerMacros.value m').
Proof.
  repeat split.
  - by intros [].
  - by intros [].
  - by intros [].
  - by intros [].
  - intros m m' Hv. destruct m, m'; try reflexivity; discriminate Hv.
  - intros m m' Hv. destruct m, m'; try reflexivity; discriminate Hv.
  - intros m m' Hv. destruct m, m'; discriminate Hv.
Qed.

(** X20: the macros by type.  There is no float and no boolean macro; the
    date-time macro is one of the string macros and the timestamp macro
    one of the integer macros, under the same name and with the same
    value, and they are the only ones of their enums. *)
Theorem typed_macros_are_string_and_integer_macros :
  (forall m : FloatMacros.t, False)
  /\ (forall m : BooleanMacros.t, False)
  /\ (forall m, m = DateTimeMacros.S8_DATE_TIME_UTC
                /\ StringMacros.name StringMacros.S8_DATE_TIME_UTC = DateTimeMacros.name m
                /\ StringMacros.value StringMacros.S8_DATE_TIME_UTC = DateTimeMacros.value m)
  /\ (forall m, m = TimestampMacros.S8_TIME_STAMP_UTC
                /\ IntegerMacros.name IntegerMacros.S8_TIME_STAMP_UTC = TimestampMacros.name m
                /\ IntegerMacros.value IntegerMacros.S8_TIME_STAMP_UTC
                   = TimestampMacros.value m).
Proof.
  split; [intros []|]. split; [intros []|]. split; by intros [].
Qed.

(** * The properties on the worked example *)

Section Witnesses.
#[local] Existing Instance StringIds.

(** The order [A, B, C] of the example tag is changed to [C, A, B]. *)
Lemma updateRuleGroupsOrder_permutation_witness :
  exists s',
    updateRuleGroupsOrder ctxOwner
      (reorderRequest [idGroupC; idGroupA; idGroupB])
      (storeWith (tagWith HEAD [idGroupA; idGroupB; idGroupC]) None) = (s', Ok true)
    /\ tags s' !! idTag = Some (tagWith HEAD [idGroupC; idGroupA; idGroupB]).
Proof.
  destruct (updateRuleGroupsOrder_permutation ctxOwner
              (reorderRequest [idGroupC; idGroupA; idGroupB])
              (storeWith (tagWith HEAD [idGroupA; idGroupB; idGroupC]) None)
              (tagWith HEAD [idGroupA; idGroupB; idGroupC]) alice)
    as (Hyes & _ & _).
  - reflexivity.
  - reflexivity.
  - reflexivity.
  - reflexivity.
  - discriminate.
  - simpl. apply (bool_decide_unpack _). vm_compute. exact I.
  - destruct Hyes as (ids & s' & Hrun & Hids & _ & Htags).
    + apply reorderAccepted_permutation.
      * simpl. apply (bool_decide_unpack _). vm_compute. exact I.
      * reflexivity.
    + exists s'. split; [exact Hrun|]. rewrite Htags.
      simpl in Hids. rewrite list_fmap_id in Hids. subst ids. reflexivity.
Defined.

(** C1, as stated, fails on a tag that lists a rule group twice: the new
    order [A, B] is accepted for the current order [A, A]. *)
Lemma updateRuleGroupsOrder_permutation_counterexample :
  let t := tagWith HEAD [idGroupA; idGroupA] in
  let data := reorderRequest [idGroupA; idGroupB] in
  let out := updateRuleGroupsOrder ctxOwner data (storeWith t None) in
  out.2 = Ok true
  /\ tags out.1 !! idTag = Some (tagWith HEAD [idGroupA; idGroupB])
  /\ ~ Permutation (map toString (tag_ruleGroupIds t)) (ro_new_order data).
Proof.
  split; [vm_compute; reflexivity|]. split; [vm_compute; reflexivity|].
  apply (not_Permutation_twice idGroupA idGroupB). discriminate.
Qed.

Lemma storeWith_filed_tags type groups budget :
  filedById (T:=Tag) (storeWith (tagWith type groups) budget).
Proof. by apply (filedById_singleton (tagWith type groups)). Qed.

Lemma storeWith_filed_revisions t budget :
  filedById (T:=Revision) (storeWith t budget).
Proof. by apply (filedById_singleton exampleRevision). Qed.

Lemma storeWith_filed_ruleGroups t budget :
  filedById (T:=RuleGroup) (storeWith t budget).
Proof.
  by apply (filedById_three {| rg_id := idGroupA; rg_name := "A" |}
              {| rg_id := idGroupB; rg_name := "B" |}
              {| rg_id := idGroupC; rg_name := "C" |}).
Qed.

Lemma NoDup_example (a b c : ObjectId) :
  bool_decide (NoDup [a; b; c]) = true -> NoDup [a; b; c].
Proof. apply bool_decide_eq_true_1. Qed.

(** A tag that lists rule group [A] twice takes the new order [A, B]. *)
Lemma updateRuleGroupsOrder_coverage_only_witness :
  exists s',
    updateRuleGroupsOrder ctxOwner (reorderRequest [idGroupA; idGroupB])
      (storeWith (tagWith HEAD [idGroupA; idGroupA]) None) = (s', Ok true)
    /\ tags s' !! idTag = Some (tagWith HEAD [idGroupA; idGroupB])
    /\ (idGroupB ∉ [idGroupA; idGroupA])
    /\ ~ Permutation [idGroupA; idGroupA] [idGroupA; idGroupB].
Proof.
  destruct (updateRuleGroupsOrder_coverage_only ctxOwner
              (reorderRequest [idGroupA; idGroupB])
              (storeWith (tagWith HEAD [idGroupA; idGroupA]) None)
              (tagWith HEAD [idGroupA; idGroupA]) alice)
    as [_ Hex].
  - reflexivity.
  - reflexivity.
  - reflexivity.
  - reflexivity.
  - discriminate.
  - apply (Hex idGroupA idGroupB); [discriminate | reflexivity | reflexivity].
Defined.

(** The auto-loading placement is refused on creation and on update, and
    the store stays as it was. *)
Lemma autoLoad_placement_rejected_witness :
  createTag ctxOwner (createRequest PLACEMENT true) (storeWith (tagWith HEAD []) None)
    = (storeWith (tagWith HEAD []) None, Throw autoLoadPlacementError)
  /\ updateTag ctxOwner autoLoadRequest (storeWith (tagWith PLACEMENT []) None)
    = (storeWith (tagWith PLACEMENT []) None, Throw autoLoadPlacementError).
Proof.
  destruct autoLoad_placement_rejected as [Hcreate Hupdate]. split.
  - destruct (Hcreate ctxOwner (createRequest PLACEMENT true)
                (storeWith (tagWith HEAD []) None) eq_refl eq_refl)
      as (e & Hrun & He).
    rewrite Hrun. by rewrite (He idRevision exampleRevision eq_refl eq_refl eq_refl).
  - destruct (Hupdate ctxOwner autoLoadRequest (storeWith (tagWith PLACEMENT []) None)
                idTag (tagWith PLACEMENT []) eq_refl eq_refl)
      as (_ & _ & e & Hrun & He).
    + by intros [_ [=]].
    + by split.
    + rewrite Hrun. by rewrite (He eq_refl).
Defined.

(** A caller without create access is told so, also when the request is
    for an auto-loading placement. *)
Lemma createTag_validation_behind_access_check_witness :
  createTag ctxViewer (createRequest PLACEMENT true) (storeWith (tagWith HEAD []) None)
    = (storeWith (tagWith HEAD []) None, Throw AuthorizationDenied).
Proof.
  destruct (createTag_validation_behind_access_check ctxViewer (createRequest PLACEMENT true)
              (storeWith (tagWith HEAD []) None) idRevision exampleRevision)
    as [Hdenied _]; [reflexivity..|].
  by apply Hdenied.
Defined.

(** C4, as stated, fails: the caller without create access who asks for
    an auto-loading placement receives the authorization denial, not the
    validation error. *)
Lemma createTag_validation_first_counterexample :
  let s := storeWith (tagWith HEAD []) None in
  let out := createTag ctxViewer (createRequest PLACEMENT true) s in
  hasAccess ctxViewer (rev_orgId exampleRevision) CreateAccess = false
  /\ tc_type (createRequest PLACEMENT true) = PLACEMENT
  /\ tc_auto_load (createRequest PLACEMENT true) = true
  /\ out = (s, Throw AuthorizationDenied)
  /\ out.2 <> Throw autoLoadPlacementError.
Proof.
  split; [reflexivity|]. split; [reflexivity|]. split; [reflexivity|].
  split; [vm_compute; reflexivity | discriminate].
Qed.

(** A store that refuses the third write: the unlink and the deletion of
    the tag go through, the deletion of the first rule group fails.  The
    request fails, and the revision no longer lists the tag. *)
Lemma deleteTag_unlinks_before_cascade_witness :
  let t := tagWith HEAD [idGroupA; idGroupB; idGroupC] in
  let out := deleteTag ctxOwner (deleteRequest false) (storeWith t (Some 2%nat)) in
  out.2 = Throw PersistenceFailure
  /\ (exists rev', revisions out.1 !! idRevision = Some rev' /\ idTag ∉ rev_tagIds rev')
  /\ exists s', deleteTag ctxOwner (deleteRequest false) (storeWith t None)
                = (s', Ok (cascadeAcks t (storeWith t None)))
                /\ tags s' !! idTag = None.
Proof.
  intros t out. split; [vm_compute; reflexivity|]. split.
  - destruct (deleteTag_unlinks_before_cascade ctxOwner (deleteRequest false)
                (storeWith t (Some 2%nat)) t alice exampleRevision)
      as [Hall _]; [reflexivity..|].
    destruct (Hall out.1 out.2) as [[Hw _]|(_ & _ & _ & (rev' & Hrev' & _ & Habs) & _)].
    + by apply run_eta.
    + discriminate Hw.
    + by exists rev'.
  - destruct (deleteTag_unlinks_before_cascade ctxOwner (deleteRequest false)
                (storeWith t None) t alice exampleRevision)
      as [_ Hok]; [reflexivity..|].
    by apply Hok.
Defined.

(** The preview of the delete answers what the delete answers, and the
    store it leaves is the store it found. *)
Lemma deleteTag_preview_is_dry_run_witness :
  let t := tagWith HEAD [idGroupA; idGroupB; idGroupC] in
  let s := storeWith t None in
  (deleteTag ctxOwner (deleteRequest true) s).1 = s
  /\ deleteTag ctxOwner (deleteRequest true) s
     = (s, Ok [ackTag t;
               {| ack_model := "RuleGroup"; ack_id := idGroupA; ack_name := "A" |};
               {| ack_model := "RuleGroup"; ack_id := idGroupB; ack_name := "B" |};
               {| ack_model := "RuleGroup"; ack_id := idGroupC; ack_name := "C" |}]).
Proof.
  intros t s.
  destruct (deleteTag_preview_is_dry_run ctxOwner (deleteRequest true)
              (deleteRequest false) s) as [Hpure Hsame]; [reflexivity..|].
  split; [exact Hpure|].
  apply (Hsame (deleteTag ctxOwner (deleteRequest false) s).1).
  apply run_eta. vm_compute. reflexivity.
Defined.

(** With the revision document missing, the preview still answers and
    the delete itself fails on the revision. *)
Lemma deleteTag_preview_skips_revision_witness :
  let t := tagWith HEAD [idGroupA] in
  let s := storeWithoutRevision t in
  revisions s !! tag_revisionId t = None
  /\ deleteTag ctxOwner (deleteRequest true) s = (s, Ok (cascadeAcks t s))
  /\ deleteTag ctxOwner (deleteRequest false) s = (s, Throw (NotFound revisionFailed)).
Proof.
  intros t s. split; [reflexivity|].
  destruct (deleteTag_preview_skips_revision ctxOwner (deleteRequest true)
              (deleteRequest false) s idTag t) as [Hmissing _]; [reflexivity..|].
  by apply Hmissing.
Defined.

(** The rename request changes name and width and nothing else, although
    its payload also carries [type], [tag_code], [revision_id] and
    [rule_group_ids]. *)
Lemma updateTag_partial_update_witness :
  let t := tagWith HEAD [idGroupA; idGroupB] in
  let out := updateTag ctxOwner renameRequest (storeWith t None) in
  out.2 = Ok true
  /\ tags out.1 !! idTag =
       Some {| tag_id := idTag; tag_orgId := idOrg; tag_name := "Renamed";
               tag_tagCode := "abc123"; tag_revisionId := idRevision;
               tag_type := HEAD; tag_ruleGroupIds := [idGroupA; idGroupB];
               tag_width := 300; tag_height := 0; tag_autoLoad := false;
               tag_isActive := true |}
  /\ exists u',
       tags out.1 !! idTag = Some u'
       /\ tag_type u' = tag_type t
       /\ tag_tagCode u' = tag_tagCode t
       /\ tag_revisionId u' = tag_revisionId t
       /\ tag_ruleGroupIds u' = tag_ruleGroupIds t
       /\ tag_id u' = tag_id t
       /\ tag_orgId u' = tag_orgId t.
Proof.
  intros t out. split; [vm_compute; reflexivity|]. split; [vm_compute; reflexivity|].
  destruct (updateTag_partial_update ctxOwner renameRequest (storeWith t None)
              out.1 out.2) as [_ Hframe].
  - apply storeWith_filed_tags.
  - by apply run_eta.
  - by apply Hframe.
Defined.

(** The example tag is duplicated, and the duplicate is duplicated: both
    copies carry the lineage code of the example tag. *)
Lemma tagCode_stable_witness :
  let T := tagWith HEAD [idGroupA; idGroupB; idGroupC] in
  let s0 := storeWith T None in
  let run1 := duplicateTag ctxOwner (duplicateRequest idTag "Copy") s0 in
  let d1 := answered run1 (toGQLType T) in
  let run2 := duplicateTag ctxOwner (duplicateRequest (gql_id d1) "Copy of copy") run1.1 in
  let d2 := answered run2 (toGQLType T) in
  Forall (fun d => gql_tag_code d = "abc123") [d1; d2].
Proof.
  intros T s0 run1 d1 run2 d2.
  destruct tagCode_stable as [Hchain _].
  apply (Hchain T s0 [d1; d2] run2.1); [reflexivity|].
  apply (duplicated_more T s0 [d1] run1.1 ctxOwner
           (duplicateRequest (gql_id d1) "Copy of copy") d2 run2.1).
  - apply (duplicated_more T s0 [] s0 ctxOwner (duplicateRequest idTag "Copy") d1 run1.1).
    + constructor.
    + apply elem_of_cons. by left.
    + apply run_eta. vm_compute. reflexivity.
  - apply elem_of_cons. right. apply elem_of_cons. by left.
  - apply run_eta. vm_compute. reflexivity.
Defined.

(** A created tag and a duplicate are new tags, stored beside the example
    tag, and the example revision lists the example tag followed by the
    new one. *)
Lemma new_tag_is_linked_witness :
  let T := tagWith HEAD [idGroupA] in
  let s := storeWith T None in
  let made := createTag ctxOwner (createRequest PLACEMENT false) s in
  let copied := duplicateTag ctxOwner (duplicateRequest idTag "Copy") s in
  (exists rev' newTag,
     revisions made.1 !! idRevision = Some rev'
     /\ answered made (toGQLType T) = toGQLType newTag
     /\ tags s !! tag_id newTag = None
     /\ tags made.1 !! tag_id newTag = Some newTag
     /\ rev_tagIds rev' = [idTag; tag_id newTag]
     /\ tag_revisionId newTag = idRevision)
  /\ (exists rev' newTag,
        revisions copied.1 !! idRevision = Some rev'
        /\ answered copied (toGQLType T) = toGQLType newTag
        /\ tag_id newTag <> idTag
        /\ tags copied.1 !! idTag = Some T
        /\ tags copied.1 !! tag_id newTag = Some newTag
        /\ rev_tagIds rev' = [idTag; tag_id newTag]
        /\ tag_revisionId newTag = idRevision).
Proof.
  intros T s made copied. split.
  - destruct (new_tag_is_linked ctxOwner s made.1 (answered made (toGQLType T)))
      as [Hcreate _]; [apply storeWith_filed_revisions|].
    destruct (Hcreate (createRequest PLACEMENT false))
      as (rid & rev & rev' & newTag & Hid & Hrev & Hrev' & Hkey & Hnew & Hstored & Hg
          & Hlist & _ & Hrid & _).
    + apply run_eta. vm_compute. reflexivity.
    + clearbody made. injection Hid as <-.
      vm_compute in Hrev. injection Hrev as <-.
      exists rev', newTag. rewrite Hrid, Hkey.
      split; [exact Hrev'|]. split; [exact Hg|]. split; [exact Hnew|].
      split; [exact Hstored|]. split; [exact Hlist|]. reflexivity.
  - destruct (new_tag_is_linked ctxOwner s copied.1 (answered copied (toGQLType T)))
      as [_ Hdup]; [apply storeWith_filed_revisions|].
    destruct (Hdup (duplicateRequest idTag "Copy"))
      as (tid & t & rev & rev' & newTag & Hid & Ht & Hrev & Hrev' & Hkey & _ & Hne
          & Hsource & Hstored & Hg & Hlist & _ & Hrid & _).
    + apply run_eta. vm_compute. reflexivity.
    + clearbody copied. injection Hid as <-.
      vm_compute in Ht. injection Ht as <-.
      vm_compute in Hrev. injection Hrev as <-.
      exists rev', newTag. rewrite Hrid, Hkey.
      split; [exact Hrev'|]. split; [exact Hg|]. split; [exact Hne|].
      split; [exact Hsource|]. split; [exact Hstored|]. split; [exact Hlist|].
      reflexivity.
Defined.

(** A duplicate of a tag that is not stored fails on the look-up; a
    delete by a caller who may only look is denied. *)
Lemma mutation_lookup_then_access_witness :
  let s := storeWith (tagWith HEAD [idGroupA]) None in
  let copy := DuplicateTag (duplicateRequest idGroupA "Copy") in
  let drop := DeleteTag (deleteRequest false) in
  (storeAfter ctxOwner copy s = s /\ thrown ctxOwner copy s = Some (NotFound tagFailed))
  /\ (storeAfter ctxViewer drop s = s /\ thrown ctxViewer drop s = Some AuthorizationDenied).
Proof.
  intros s copy drop. split.
  - destruct (mutation_lookup_then_access ctxOwner copy s) as [Hmissing _].
    apply Hmissing. vm_compute. reflexivity.
  - destruct (mutation_lookup_then_access ctxViewer drop s) as [_ Hdenied].
    apply (Hdenied idOrg); vm_compute; reflexivity.
Defined.

(** A rename that the store refuses leaves the store as it was; one that
    it takes adds one entry to the journal. *)
Lemma single_save_all_or_nothing_witness :
  let t := tagWith HEAD [idGroupA] in
  storeAfter ctxOwner (UpdateTag renameRequest) (storeWith t (Some O)) = storeWith t (Some O)
  /\ exists w,
       journal (storeAfter ctxOwner (UpdateTag renameRequest) (storeWith t None))
       = journal (storeWith t None) ++ [w].
Proof.
  intros t. split.
  - destruct (single_save_all_or_nothing ctxOwner (UpdateTag renameRequest)
                (storeWith t (Some O)) I) as [Hthrow _].
    apply Hthrow. vm_compute. discriminate.
  - destruct (single_save_all_or_nothing ctxOwner (UpdateTag renameRequest)
                (storeWith t None) I) as [_ Hok].
    destruct Hok as (_ & _ & Hjournal & _); [vm_compute; reflexivity|].
    exact Hjournal.
Defined.

(** The order [A, B, C] changed to [C, A, B]: three identifiers before
    and after, the same ones. *)
Lemma reorder_keeps_rule_groups_witness :
  let data := reorderRequest [idGroupC; idGroupA; idGroupB] in
  let s := storeWith (tagWith HEAD [idGroupA; idGroupB; idGroupC]) None in
  let s' := (updateRuleGroupsOrder ctxOwner data s).1 in
  exists t ids,
    resolveTag (ro_tag_id data) s = Ok t
    /\ tags s' = <[tag_id t := setRuleGroupIds ids t]> (tags s)
    /\ length ids = length (tag_ruleGroupIds t)
    /\ (forall i, i ∈ tag_ruleGroupIds t -> i ∈ ids)
    /\ (NoDup (tag_ruleGroupIds t) ->
        NoDup ids /\ forall i, i ∈ ids <-> i ∈ tag_ruleGroupIds t).
Proof.
  intros data s s'.
  apply (reorder_keeps_rule_groups ctxOwner data s s' true).
  apply run_eta. vm_compute. reflexivity.
Defined.

(** The order [A, B, C] changed to [C, A, B] and taken back. *)
Lemma reorder_round_trip_witness :
  let t := tagWith HEAD [idGroupA; idGroupB; idGroupC] in
  let s := storeWith t None in
  let s1 := (updateRuleGroupsOrder ctxOwner
               (reorderRequest [idGroupC; idGroupA; idGroupB]) s).1 in
  tags s1 !! idTag = Some (tagWith HEAD [idGroupC; idGroupA; idGroupB])
  /\ exists s2 u,
       updateRuleGroupsOrder ctxOwner (reorderRequest [idGroupA; idGroupB; idGroupC]) s1
         = (s2, Ok true)
       /\ resolveTag idTag s2 = Ok u
       /\ tag_ruleGroupIds u = [idGroupA; idGroupB; idGroupC]
       /\ sameProperties t u.
Proof.
  intros t s s1. split; [vm_compute; reflexivity|].
  destruct (reorder_round_trip ctxOwner idTag s t) as [_ Hback].
  - apply storeWith_filed_tags.
  - vm_compute. reflexivity.
  - reflexivity.
  - destruct (Hback (NoDup_example idGroupA idGroupB idGroupC eq_refl)
                [idGroupC; idGroupA; idGroupB] s1)
      as (s2 & u & Hrun & Hu & Hids & Hsame & _).
    + apply run_eta. vm_compute. reflexivity.
    + vm_compute. discriminate.
    + exists s2, u. split; [exact Hrun|]. split; [exact Hu|].
      split; [exact Hids | exact Hsame].
Defined.


(** The rename request sent twice. *)
Lemma updateTag_idempotent_witness :
  let s := storeWith (tagWith HEAD [idGroupA; idGroupB]) None in
  let s1 := (updateTag ctxOwner renameRequest s).1 in
  exists s2 u1 u2,
    updateTag ctxOwner renameRequest s1 = (s2, Ok true)
    /\ resolveTag idTag s1 = Ok u1
    /\ resolveTag idTag s2 = Ok u2
    /\ sameProperties u1 u2
    /\ (forall k, k <> tag_id u1 -> tags s2 !! k = tags s1 !! k)
    /\ revisions s2 = revisions s1
    /\ ruleGroups s2 = ruleGroups s1.
Proof.
  intros s s1.
  apply (updateTag_idempotent ctxOwner renameRequest s s1 true).
  - apply storeWith_filed_tags.
  - apply run_eta. vm_compute. reflexivity.
  - vm_compute. discriminate.
Defined.

(** An update that carries only a comment is saved and recorded. *)
Lemma updateTag_empty_payload_witness :
  let t := tagWith HEAD [idGroupA] in
  let s := storeWith t None in
  exists s' u d,
    updateTag ctxOwner commentOnlyRequest s = (s', Ok true)
    /\ resolveTag idTag s' = Ok u
    /\ sameProperties t u
    /\ (forall k, k <> tag_id t -> tags s' !! k = tags s !! k)
    /\ sameProperties t d
    /\ journal s' =
         journal s ++ [Saved (TagModel d) alice USER
                         {| gqlMethod := UPDATE_PROPERTIES;
                            userComments := Some "Nothing changed";
                            opConnectedModels := [] |}].
Proof.
  intros t s.
  destruct (updateTag_empty_payload ctxOwner commentOnlyRequest s t alice) as [_ Hok].
  - apply storeWith_filed_tags.
  - vm_compute. reflexivity.
  - reflexivity.
  - reflexivity.
  - reflexivity.
  - reflexivity.
  - reflexivity.
  - reflexivity.
  - reflexivity.
  - apply Hok. discriminate.
Defined.


(** The example tag duplicated under the name "Copy". *)
Lemma duplicate_is_a_renamed_copy_witness :
  let T := tagWith PLACEMENT [idGroupA] in
  let s := storeWith T None in
  let run := duplicateTag ctxOwner (duplicateRequest idTag "Copy") s in
  let g := answered run (toGQLType T) in
  exists n,
    tags run.1 !! idTag = Some T
    /\ tags s !! tag_id n = None
    /\ tags run.1 !! tag_id n = Some n
    /\ g = toGQLType n
    /\ gql_name g = "Copy"
    /\ gql_tag_code g = "abc123"
    /\ gql_revision_id g = idRevision
    /\ gql_type g = PLACEMENT.
Proof.
  intros T s run g.
  destruct (duplicate_is_a_renamed_copy ctxOwner (duplicateRequest idTag "Copy") s run.1 g)
    as (tid & t & n & Hid & Ht & Ht' & Hnew & Hn & Hg & Hname & Hcode & Hrev & Htype & _).
  - apply run_eta. vm_compute. reflexivity.
  - injection Hid as <-. vm_compute in Ht. injection Ht as <-.
    exists n. split; [exact Ht'|]. split; [exact Hnew|]. split; [exact Hn|].
    split; [exact Hg|]. split; [exact Hname|]. split; [exact Hcode|].
    split; [exact Hrev|]. exact Htype.
Defined.

(** A created tag is read back by a caller who may only look. *)
Lemma new_tag_can_be_read_back_witness :
  let T := tagWith HEAD [idGroupA] in
  let s := storeWith T None in
  let made := createTag ctxOwner (createRequest HEAD true) s in
  let g := answered made (toGQLType T) in
  gql_name g = "Banner"
  /\ gql_rule_group_ids g = []
  /\ getTag ctxViewer (gql_id g) made.1 = (made.1, Ok g).
Proof.
  intros T s made g.
  destruct (new_tag_can_be_read_back ctxOwner s made.1 g) as [Hcreate _].
  destruct (Hcreate (createRequest HEAD true))
    as (r & Hr & Hname & _ & _ & Hgroups & Hget).
  - apply run_eta. vm_compute. reflexivity.
  - split; [exact Hname|]. split; [exact Hgroups|]. apply Hget. reflexivity.
Defined.

(** The rename is shown to a caller who may only look. *)
Lemma updated_tag_is_read_back_witness :
  let t := tagWith HEAD [idGroupA; idGroupB] in
  let s := storeWith t None in
  let s' := (updateTag ctxOwner renameRequest s).1 in
  exists g,
    getTag ctxViewer idTag s' = (s', Ok g)
    /\ gql_name g = "Renamed"
    /\ gql_width g = 300
    /\ gql_height g = 0
    /\ gql_type g = HEAD
    /\ gql_tag_code g = "abc123"
    /\ gql_rule_group_ids g = [idGroupA; idGroupB].
Proof.
  intros t s s'.
  destruct (updated_tag_is_read_back ctxOwner renameRequest s s' true) as (u & Hu & Hget).
  - apply storeWith_filed_tags.
  - apply run_eta. vm_compute. reflexivity.
  - vm_compute in Hu. injection Hu as <-.
    destruct (Hget ctxViewer eq_refl)
      as (g & Hrun & Hname & _ & Hwidth & Hheight & _ & _ & Hcode & _ & Htype & Hgroups).
    exists g. split; [exact Hrun|]. split; [exact Hname|]. split; [exact Hwidth|].
    split; [exact Hheight|]. split; [exact Htype|]. split; [exact Hcode|]. exact Hgroups.
Defined.

(** The example tag deleted: its rule groups [A] and [B] are gone, [C]
    is not, and the tag is no longer found. *)
Lemma deleted_tag_is_gone_witness :
  let t := tagWith HEAD [idGroupA; idGroupB] in
  let s := storeWith t None in
  let s' := (deleteTag ctxOwner (deleteRequest false) s).1 in
  tags s' = delete idTag (tags s)
  /\ ruleGroups s' !! idGroupA = None
  /\ ruleGroups s' !! idGroupC = ruleGroups s !! idGroupC
  /\ getTag ctxOwner idTag s' = (s', Throw (NotFound tagFailed)).
Proof.
  intros t s s'.
  destruct (deleted_tag_is_gone ctxOwner (deleteRequest false) s s'
              (cascadeAcks t s))
    as (u & Hu & Htags & Hgroups & Hget).
  - apply storeWith_filed_tags.
  - apply storeWith_filed_ruleGroups.
  - reflexivity.
  - unfold s'. apply run_eta. vm_compute. reflexivity.
  - clearbody s'. vm_compute in Hu. injection Hu as <-.
    split; [exact Htags|].
    split; [rewrite (Hgroups idGroupA); vm_compute; reflexivity|].
    split; [rewrite (Hgroups idGroupC); vm_compute; reflexivity|].
    exact (Hget ctxOwner).
Defined.

(** With one write left, the delete fails after the unlink. *)
Lemma deleteTag_one_write_left_witness :
  let t := tagWith HEAD [idGroupA; idGroupB] in
  let s := storeWith t (Some 1%nat) in
  let data := deleteRequest false in
  deleteTag ctxOwner data s = (unlinked alice data t exampleRevision s, Throw PersistenceFailure)
  /\ tags (unlinked alice data t exampleRevision s) = tags s
  /\ ruleGroups (unlinked alice data t exampleRevision s) = ruleGroups s
  /\ exists rev',
       revisions (unlinked alice data t exampleRevision s) !! rev_id exampleRevision = Some rev'
       /\ (tag_id t ∉ rev_tagIds rev').
Proof.
  intros t s data.
  apply (deleteTag_one_write_left ctxOwner data s t alice exampleRevision).
  - vm_compute. reflexivity.
  - reflexivity.
  - reflexivity.
  - reflexivity.
  - vm_compute. reflexivity.
  - reflexivity.
Defined.

(** A parent object that lists [C] for a stored tag that lists [A] and
    [B]: the field is answered as for the parent that lists [A] and [B],
    from the list of the stored tag; a caller without view access is
    denied. *)
Lemma Tag_rule_groups_reads_stored_tag_witness :
  let stored := tagWith HEAD [idGroupA; idGroupB] in
  let s := storeWith stored None in
  let parent := toGQLType (tagWith HEAD [idGroupC]) in
  Tag_rule_groups ctxViewer (toGQLType stored) s = Tag_rule_groups ctxViewer parent s
  /\ Tag_rule_groups ctxViewer parent s
     = findByIds (T:=RuleGroup) [idGroupA; idGroupB] s
  /\ Tag_rule_groups ctxStranger parent s = (s, Throw AuthorizationDenied).
Proof.
  intros stored s parent.
  destruct (Tag_rule_groups_reads_stored_tag ctxViewer parent s)
    as (Hsame & _ & _ & Hfound).
  destruct (Tag_rule_groups_reads_stored_tag ctxStranger parent s)
    as (_ & _ & Hdenied & _).
  split; [apply Hsame; reflexivity|].
  split; [apply (Hfound stored); vm_compute; reflexivity|].
  apply (Hdenied stored); vm_compute; reflexivity.
Defined.

(** After the order [A, B, C] is changed to [C, A, B] the field resolves
    to the rule groups it resolved to before. *)
Lemma reorder_keeps_resolved_rule_groups_witness :
  let t := tagWith HEAD [idGroupA; idGroupB; idGroupC] in
  let s := storeWith t None in
  let data := reorderRequest [idGroupC; idGroupA; idGroupB] in
  let s' := (updateRuleGroupsOrder ctxOwner data s).1 in
  exists gs gs',
    Tag_rule_groups ctxViewer (toGQLType t) s = (s, Ok gs)
    /\ Tag_rule_groups ctxViewer (toGQLType t) s' = (s', Ok gs')
    /\ forall g, g ∈ gs' <-> g ∈ gs.
Proof.
  intros t s data s'.
  apply (reorder_keeps_resolved_rule_groups ctxOwner data s s' true t).
  - apply storeWith_filed_tags.
  - vm_compute. reflexivity.
  - exact (NoDup_example idGroupA idGroupB idGroupC eq_refl).
  - apply run_eta. vm_compute. reflexivity.
  - reflexivity.
  - reflexivity.
Defined.

(** The field [revision] of a created tag is the example revision,
    listing the example tag and then the new one. *)
Lemma revision_field_of_new_tag_witness :
  let T := tagWith HEAD [idGroupA] in
  let s := storeWith T None in
  let made := createTag ctxOwner (createRequest HEAD false) s in
  let g := answered made (toGQLType T) in
  Tag_revision ctxViewer g made.1
    = (made.1, Ok (setTagIds [idTag; gql_id g] exampleRevision)).
Proof.
  intros T s made g.
  destruct (revision_field_of_new_tag ctxOwner s made.1 g) as [Hcreate _].
  - apply storeWith_filed_revisions.
  - destruct (Hcreate (createRequest HEAD false)) as (r & i & Hr & Hi & Hfield).
    + apply run_eta. vm_compute. reflexivity.
    + clearbody g made. vm_compute in Hr. injection Hr as <-. injection Hi as <-.
      exact (Hfield ctxViewer eq_refl).
Defined.

(** An auto-loading placement is asked for twice, by creation and by
    update of a placement; the store holds none afterwards. *)
Lemma mutations_keep_autoLoad_rule_witness :
  noAutoLoadOnPlacement
    (storeAfterAll
       [(ctxOwner, CreateTag (createRequest PLACEMENT true));
        (ctxOwner, UpdateTag autoLoadRequest);
        (ctxOwner, DuplicateTag (duplicateRequest idTag "Copy"))]
       (storeWith (tagWith PLACEMENT []) None)).
Proof.
  apply mutations_keep_autoLoad_rule.
  apply (noAutoLoadOnPlacement_singleton (tagWith PLACEMENT [])).
  - reflexivity.
  - intros [_ Hload]. discriminate Hload.
Defined.

(** A tag is created, the example tag is duplicated and then deleted:
    tags and revisions still point to each other. *)
Lemma mutations_keep_links_witness :
  linked
    (storeAfterAll
       [(ctxOwner, CreateTag (createRequest HEAD false));
        (ctxOwner, DuplicateTag (duplicateRequest idTag "Copy"));
        (ctxOwner, DeleteTag (deleteRequest false))]
       (storeWith (tagWith HEAD [idGroupA]) None)).
Proof.
  apply mutations_keep_links.
  - split; [apply storeWith_filed_tags|].
    split; [apply storeWith_filed_revisions | apply storeWith_filed_ruleGroups].
  - reflexivity.
  - apply (linked_singleton (tagWith HEAD [idGroupA]) exampleRevision); reflexivity.
Defined.


End Witnesses.
